(** * Raycaster: the ray march, the wall intersection, the z-buffer and the
      player collision of [pyraycaster/raycaster.py] and [pywolf/raycaster.py]

    Number model.  Python's [float] is modelled in two ways.
    - The engine itself is embedded over the rationals [Q]: every [+ - * /]
      is exact, [int()] truncates toward zero, comparisons are exact.  This
      is the reading under which the geometry of the source is meant.
    - Where the rounding of binary64 decides the outcome (the accumulated
      march distance, the wrap of a texture coordinate) the same source lines
      are embedded a second time over the primitive binary64 floats, in
      [Module Binary64], and evaluated there.
    The angle of a vector, [atan2], is not a rational: the classifier only
    compares angles, and the comparison is made on exact codes that are
    shown to order as [atan2] does on the reals. *)

From Stdlib Require Import Reals Qreals Lra.
From Stdlib Require Import ZArith QArith Qround Qminmax Qabs Lqa Lia Bool.
From Stdlib Require Import Floats Ascii String.
From stdpp Require Import base relations list gmap option.

Set Default Proof Using "Type".
Open Scope Q_scope.

(** ** Numbers *)

(** [int(x)] on a float: truncation toward zero. *)
Definition int (q : Q) : Z :=
  if Qle_bool 0 q then Qfloor q else Qceiling q.

(** [x % 1.0] in exact arithmetic, [x - floor(x)]. *)
Definition mod1 (q : Q) : Q := q - inject_Z (Qfloor q).

Definition Qltb (a b : Q) : bool := negb (Qle_bool b a).

(** Python's [max(a, b)]: the first argument unless the second is greater. *)
Definition py_max (a b : Q) : Q := if Qltb a b then b else a.

(** [range(a, b)]. *)
Definition range (a b : Z) : list Z := seqZ a (b - a).

(** Float division: [ZeroDivisionError] ([None]) for a zero divisor. *)
Definition fdiv (a b : Q) : option Q :=
  if Qeq_bool b 0 then None else Some (a / b).

(** Python's list index: a negative index counts from the end, anything
    else out of range raises [IndexError] ([None]). *)
Definition py_index {A} (l : list A) (i : Z) : option nat :=
  let n := Z.of_nat (length l) in
  if (0 <=? i)%Z && (i <? n)%Z then Some (Z.to_nat i)
  else if (- n <=? i)%Z && (i <? 0)%Z then Some (Z.to_nat (i + n))
  else None.

(** A loop body run over a list, stopping at the first exception. *)
Fixpoint for_each {A S} (l : list A) (body : A -> S -> option S) (s : S)
  : option S :=
  match l with
  | [] => Some s
  | a :: l' => match body a s with
               | Some s' => for_each l' body s'
               | None => None
               end
  end.

(** ** Vectors *)

(** Modelled from the spec: [vector.py] is not among the sources.  A [Vec2]
    is a pair of floats used as a value ([ray += ray_step] rebinds [ray]),
    with componentwise [+], [-] and scaling by a float. *)
Module Vec2.
Record t := mk { x : Q; y : Q }.
Definition add (a b : t) : t := mk (x a + x b) (y a + y b).
Definition sub (a b : t) : t := mk (x a - x b) (y a - y b).
Definition scale (k : Q) (a : t) : t := mk (k * x a) (k * y a).
End Vec2.

Declare Scope vec_scope.
Delimit Scope vec_scope with V.
Bind Scope vec_scope with Vec2.t.
Infix "+" := Vec2.add : vec_scope.
Infix "-" := Vec2.sub : vec_scope.
Infix "*" := Vec2.scale : vec_scope.

(** Modelled from the spec: [angle()] is [atan2(y, x)], with values in
    (-pi, pi].  The raycaster only ever compares two angles with [<], so an
    angle is kept as a code whose order is the order of [atan2]: the sector
    of the plane the vector lies in and, inside a sector, the slope [y/x]
    (the tangent, which grows with the angle).

      sector 0   x < 0, y < 0     -pi   < a < -pi/2
      sector 1   x = 0, y < 0     a = -pi/2
      sector 2   x > 0            -pi/2 < a < pi/2    (and [atan2(0,0) = 0])
      sector 3   x = 0, y > 0     a = pi/2
      sector 4   x < 0, y >= 0    pi/2  < a <= pi *)
Record Angle := mkAngle { sector : Z; slope : Q }.

Definition angle (v : Vec2.t) : Angle :=
  let x := Vec2.x v in
  let y := Vec2.y v in
  match x ?= 0, y ?= 0 with
  | Gt, _ => mkAngle 2 (y / x)
  | Eq, Lt => mkAngle 1 0
  | Eq, Eq => mkAngle 2 0
  | Eq, Gt => mkAngle 3 0
  | Lt, Lt => mkAngle 0 (y / x)
  | Lt, _ => mkAngle 4 (y / x)
  end.

(** [a < b] on two angles. *)
Definition angle_lt (a b : Angle) : bool :=
  (sector a <? sector b)%Z
  || ((sector a =? sector b)%Z && Qltb (slope a) (slope b)).

(** The angle a code stands for, and [atan2] itself on the reals:
    [angle_value_atan2] and [angle_lt_atan2] show that the code of a vector
    stands for its [atan2] and that codes compare as the angles do. *)
Definition angle_value (a : Angle) : R :=
  match sector a with
  | 0%Z => atan (Q2R (slope a)) - PI
  | 1%Z => - PI / 2
  | 2%Z => atan (Q2R (slope a))
  | 3%Z => PI / 2
  | _ => atan (Q2R (slope a)) + PI
  end%R.

Definition atan2 (y x : R) : R :=
  (if Rlt_dec 0 x then atan (y / x)
   else if Rlt_dec x 0 then
     if Rle_dec 0 y then atan (y / x) + PI else atan (y / x) - PI
   else if Rlt_dec 0 y then PI / 2
   else if Rlt_dec y 0 then - PI / 2
   else 0)%R.

(** What the code of a vector looks like, sector by sector. *)
Definition angle_wf (a : Angle) : Prop :=
  (sector a = 0%Z /\ (0 < Q2R (slope a))%R)
  \/ (sector a = 1%Z /\ slope a = 0)
  \/ sector a = 2%Z
  \/ (sector a = 3%Z /\ slope a = 0)
  \/ (sector a = 4%Z /\ (Q2R (slope a) <= 0)%R).

(** ** The map *)

(** The edge of a map square a ray enters through ([mapstuff.Intersection];
    the strings "top", "bottom", "left", "right" in pywolf). *)
Inductive Intersection := TOP | BOTTOM | LEFT | RIGHT.

(** [mapstuff.Map] is not among the sources; the raycaster uses its [width],
    its [height] and [get_wall(mx, my)], which are taken as they come. *)
Record Map := mkMap {
  width : Z;
  height : Z;
  get_wall : Z -> Z -> Z
}.

Definition SENTINEL : Z := 255.

Definition map_square (m : Map) (x y : Q) : Z :=
  let mx := int x in
  let my := int y in
  if (mx <? 0)%Z || (mx >=? width m)%Z || (my <? 0)%Z || (my >=? height m)%Z
  then SENTINEL
  else get_wall m mx my.

Definition BLACK_DISTANCE : Q := 4.0.

Definition brightness (distance : Q) : Q :=
  py_max 0.0 (1.0 - distance / BLACK_DISTANCE).

(** ** The exact intersection with a map square *)

Definition square_center_of (cast_ray : Vec2.t) : Vec2.t :=
  Vec2.mk (inject_Z (int (Vec2.x cast_ray)) + 0.5)
          (inject_Z (int (Vec2.y cast_ray)) + 0.5).

(** The first half of [intersection_with_mapsquare_accurate]: the edge. *)
Definition intersected_edge (camera cast_ray : Vec2.t) : Intersection :=
  let direction := (cast_ray - camera)%V in
  let square_center := square_center_of cast_ray in
  if Qltb (Vec2.x camera) (Vec2.x square_center) then
    if Qltb (Vec2.y camera) (Vec2.y square_center) then
      let vertex_angle :=
        angle ((square_center + Vec2.mk (-0.5) (-0.5)) - camera)%V in
      if angle_lt (angle direction) vertex_angle then BOTTOM else LEFT
    else
      let vertex_angle :=
        angle ((square_center + Vec2.mk (-0.5) 0.5) - camera)%V in
      if angle_lt (angle direction) vertex_angle then LEFT else TOP
  else
    if Qltb (Vec2.y camera) (Vec2.y square_center) then
      let vertex := ((square_center + Vec2.mk 0.5 (-0.5)) - camera)%V in
      let vertex := Vec2.mk (- Vec2.x vertex) (Vec2.y vertex) in
      let positive_dir := Vec2.mk (- Vec2.x direction) (Vec2.y direction) in
      if angle_lt (angle positive_dir) (angle vertex) then BOTTOM else RIGHT
    else
      let vertex := ((square_center + Vec2.mk 0.5 0.5) - camera)%V in
      let vertex := Vec2.mk (- Vec2.x vertex) (Vec2.y vertex) in
      let positive_dir := Vec2.mk (- Vec2.x direction) (Vec2.y direction) in
      if angle_lt (angle positive_dir) (angle vertex) then RIGHT else TOP.

(** [0.0 if divisor == 0 else start + (edge - from) * slope_num / divisor]:
    the guarded intercept of the four branches below. *)
Definition intercept (start edge from slope_num divisor : Q) : option Q :=
  if Qeq_bool divisor 0 then Some 0.0
  else
    match fdiv ((edge - from) * slope_num) divisor with
    | Some t => Some (start + t)
    | None => None
    end.

(** The second half: the exact coordinates on that edge, and the texture
    sample coordinate. *)
Definition edge_intersection (intersects : Intersection)
    (camera direction square_center : Vec2.t)
  : option (Intersection * Q * Vec2.t) :=
  match intersects with
  | TOP =>
      let iy := Vec2.y square_center + 0.5 in
      match intercept (Vec2.x camera) iy (Vec2.y camera)
              (Vec2.x direction) (Vec2.y direction) with
      | Some ix => Some (intersects, - ix, Vec2.mk ix iy)
      | None => None
      end
  | BOTTOM =>
      let iy := Vec2.y square_center - 0.5 in
      match intercept (Vec2.x camera) iy (Vec2.y camera)
              (Vec2.x direction) (Vec2.y direction) with
      | Some ix => Some (intersects, ix, Vec2.mk ix iy)
      | None => None
      end
  | LEFT =>
      let ix := Vec2.x square_center - 0.5 in
      match intercept (Vec2.y camera) ix (Vec2.x camera)
              (Vec2.y direction) (Vec2.x direction) with
      | Some iy => Some (intersects, - iy, Vec2.mk ix iy)
      | None => None
      end
  | RIGHT =>
      let ix := Vec2.x square_center + 0.5 in
      match intercept (Vec2.y camera) ix (Vec2.x camera)
              (Vec2.y direction) (Vec2.x direction) with
      | Some iy => Some (intersects, iy, Vec2.mk ix iy)
      | None => None
      end
  end.

(** [None] would be an exception; [intersection_never_raises] shows there
    is none. *)
Definition intersection_with_mapsquare_accurate (camera cast_ray : Vec2.t)
  : option (Intersection * Q * Vec2.t) :=
  edge_intersection (intersected_edge camera cast_ray)
    camera (cast_ray - camera)%V (square_center_of cast_ray).

(** ** The fast intersection with a map square *)

(** [a <= b] on two angles. *)
Definition angle_le (a b : Angle) : bool := negb (angle_lt b a).

(** The constants [pi*.25], [-pi*.25], [pi*.75] and [-pi*.75] as codes:
    the angles of (1, 1), (1, -1), (-1, 1) and (-1, -1). *)
Definition quarter_pi : Angle := mkAngle 2 1.
Definition minus_quarter_pi : Angle := mkAngle 2 (-1).
Definition three_quarter_pi : Angle := mkAngle 4 (-1).
Definition minus_three_quarter_pi : Angle := mkAngle 0 1.

(** [intersection_with_mapsquare_fast]: the texture coordinate read off
    the sample point itself, by the quadrant of the square it lies in. *)
Definition intersection_with_mapsquare_fast (cast_ray : Vec2.t) : Q :=
  let square_center := square_center_of cast_ray in
  let angle := angle (cast_ray - square_center)%V in
  if angle_le minus_quarter_pi angle && angle_lt angle quarter_pi then
    Vec2.y cast_ray
  else if angle_le quarter_pi angle && angle_lt angle three_quarter_pi then
    - Vec2.x cast_ray
  else if angle_le minus_three_quarter_pi angle
          && angle_lt angle minus_quarter_pi then
    Vec2.x cast_ray
  else
    - Vec2.y cast_ray.

(** ** The renderer's state *)

Definition RGBA : Type := Z * Z * Z * Z.

(** A z-buffer cell: a float that can be [float("inf")]. *)
Inductive Depth := Fin (z : Q) | Inf.

Definition depth_ltb (a b : Depth) : bool :=
  match a, b with
  | Fin p, Fin q => Qltb p q
  | Fin _, Inf => true
  | Inf, _ => false
  end.

(** [mapstuff.Texture] is not among the sources: a texture is what
    [sample(u, v)] returns. *)
Definition Texture : Type := Q -> Q -> RGBA.

Record Raycaster := mkRaycaster {
  pixwidth : Z;
  pixheight : Z;
  empty_zbuffer : list Depth;
  zbuffer : list Depth;
  ceiling_sizes : list Z;
  image_buf : gmap (Z * Z) RGBA;
  wall_textures : list Texture;
  ceiling_tex : Texture;
  floor_tex : Texture;
  frame : Z;
  player_position : Vec2.t;
  player_direction : Vec2.t;
  camera_plane : Vec2.t;
  map : Map
}.

Definition with_zbuffer (rc : Raycaster) (zb : list Depth) : Raycaster :=
  mkRaycaster (pixwidth rc) (pixheight rc) (empty_zbuffer rc) zb
    (ceiling_sizes rc) (image_buf rc) (wall_textures rc) (ceiling_tex rc)
    (floor_tex rc) (frame rc) (player_position rc) (player_direction rc)
    (camera_plane rc) (map rc).

Definition with_image_buf (rc : Raycaster) (img : gmap (Z * Z) RGBA)
  : Raycaster :=
  mkRaycaster (pixwidth rc) (pixheight rc) (empty_zbuffer rc) (zbuffer rc)
    (ceiling_sizes rc) img (wall_textures rc) (ceiling_tex rc)
    (floor_tex rc) (frame rc) (player_position rc) (player_direction rc)
    (camera_plane rc) (map rc).

Definition with_ceiling_sizes (rc : Raycaster) (cs : list Z) : Raycaster :=
  mkRaycaster (pixwidth rc) (pixheight rc) (empty_zbuffer rc) (zbuffer rc)
    cs (image_buf rc) (wall_textures rc) (ceiling_tex rc)
    (floor_tex rc) (frame rc) (player_position rc) (player_direction rc)
    (camera_plane rc) (map rc).

Definition with_frame (rc : Raycaster) (f : Z) : Raycaster :=
  mkRaycaster (pixwidth rc) (pixheight rc) (empty_zbuffer rc) (zbuffer rc)
    (ceiling_sizes rc) (image_buf rc) (wall_textures rc) (ceiling_tex rc)
    (floor_tex rc) f (player_position rc) (player_direction rc)
    (camera_plane rc) (map rc).

Definition with_player_position (rc : Raycaster) (p : Vec2.t) : Raycaster :=
  mkRaycaster (pixwidth rc) (pixheight rc) (empty_zbuffer rc) (zbuffer rc)
    (ceiling_sizes rc) (image_buf rc) (wall_textures rc) (ceiling_tex rc)
    (floor_tex rc) (frame rc) p (player_direction rc)
    (camera_plane rc) (map rc).

(** ** Casting a ray *)

Definition step_size : Q := 0.02.

(** The [while distance <= BLACK_DISTANCE] loop of [cast_ray], in exact
    arithmetic.  [fuel] bounds the number of turns; [None] is an exception
    or "out of fuel", and [cast_ray_returns] shows that neither happens
    with the fuel [cast_ray] gives (201 turns take the exact counter to
    4.02).  On binary64 the loop makes 200 turns and the counter ends at
    4.0000000000000027: [Binary64.march] is the loop on floats, and what a
    ray returns, its distance and whether it hits, is stated of that one. *)
Fixpoint march (fuel : nat) (m : Map) (camera ray_step : Vec2.t)
    (distance : Q) (ray : Vec2.t) : option (Z * Q * Q * Intersection) :=
  if Qle_bool distance BLACK_DISTANCE then
    match fuel with
    | O => None
    | S fuel' =>
        let distance := distance + step_size in
        let ray := (ray + ray_step)%V in
        let square := map_square m (Vec2.x ray) (Vec2.y ray) in
        if (square =? 0)%Z then march fuel' m camera ray_step distance ray
        else
          match intersection_with_mapsquare_accurate camera ray with
          | Some (side, tx, _) => Some (square, distance, tx, side)
          | None => None
          end
    end
  else Some ((-1)%Z, distance, 0.0, TOP).

Definition ray_direction (rc : Raycaster) (pixel_x : Z) : Vec2.t :=
  let camera_plane_ray :=
    (((inject_Z pixel_x / inject_Z (pixwidth rc) - 0.5) * 2) * camera_plane rc)%V in
  (player_direction rc + camera_plane_ray)%V.

(** [pixel_x / self.pixwidth] raises [ZeroDivisionError] for a zero width. *)
Definition cast_ray (rc : Raycaster) (pixel_x : Z)
  : option (Z * Q * Q * Intersection) :=
  if (pixwidth rc =? 0)%Z then None
  else
    let cast_ray := ray_direction rc pixel_x in
    let ray_step := (step_size * cast_ray)%V in
    march 201 (map rc) (player_position rc) ray_step 0.0 (player_position rc).

(** ** Drawing *)

Definition color_brightness (rgba : RGBA) (brightness : Q) : RGBA :=
  let '(r, g, b, a) := rgba in
  (int (inject_Z r * brightness), int (inject_Z g * brightness),
   int (inject_Z b * brightness), a).

(** [rgba] is an [Optional] tuple: [None] is falsy, a 4-tuple is truthy
    whatever its components.  [self.zbuffer[...]] raises [IndexError]
    ([None]) out of range.  The image buffer is the pixel access object of
    the imaging library, kept here as the finite map of the pixels set. *)
Definition set_pixel (rc : Raycaster) (x y : Z) (z brightness : Q)
    (rgba : option RGBA) : option Raycaster :=
  match rgba with
  | None => Some rc
  | Some c =>
      match py_index (zbuffer rc) (x + y * pixwidth rc) with
      | None => None
      | Some i =>
          match zbuffer rc !! i with
          | None => None
          | Some old =>
              if depth_ltb (Fin z) old then
                let rc := with_zbuffer rc (<[i := Fin z]> (zbuffer rc)) in
                let c := if Qltb 0 z && negb (Qeq_bool brightness 1.0)
                         then color_brightness c brightness else c in
                Some (with_image_buf rc (<[(x, y) := c]> (image_buf rc)))
              else Some rc
          end
      end
  end.

Definition draw_column (rc : Raycaster) (x ceiling : Z) (distance : Q)
    (texture : Texture) (tx : Q) (side : Intersection) : option Raycaster :=
  let start_y := (0 `max` ceiling)%Z in
  let num_pixels := (pixheight rc - 2 * start_y)%Z in
  let wall_height := (pixheight rc - 2 * ceiling)%Z in
  let brightness := brightness distance in
  for_each (range start_y (start_y + num_pixels))
    (fun y rc =>
       set_pixel rc x y distance brightness
         (Some (texture tx (inject_Z (y - ceiling) / inject_Z wall_height))))
    rc.

Definition draw_black_column (rc : Raycaster) (x ceiling : Z) (distance : Q)
  : option Raycaster :=
  let start_y := (0 `max` ceiling)%Z in
  let num_pixels := (pixheight rc - 2 * start_y)%Z in
  for_each (range start_y (start_y + num_pixels))
    (fun y rc => set_pixel rc x y distance 1.0 (Some (0, 0, 0, 0)%Z))
    rc.

(** [max(ceiling_sizes)] raises [ValueError] on an empty list. *)
Definition py_max_list (l : list Z) : option Z :=
  match l with
  | [] => None
  | a :: l' => Some (foldl (fun m b => if (m <? b)%Z then b else m) a l')
  end.

(** The body of [for x, h in enumerate(ceiling_sizes)] in
    [draw_floor_and_ceiling], for the row [y]. *)
Definition floor_and_ceiling_pixel (y : Z) (d_ground brightness : Q)
    (xh : Z * Z) (rc : Raycaster) : option Raycaster :=
  let '(x, h) := xh in
  if (y <? h)%Z then
    match py_index (zbuffer rc) (x + y * pixwidth rc) with
    | None => None
    | Some i =>
        match zbuffer rc !! i with
        | None => None
        | Some old =>
            if depth_ltb (Fin d_ground) old then
              let ray :=
                (player_position rc + d_ground * ray_direction rc x)%V in
              match set_pixel rc x y d_ground brightness
                      (Some (ceiling_tex rc (Vec2.x ray) (Vec2.y ray))) with
              | None => None
              | Some rc =>
                  set_pixel rc x (pixheight rc - y - 1) d_ground brightness
                    (Some (floor_tex rc (Vec2.x ray) (Vec2.y ray)))
              end
            else Some rc
        end
    end
  else Some rc.

(** The body of [for y in range(min(mcs, max_height_possible))]; the
    division by [sy] raises [ZeroDivisionError] for [sy == 0]. *)
Definition floor_and_ceiling_row (ceiling_sizes : list Z) (d_screen : Q)
    (y : Z) (rc : Raycaster) : option Raycaster :=
  let sy := 0.5 - inject_Z y / inject_Z (pixheight rc) in
  match fdiv (0.5 * d_screen) sy with
  | None => None
  | Some d_ground =>
      let brightness := brightness d_ground in
      for_each (imap (fun x h => (Z.of_nat x, h)) ceiling_sizes)
        (floor_and_ceiling_pixel y d_ground brightness) rc
  end.

Definition draw_floor_and_ceiling (rc : Raycaster) (ceiling_sizes : list Z)
    (d_screen : Q) : option Raycaster :=
  match py_max_list ceiling_sizes with
  | None => None
  | Some mcs =>
      if (mcs <=? 0)%Z then Some rc
      else
        let max_height_possible :=
          int (inject_Z (pixheight rc)
               * (1.0 - d_screen / BLACK_DISTANCE) / 2.0) in
        for_each (range 0 (mcs `min` max_height_possible)%Z)
          (floor_and_ceiling_row ceiling_sizes d_screen) rc
  end.

(** [l[x] = v] on a Python list. *)
Definition py_setitem {A} (l : list A) (i : Z) (v : A) : option (list A) :=
  match py_index l i with
  | Some n => Some (<[n := v]> l)
  | None => None
  end.

(** One pixel a sprite asks [set_pixel] for: [x], [y], [z], brightness and
    the texture colour. *)
Definition PixelWrite : Type := Z * Z * Q * Q * option RGBA.

Definition set_pixels (ws : list PixelWrite) (rc : Raycaster)
  : option Raycaster :=
  for_each ws (fun '(x, y, z, b, c) rc => set_pixel rc x y z b c) rc.

Section Tick.
(** [tan(self.HVOF / 2)], a value of the math library. *)
Variable tan_half_hvof : Q.

(** [draw_sprites] places the billboards with [atan2], [sqrt] and [cos];
    the pixels it passes to [set_pixel] depend on the pose, the sprite
    roster and the textures but never on the buffers (the alpha test
    [tc[3] > 200] reads the texture only).  They are taken as given, in the
    order of the two loops; [None] is the [KeyError] of an unknown sprite. *)
Variable sprite_pixels : Raycaster -> Q -> option (list PixelWrite).

Definition screen_distance (rc : Raycaster) : option Q :=
  let d := tan_half_hvof * inject_Z (pixheight rc) in
  if (pixwidth rc =? 0)%Z || Qeq_bool d 0 then None
  else Some (0.5 / (d / inject_Z (pixwidth rc))).

Definition draw_sprites (rc : Raycaster) (d_screen : Q) : option Raycaster :=
  match sprite_pixels rc d_screen with
  | None => None
  | Some ws => set_pixels ws rc
  end.

(** The body of [for x in range(self.pixwidth)] in [tick]. *)
Definition tick_column (d_screen : Q) (x : Z) (rc : Raycaster)
  : option Raycaster :=
  match cast_ray rc x with
  | None => None
  | Some (wall, distance, texture_x, side) =>
      if Qltb 0 distance then
        let ceiling_size :=
          int (inject_Z (pixheight rc) * (1.0 - d_screen / distance) / 2.0) in
        match py_setitem (ceiling_sizes rc) x ceiling_size with
        | None => None
        | Some cs =>
            let rc := with_ceiling_sizes rc cs in
            if (0 <? wall)%Z then
              match py_index (wall_textures rc) wall with
              | None => None
              | Some i =>
                  match wall_textures rc !! i with
                  | None => None
                  | Some texture =>
                      draw_column rc x ceiling_size distance texture
                        texture_x side
                  end
              end
            else draw_black_column rc x ceiling_size distance
        end
      else
        match py_setitem (ceiling_sizes rc) x 0%Z with
        | None => None
        | Some cs => Some (with_ceiling_sizes rc cs)
        end
  end.

(** The first two statements of [tick]: the frame counter and
    [self.zbuffer[:] = self.empty_zbuffer]. *)
Definition tick_begin (rc : Raycaster) : Raycaster :=
  let rc := with_frame rc (frame rc + 1)%Z in
  with_zbuffer rc (empty_zbuffer rc).

Definition tick (rc : Raycaster) (walltime_msec : Q) : option Raycaster :=
  let rc := tick_begin rc in
  match screen_distance rc with
  | None => None
  | Some d_screen =>
      match for_each (range 0 (pixwidth rc)) (tick_column d_screen) rc with
      | None => None
      | Some rc =>
          match draw_floor_and_ceiling rc (ceiling_sizes rc) d_screen with
          | None => None
          | Some rc => draw_sprites rc d_screen
          end
      end
  end.
End Tick.

(** What [__init__] builds of the buffers: [[float("inf")] * pixheight *
    pixwidth], copied into [zbuffer], and [[0] * pixwidth]. *)
Definition init_buffers (rc : Raycaster) : Prop :=
  empty_zbuffer rc
    = replicate (Z.to_nat (pixheight rc) * Z.to_nat (pixwidth rc)) Inf
  /\ length (zbuffer rc) = length (empty_zbuffer rc)
  /\ length (ceiling_sizes rc) = Z.to_nat (pixwidth rc).

(** ** Moving the player *)

Definition _move_player (rc : Raycaster) (x y : Q) : Raycaster :=
  if (map_square (map rc) x y =? 0)%Z then
    let x := if negb (map_square (map rc) (x + 0.1) y =? 0)%Z
             then inject_Z (int x) + 0.9 else x in
    let x := if negb (map_square (map rc) (x - 0.1) y =? 0)%Z
             then inject_Z (int x) + 0.1 else x in
    let y := if negb (map_square (map rc) x (y + 0.1) =? 0)%Z
             then inject_Z (int y) + 0.9 else y in
    let y := if negb (map_square (map rc) x (y - 0.1) =? 0)%Z
             then inject_Z (int y) + 0.1 else y in
    with_player_position rc (Vec2.mk x y)
  else rc.

Section Moves.
(** Modelled from the spec: [normalized()] of the absent [vector.py]
    (the vector scaled to unit length); it needs a square root and is
    taken as given. *)
Variable normalized : Vec2.t -> Vec2.t.


End Moves.

(** ** pywolf: the map as rows of bytes, and the texture *)


Module Pywolf.

(** [translate(c)] of [load_map]. *)
Definition translate (c : ascii) : Z :=
  let n := Z.of_N (N_of_ascii c) in
  if (48 <=? n)%Z && (n <=? 57)%Z then (n - 48)%Z else 0%Z.

(** [load_map], for the rows [cmap] written in the source (top row first):
    the rows are reversed and every character translated. *)
Definition load_map (cmap : list string) : list (list Z) :=
  (fun mapline => translate <$> list_ascii_of_string mapline)
    <$> reverse cmap.

Definition cmap : list string :=
  [ "11111111111111111111"; "1..................1"; "1..111111222222.2221";
    "1.....1.....2......1"; "1.....1.....2......1"; "1...111.....2222...1";
    "1.....1222..2......1"; "1......222..2.1.2.11"; "1.........s........1";
    "11111111111111111111" ]%string.

(** [map_square] on [self.map], rows of bytes: [self.map[my][mx]].  The
    tests of the [or] chain are evaluated left to right; [self.map[0]]
    raises [IndexError] ([None]) on a map without rows, and so does a row
    shorter than the first. *)
Definition map_square (m : list (list Z)) (x y : Q) : option Z :=
  let mx := int x in
  let my := int y in
  if (mx <? 0)%Z then Some SENTINEL
  else
    match m !! 0%nat with
    | None => None
    | Some row0 =>
        if (mx >=? Z.of_nat (length row0))%Z || (my <? 0)%Z
           || (my >=? Z.of_nat (length m))%Z
        then Some SENTINEL
        else
          match m !! Z.to_nat my with
          | None => None
          | Some row => row !! Z.to_nat mx
          end
    end.

(** The same map seen through the three members the canonical
    raycaster reads. *)
Definition as_Map (m : list (list Z)) : Map :=
  mkMap (Z.of_nat (length (default [] (m !! 0%nat))))
        (Z.of_nat (length m))
        (fun mx my =>
           default 0%Z
             (match m !! Z.to_nat my with
              | Some row => row !! Z.to_nat mx
              | None => None
              end)).

Definition rectangular (m : list (list Z)) : Prop :=
  exists row0, m !! 0%nat = Some row0
    /\ Forall (fun row => length row = length row0) m.

Definition SIZE : Z := 64.

(** The two pixel indices of [Texture.sample], in exact arithmetic. *)
Definition sample_index (x : Q) : Z := int (mod1 x * inject_Z SIZE).

(** [self.image[ix, iy]]: the pixel access of a [SIZE] x [SIZE] image
    raises [IndexError] outside it. *)
Definition sample (image : Z -> Z -> Z * Z * Z) (x y : Q)
  : option (Z * Z * Z) :=
  let ix := sample_index x in
  let iy := sample_index y in
  if (0 <=? ix)%Z && (ix <? SIZE)%Z && (0 <=? iy)%Z && (iy <? SIZE)%Z
  then Some (image ix iy) else None.

(** [line.find('s')] for a single character: the index of its first
    occurrence, -1 when there is none. *)
Fixpoint find_from (c : ascii) (line : list ascii) (i : Z) : Z :=
  match line with
  | [] => (-1)%Z
  | a :: line' => if Ascii.eqb a c then i else find_from c line' (i + 1)
  end.

Definition find (line : string) (c : ascii) : Z :=
  find_from c (list_ascii_of_string line) 0.

(** The loop of [load_map] that looks for the start square, over the rows
    from [y] on: the first row with an ['s'] gives the position and ends
    the loop; [None] when no row has one (the position is then left as
    [__init__] set it). *)
Fixpoint start_from (rows : list string) (y : Z) : option Vec2.t :=
  match rows with
  | [] => None
  | line :: rows' =>
      let x := find line "s" in
      if (x >=? 0)%Z then Some (Vec2.mk (inject_Z x + 0.5) (inject_Z y + 0.5))
      else start_from rows' (y + 1)
  end.

(** [self.player_position] after [__init__]: [Vec2(0, 0)] unless
    [load_map] finds the start square in the reversed rows. *)
Definition player_start (cmap : list string) : Vec2.t :=
  default (Vec2.mk 0 0) (start_from (reverse cmap) 0).

(** [rgb_brightness]. *)
Definition rgb_brightness (rgb : Z * Z * Z) (brightness : Q) : Z * Z * Z :=
  let '(r, g, b) := rgb in
  (int (inject_Z r * brightness), int (inject_Z g * brightness),
   int (inject_Z b * brightness)).

(** [intersection_with_mapsquare]: the edge is chosen by the same
    comparisons as in the canonical raycaster (with the strings "top",
    "bottom", "left", "right" for the edges); the texture coordinate is
    the offset of the point along the edge. *)
Definition intersection_with_mapsquare (camera cast_ray : Vec2.t)
  : option (Q * Vec2.t) :=
  let direction := (cast_ray - camera)%V in
  let square_center := square_center_of cast_ray in
  match intersected_edge camera cast_ray with
  | TOP =>
      let iy := Vec2.y square_center + 0.5 in
      match intercept (Vec2.x camera) iy (Vec2.y camera)
              (Vec2.x direction) (Vec2.y direction) with
      | Some ix => Some (Vec2.x square_center + 0.5 - ix, Vec2.mk ix iy)
      | None => None
      end
  | BOTTOM =>
      let iy := Vec2.y square_center - 0.5 in
      match intercept (Vec2.x camera) iy (Vec2.y camera)
              (Vec2.x direction) (Vec2.y direction) with
      | Some ix => Some (ix - Vec2.x square_center + 0.5, Vec2.mk ix iy)
      | None => None
      end
  | LEFT =>
      let ix := Vec2.x square_center - 0.5 in
      match intercept (Vec2.y camera) ix (Vec2.x camera)
              (Vec2.y direction) (Vec2.x direction) with
      | Some iy => Some (Vec2.y square_center + 0.5 - iy, Vec2.mk ix iy)
      | None => None
      end
  | RIGHT =>
      let ix := Vec2.x square_center + 0.5 in
      match intercept (Vec2.y camera) ix (Vec2.x camera)
              (Vec2.y direction) (Vec2.x direction) with
      | Some iy => Some (iy - Vec2.y square_center + 0.5, Vec2.mk ix iy)
      | None => None
      end
  end.

End Pywolf.

(** ** The same lines over binary64 *)

Set Warnings "-inexact-float".

Module Binary64.
Local Open Scope float_scope.

(** [int(f)]: truncation toward zero, [None] for the [ValueError] of a
    NaN and the [OverflowError] of an infinity. *)
Definition int (f : float) : option Z :=
  match Prim2SF f with
  | S754_zero _ => Some 0%Z
  | S754_finite s m e =>
      let a := if (0 <=? e)%Z then Z.shiftl (Zpos m) e
               else Z.shiftr (Zpos m) (- e) in
      Some (if s then (- a)%Z else a)
  | S754_infinity _ => None
  | S754_nan => None
  end.

Definition of_Z (z : Z) : float :=
  if (z <? 0)%Z then - of_uint63 (Uint63.of_Z (- z))
  else of_uint63 (Uint63.of_Z z).

(** C's [fmod(x, 1.0)]: [x] minus its integer part, exactly, with the sign
    of [x]; a float with a non-negative exponent is an integer. *)
Definition fmod1 (x : float) : float :=
  match Prim2SF x with
  | S754_zero _ => x
  | S754_finite s m e =>
      if (0 <=? e)%Z then (if s then -0 else 0)
      else match int x with
           | Some t => x - of_Z t
           | None => nan
           end
  | _ => nan
  end.

(** Python's [x % 1.0] on floats: [fmod], then the divisor is added when
    the remainder is non-zero and negative; a zero remainder is [+0.0]. *)
Definition mod1 (x : float) : float :=
  let m := fmod1 x in
  if is_nan m then m
  else if m =? 0 then 0
  else if m <? 0 then m + 1.0
  else m.

Definition SIZE : float := 64.

(** [int((x % 1.0) * self.SIZE)] of [Texture.sample]. *)
Definition sample_index (x : float) : option Z := int (mod1 x * SIZE).

(** [self.image[ix, iy]] of [Texture.sample], with the [IndexError] of
    the pixel access. *)
Definition sample (image : Z -> Z -> Z * Z * Z) (x y : float)
  : option (Z * Z * Z) :=
  match sample_index x, sample_index y with
  | Some ix, Some iy =>
      if (0 <=? ix)%Z && (ix <? 64)%Z && (0 <=? iy)%Z && (iy <? 64)%Z
      then Some (image ix iy) else None
  | _, _ => None
  end.

(** The distance counter of [cast_ray] on a ray that hits nothing: the
    counter does not depend on the map. *)
Fixpoint march_distance (fuel : nat) (distance : float) : option float :=
  if distance <=? 4.0 then
    match fuel with
    | O => None
    | S fuel' => march_distance fuel' (distance + 0.02)
    end
  else Some distance.

(** Modelled from the spec: [vector.py] is not among the sources.  A
    [Vec2] of floats, with componentwise [+] and the scaling by a float
    (the product of two floats does not depend on their order). *)
Record Vec2 := mkVec2 { vx : float; vy : float }.

Definition add (a b : Vec2) : Vec2 := mkVec2 (vx a + vx b) (vy a + vy b).

Definition scale (k : float) (a : Vec2) : Vec2 := mkVec2 (k * vx a) (k * vy a).

(** What [cast_ray] reads of the raycaster. *)
Record Camera := mkCamera {
  pixwidth : Z;
  player_position : Vec2;
  player_direction : Vec2;
  camera_plane : Vec2;
  map : Map
}.

(** [map_square] on floats: [int()] raises on a NaN or an infinity. *)
Definition map_square (m : Map) (x y : float) : option Z :=
  match int x with
  | None => None
  | Some mx =>
      match int y with
      | None => None
      | Some my =>
          Some (if (mx <? 0)%Z || (mx >=? width m)%Z
                   || (my <? 0)%Z || (my >=? height m)%Z
                then SENTINEL
                else get_wall m mx my)
      end
  end.

Definition BLACK_DISTANCE : float := 4.0.

Definition step_size : float := 0.02.

(** [pixel_x / self.pixwidth] divides two integers: for a column of a
    screen up to 2^53 pixels wide, the quotient of the two floats. *)
Definition ray_direction (cam : Camera) (pixel_x : Z) : Vec2 :=
  let camera_plane_ray :=
    scale ((of_Z pixel_x / of_Z (pixwidth cam) - 0.5) * 2) (camera_plane cam) in
  add (player_direction cam) camera_plane_ray.

Section Cast.
(** [intersection_with_mapsquare_accurate] on floats compares angles that
    the math library's [atan2] gives; it raises nothing (its divisions are
    guarded, [int()] is applied to coordinates [map_square] has truncated
    before) and is taken as given: the edge, the texture coordinate and the
    point for a camera and a sample point. *)
Variable intersection_with_mapsquare_accurate :
  Vec2 -> Vec2 -> Intersection * float * Vec2.

(** The [while distance <= BLACK_DISTANCE] loop of [cast_ray]; [None] is
    an exception of [int()] or "out of fuel". *)
Fixpoint march (fuel : nat) (m : Map) (camera ray_step : Vec2)
    (distance : float) (ray : Vec2) : option (Z * float * float * Intersection) :=
  if distance <=? BLACK_DISTANCE then
    match fuel with
    | O => None
    | S fuel' =>
        let distance := distance + step_size in
        let ray := add ray ray_step in
        match map_square m (vx ray) (vy ray) with
        | None => None
        | Some square =>
            if (square =? 0)%Z then march fuel' m camera ray_step distance ray
            else
              let '(side, tx, _) :=
                intersection_with_mapsquare_accurate camera ray in
              Some (square, distance, tx, side)
        end
    end
  else Some ((-1)%Z, distance, 0, TOP).

(** [cast_ray]; 200 turns of fuel are what the loop takes at most. *)
Definition cast_ray (cam : Camera) (pixel_x : Z)
  : option (Z * float * float * Intersection) :=
  if (pixwidth cam =? 0)%Z then None
  else
    let cast_ray := ray_direction cam pixel_x in
    let ray_step := scale step_size cast_ray in
    march 200 (map cam) (player_position cam) ray_step 0
      (player_position cam).
End Cast.

(** [ray_step] of [cast_ray] for the column [pixel_x]. *)
Definition ray_step (cam : Camera) (pixel_x : Z) : Vec2 :=
  scale step_size (ray_direction cam pixel_x).

(** The value of [distance] after [k] turns of the loop: 0.0 and [k]
    additions of 0.02. *)
Fixpoint distance_after (k : nat) : float :=
  match k with
  | O => 0
  | S k' => distance_after k' + step_size
  end.

(** The value of [ray] after [k] turns. *)
Fixpoint ray_after (start ray_step : Vec2) (k : nat) : Vec2 :=
  match k with
  | O => start
  | S k' => add (ray_after start ray_step k') ray_step
  end.

(** The map square under the [k]-th sample point, [None] when a
    coordinate of the point is a NaN or an infinity. *)
Definition square_after (m : Map) (start ray_step : Vec2) (k : nat)
  : option Z :=
  map_square m (vx (ray_after start ray_step k))
               (vy (ray_after start ray_step k)).

(** The sample points [lo+1 .. hi] all lie in empty squares. *)
Definition no_hit (m : Map) (start ray_step : Vec2) (lo hi : nat) : Prop :=
  forall i : nat,
    (lo < i <= hi)%nat -> square_after m start ray_step i = Some 0%Z.

(** The same, and that no sample point has a NaN or an infinity for a
    coordinate, as checks that can be run. *)
Definition all_empty (m : Map) (start ray_step : Vec2) (n : nat) : bool :=
  forallb (fun i => match square_after m start ray_step i with
                    | Some 0%Z => true
                    | _ => false
                    end) (List.seq 1 n).

Definition all_finite (m : Map) (start ray_step : Vec2) (n : nat) : bool :=
  forallb (fun i => match square_after m start ray_step i with
                    | Some _ => true
                    | None => false
                    end) (List.seq 1 n).

(** A corridor one square wide and eight long, seen from its first
    square straight along it, on a screen two pixels wide. *)
Definition corridor : Camera :=
  mkCamera 2 (mkVec2 0.5 0.5) (mkVec2 0 1) (mkVec2 0.839 0)
    (mkMap 1 8 (fun _ _ => 0%Z)).

(** A wall block one square ahead of the player. *)
Definition facing_block : Camera :=
  mkCamera 2 (mkVec2 1.5 0.5) (mkVec2 0 1) (mkVec2 0.839 0)
    (mkMap 3 3 (fun mx my => if (mx =? 1)%Z && (my =? 1)%Z then 1%Z else 0%Z)).

End Binary64.

(** ** The order of depths and the writes to the z-buffer *)

(** [a <= b] on depths, [float("inf")] above every float. *)
Definition depth_le (a b : Depth) : Prop :=
  match a, b with
  | Fin p, Fin q => p <= q
  | _, Inf => True
  | Inf, Fin _ => False
  end.

(** One write to the z-buffer as [set_pixel] makes it: cell [i] goes from
    [old] to a strictly nearer [z]; every other cell stays. *)
Inductive depth_write (zb : list Depth) : list Depth -> Prop :=
| depth_write_cell (i : nat) (z : Q) (old : Depth) :
    zb !! i = Some old ->
    depth_ltb (Fin z) old = true ->
    depth_write zb (<[i := Fin z]> zb).

(** The z-buffer of [rc'] comes from that of [rc] by a sequence of such
    writes. *)
Definition depth_writes (rc rc' : Raycaster) : Prop :=
  rtc depth_write (zbuffer rc) (zbuffer rc').

(** The z-buffer [zb'] has the length of [zb] and every cell of it holds
    what it held in [zb] or a strictly nearer depth. *)
Definition lowered (zb zb' : list Depth) : Prop :=
  length zb' = length zb
  /\ forall (j : nat) (a b : Depth),
       zb !! j = Some a -> zb' !! j = Some b ->
       b = a \/ depth_ltb b a = true.

(** ** Clearance, in the words of the specification *)



(** ** The boundary of a map square *)

(** [p] lies on the boundary of the unit square around [center]: on the
    line of one of the four edges and within the extent of that edge. *)
Definition on_square_boundary (center p : Vec2.t) : Prop :=
  ((Vec2.x p == Vec2.x center - 0.5 \/ Vec2.x p == Vec2.x center + 0.5)
   /\ Vec2.y center - 0.5 <= Vec2.y p /\ Vec2.y p <= Vec2.y center + 0.5)
  \/ ((Vec2.y p == Vec2.y center - 0.5 \/ Vec2.y p == Vec2.y center + 0.5)
      /\ Vec2.x center - 0.5 <= Vec2.x p /\ Vec2.x p <= Vec2.x center + 0.5).

(** [p] lies strictly outside that square. *)
Definition outside_square (center p : Vec2.t) : Prop :=
  Vec2.x p < Vec2.x center - 0.5 \/ Vec2.x center + 0.5 < Vec2.x p
  \/ Vec2.y p < Vec2.y center - 0.5 \/ Vec2.y center + 0.5 < Vec2.y p.

(** ** The sample points of a ray *)

(** The value of [ray] after [k] turns of the loop of [cast_ray]:
    [ray += ray_step], [k] times from [start]. *)
Fixpoint ray_after (start ray_step : Vec2.t) (k : nat) : Vec2.t :=
  match k with
  | O => start
  | S k' => (ray_after start ray_step k' + ray_step)%V
  end.

(** The map square under the [k]-th sample point. *)
Definition square_after (m : Map) (start ray_step : Vec2.t) (k : nat) : Z :=
  map_square m (Vec2.x (ray_after start ray_step k))
               (Vec2.y (ray_after start ray_step k)).

(** The sample points [lo+1 .. hi] all lie in empty squares. *)
Definition no_hit (m : Map) (start ray_step : Vec2.t) (lo hi : nat) : Prop :=
  forall i : nat, (lo < i <= hi)%nat -> square_after m start ray_step i = 0%Z.

(** ** What drawing leaves alone *)

(** [rc'] is [rc] but for the z-buffer, the image and the ceiling sizes,
    and these two lists have the lengths they had. *)
Definition same_scene (rc rc' : Raycaster) : Prop :=
  rc' = with_image_buf
          (with_zbuffer (with_ceiling_sizes rc (ceiling_sizes rc'))
             (zbuffer rc'))
          (image_buf rc')
  /\ length (zbuffer rc') = length (zbuffer rc)
  /\ length (ceiling_sizes rc') = length (ceiling_sizes rc).


(** The pixel (x, y) lies on the screen. *)
Definition on_screen (rc : Raycaster) (x y : Z) : Prop :=
  (0 <= x < pixwidth rc)%Z /\ (0 <= y < pixheight rc)%Z.





(** From [rc] to [rc'] the scene is kept and, among the pixels of the
    screen, only those in [F] can have changed depth or colour. *)
Definition touches_only (F : Z -> Z -> Prop) (rc rc' : Raycaster) : Prop :=
  length (zbuffer rc)
  = (Z.to_nat (pixheight rc) * Z.to_nat (pixwidth rc))%nat ->
  same_scene rc rc'
  /\ forall x y : Z,
       on_screen rc x y -> ~ F x y ->
       zbuffer rc' !! Z.to_nat (x + y * pixwidth rc)
       = zbuffer rc !! Z.to_nat (x + y * pixwidth rc)
       /\ image_buf rc' !! (x, y) = image_buf rc !! (x, y).

(** The ceiling and floor strips of the columns with ceiling sizes
    [sizes] on a screen [h] rows high: the rows above the ceiling size of
    the column and as many rows at the bottom. *)
Definition ceiling_or_floor (sizes : list Z) (h : Z) (x y : Z) : Prop :=
  exists size, sizes !! Z.to_nat x = Some size
    /\ ((y < size)%Z \/ (h - size <= y)%Z).

(** ** Data for the examples *)

(** A 3 x 3 map, open all around a wall block in the middle. *)
Definition block_rows : list (list Z) :=
  [ [0; 0; 0]; [0; 1; 0]; [0; 0; 0] ]%Z.

Definition block_map : Map := Pywolf.as_Map block_rows.

(** A 3 x 3 room, walled all around one open square. *)
Definition room_map : Map :=
  Pywolf.as_Map [ [1; 1; 1]; [1; 0; 1]; [1; 1; 1] ]%Z.

(** A corridor one square wide and eight long, open throughout. *)
Definition corridor_map : Map := mkMap 1 8 (fun _ _ => 0%Z).

(** A raycaster with a screen of [w] x [h] pixels as [__init__] leaves its
    buffers, the player at [p] looking along the y axis, the camera plane
    along the x axis. *)
Definition raycaster_at (w h : Z) (m : Map) (p : Vec2.t) : Raycaster :=
  let zb := replicate (Z.to_nat h * Z.to_nat w) Inf in
  mkRaycaster w h zb zb (replicate (Z.to_nat w) 0%Z) ∅
    (replicate 3 (fun _ _ => (200, 100, 50, 255)%Z))
    (fun _ _ => (0, 0, 0, 255)%Z) (fun _ _ => (0, 0, 0, 255)%Z) 0
    p (Vec2.mk 0 1) (Vec2.mk (839 # 1000) 0) m.

(** A sprite that covers the pixel (0, 0) at depth 1/4. *)
Definition one_sprite_pixel (rc : Raycaster) (d_screen : Q)
  : option (list PixelWrite) :=
  Some [ (0%Z, 0%Z, 1 # 4, 1, Some (9, 9, 9, 255)%Z) ].

(** * Properties *)

(** ** Truncation and comparisons *)

(** Integer constants under [inject_Z] are turned into rational constants,
    leaving [inject_Z] of a variable alone, so that [lra] can conclude. *)
Ltac push_inject :=
  repeat rewrite inject_Z_plus in *;
  change (inject_Z 0) with 0 in *;
  change (inject_Z 1) with 1 in *;
  change (inject_Z (-1)) with (-1) in *.

(** [lra] knows no division: a division by a constant is turned into the
    product with the constant's inverse first. *)
Ltac inv_consts :=
  repeat match goal with
  | |- context [Qinv (Qmake ?a ?b)] =>
      let v := eval compute in (Qinv (Qmake a b)) in
      change (Qinv (Qmake a b)) with v
  | H : context [Qinv (Qmake ?a ?b)] |- _ =>
      let v := eval compute in (Qinv (Qmake a b)) in
      change (Qinv (Qmake a b)) with v in H
  end.

Ltac qlra := unfold Qdiv in *; inv_consts; lra.

Lemma Qltb_lt (a b : Q) : Qltb a b = true <-> a < b.
Proof.
  unfold Qltb. rewrite negb_true_iff, <- not_true_iff_false, Qle_bool_iff.
  split; intros H; [ now apply Qnot_le_lt | now apply Qlt_not_le ].
Qed.

Lemma Qltb_ge (a b : Q) : Qltb a b = false <-> b <= a.
Proof.
  unfold Qltb. rewrite negb_false_iff. apply Qle_bool_iff.
Qed.

Lemma int_nonneg (q : Q) : 0 <= q -> int q = Qfloor q.
Proof.
  intros H. unfold int. apply Qle_bool_iff in H. now rewrite H.
Qed.

Lemma int_negative (q : Q) : q < 0 -> int q = Qceiling q.
Proof.
  intros H. unfold int.
  destruct (Qle_bool 0 q) eqn:E; [ | reflexivity ].
  apply Qle_bool_iff in E. lra.
Qed.

#[export] Instance int_comp : Proper (Qeq ==> eq) int.
Proof.
  intros p q E. unfold int.
  destruct (Qle_bool 0 p) eqn:Ep, (Qle_bool 0 q) eqn:Eq;
    try (now rewrite E);
    [ apply Qle_bool_iff in Ep; rewrite E in Ep; apply Qle_bool_iff in Ep
    | apply Qle_bool_iff in Eq; rewrite <- E in Eq; apply Qle_bool_iff in Eq ];
    congruence.
Qed.

Lemma int_inject_Z (z : Z) : int (inject_Z z) = z.
Proof.
  unfold int. destruct (Qle_bool 0 (inject_Z z));
    [ apply Qfloor_Z | apply Qceiling_Z ].
Qed.

(** For [q >= 0], [int q <= q < int q + 1]. *)
Lemma int_bounds_nonneg (q : Q) :
  0 <= q -> inject_Z (int q) <= q /\ q < inject_Z (int q) + 1.
Proof.
  intros H. rewrite (int_nonneg q H). split.
  - apply Qfloor_le.
  - pose proof (Qlt_floor q) as L. rewrite inject_Z_plus in L. exact L.
Qed.

(** For [q < 0], [int q - 1 < q <= int q]. *)
Lemma int_bounds_negative (q : Q) :
  q < 0 -> inject_Z (int q) - 1 < q /\ q <= inject_Z (int q).
Proof.
  intros H. rewrite (int_negative q H). split.
  - pose proof (Qceiling_lt q) as L.
    unfold Z.sub in L. rewrite inject_Z_plus in L. exact L.
  - apply Qle_ceiling.
Qed.

Lemma inject_Z_le (a b : Z) : (a <= b)%Z <-> inject_Z a <= inject_Z b.
Proof. now rewrite Zle_Qle. Qed.

Lemma inject_Z_lt (a b : Z) : (a < b)%Z <-> inject_Z a < inject_Z b.
Proof. now rewrite Zlt_Qlt. Qed.

(** The truncated value is the only integer within the two bounds. *)
Lemma int_unique_nonneg (q : Q) (n : Z) :
  0 <= q -> inject_Z n <= q -> q < inject_Z n + 1 -> int q = n.
Proof.
  intros H0 Hl Hu. destruct (int_bounds_nonneg q H0) as [L U].
  assert (inject_Z (int q) < inject_Z (n + 1)) as A
    by (push_inject; lra).
  assert (inject_Z n < inject_Z (int q + 1)) as B
    by (push_inject; lra).
  apply inject_Z_lt in A, B. lia.
Qed.

Lemma int_zero (q : Q) : -1 < q -> q < 1 -> int q = 0%Z.
Proof.
  intros Hl Hu. destruct (Qlt_le_dec q 0) as [N | P].
  - destruct (int_bounds_negative q N) as [L U].
    assert (inject_Z (int q) < inject_Z 1) as A by (push_inject; lra).
    assert (inject_Z (-1) < inject_Z (int q)) as B by (push_inject; lra).
    apply inject_Z_lt in A, B. lia.
  - apply int_unique_nonneg; push_inject; lra.
Qed.

(** [int q < 0] exactly when [q <= -1]. *)
Lemma int_lt_0 (q : Q) : (int q <? 0)%Z = true <-> q <= -1.
Proof.
  rewrite Z.ltb_lt. split.
  - intros H. destruct (Qlt_le_dec (-1) q) as [G | G]; [ | exact G ].
    exfalso. destruct (Qlt_le_dec q 0) as [N | P].
    + rewrite (int_zero q) in H by lra. lia.
    + destruct (int_bounds_nonneg q P) as [L U].
      assert (inject_Z 0 < inject_Z (int q + 1)) as B
        by (push_inject; lra).
      apply inject_Z_lt in B. lia.
  - intros H. assert (q < 0) as N by lra.
    destruct (int_bounds_negative q N) as [L U].
    assert (inject_Z (int q) < inject_Z 0) as A by (push_inject; lra).
    apply inject_Z_lt in A. exact A.
Qed.

(** For a positive bound [w], [int q >= w] exactly when [q >= w]. *)
Lemma int_ge (q : Q) (w : Z) :
  (0 < w)%Z -> ((int q >=? w)%Z = true <-> inject_Z w <= q).
Proof.
  intros Hw. rewrite Z.geb_le.
  assert (0 < inject_Z w) as Hw' by (now apply (inject_Z_lt 0 w)).
  split.
  - intros H. destruct (Qlt_le_dec q 0) as [N | P].
    + destruct (int_bounds_negative q N) as [L U].
      assert (inject_Z (int q) < inject_Z 1) as A by (push_inject; lra).
      apply inject_Z_lt in A. lia.
    + destruct (int_bounds_nonneg q P) as [L U].
      apply inject_Z_le in H. lra.
  - intros H. assert (0 <= q) as P by lra.
    destruct (int_bounds_nonneg q P) as [L U].
    assert (inject_Z w < inject_Z (int q + 1)) as B
      by (push_inject; lra).
    apply inject_Z_lt in B. lia.
Qed.

(** ** Brightness *)

Lemma brightness_cases (d : Q) :
  (d < BLACK_DISTANCE /\ brightness d == 1 - d * (1 # 4))
  \/ (BLACK_DISTANCE <= d /\ brightness d = 0.0).
Proof.
  unfold brightness, py_max, BLACK_DISTANCE.
  destruct (Qltb 0.0 (1.0 - d / 4.0)) eqn:E.
  - left. apply Qltb_lt in E. split; qlra.
  - right. apply Qltb_ge in E. split; [ qlra | reflexivity ].
Qed.

(** C8: [brightness] is non-increasing in the distance, it is never
    negative and, the distance being one (not negative), at most 1, and it
    is 0 from [BLACK_DISTANCE] on. *)
Theorem brightness_nonincreasing_bounded :
  (forall d1 d2 : Q, d1 <= d2 -> brightness d2 <= brightness d1)
  /\ (forall d : Q, 0 <= brightness d)
  /\ (forall d : Q, 0 <= d -> brightness d <= 1)
  /\ (forall d : Q, BLACK_DISTANCE <= d -> brightness d == 0).
Proof.
  split; [ | split; [ | split ] ].
  - intros d1 d2 H.
    destruct (brightness_cases d1) as [[L1 E1] | [L1 E1]],
             (brightness_cases d2) as [[L2 E2] | [L2 E2]];
      unfold BLACK_DISTANCE in *; rewrite E1, E2; lra.
  - intros d. destruct (brightness_cases d) as [[L E] | [L E]];
      unfold BLACK_DISTANCE in *; rewrite E; lra.
  - intros d H. destruct (brightness_cases d) as [[L E] | [L E]];
      unfold BLACK_DISTANCE in *; rewrite E; lra.
  - intros d H. destruct (brightness_cases d) as [[L E] | [L E]];
      unfold BLACK_DISTANCE in *; rewrite E; lra.
Qed.

Lemma brightness_nonincreasing_bounded_witness :
  brightness 3 <= brightness 1
  /\ brightness 1 <= 1
  /\ brightness 5 == 0.
Proof.
  destruct brightness_nonincreasing_bounded as (M & _ & B & Z).
  split; [ apply M; lra | split; [ apply B; lra | apply Z ] ].
  unfold BLACK_DISTANCE. lra.
Defined.

(** ** The map query *)

(** The query answers the sentinel from the bounds test exactly when a
    coordinate is at most -1 or at least the extent of the grid. *)
Lemma map_square_off_map (m : Map) (x y : Q) :
  (0 < width m)%Z -> (0 < height m)%Z ->
  x <= -1 \/ inject_Z (width m) <= x \/ y <= -1 \/ inject_Z (height m) <= y ->
  map_square m x y = SENTINEL.
Proof.
  intros Hw Hh H. unfold map_square.
  destruct H as [H | [H | [H | H]]].
  - apply int_lt_0 in H. now rewrite H.
  - apply (int_ge x _ Hw) in H. rewrite H. now rewrite orb_true_r.
  - apply int_lt_0 in H. rewrite H. now rewrite !orb_true_r.
  - apply (int_ge y _ Hh) in H. rewrite H. now rewrite !orb_true_r.
Qed.

Lemma map_square_on_map (m : Map) (x y : Q) :
  (0 < width m)%Z -> (0 < height m)%Z ->
  -1 < x -> x < inject_Z (width m) -> -1 < y -> y < inject_Z (height m) ->
  map_square m x y = get_wall m (int x) (int y)
  /\ (0 <= int x < width m)%Z /\ (0 <= int y < height m)%Z.
Proof.
  intros Hw Hh Hx1 Hx2 Hy1 Hy2. unfold map_square.
  destruct (int x <? 0)%Z eqn:E1; [ apply int_lt_0 in E1; lra | ].
  destruct (int x >=? width m)%Z eqn:E2;
    [ apply (int_ge x _ Hw) in E2; lra | ].
  destruct (int y <? 0)%Z eqn:E3; [ apply int_lt_0 in E3; lra | ].
  destruct (int y >=? height m)%Z eqn:E4;
    [ apply (int_ge y _ Hh) in E4; lra | ].
  simpl. split; [ reflexivity | ]. lia.
Qed.

(** C10: [int()] truncates toward zero, so a coordinate strictly between -1
    and 0 is answered from row or column 0 of the grid, with the stored id
    of that cell; the bounds test answers the sentinel exactly for a
    coordinate at most -1 or at least the extent of the grid. *)
Theorem map_square_truncates_toward_zero (m : Map) :
  (0 < width m)%Z -> (0 < height m)%Z ->
  (forall x y : Q, -1 < x -> x < 0 -> -1 < y -> y < inject_Z (height m) ->
     int x = 0%Z /\ map_square m x y = get_wall m 0 (int y))
  /\ (forall x y : Q, -1 < y -> y < 0 -> -1 < x -> x < inject_Z (width m) ->
        int y = 0%Z /\ map_square m x y = get_wall m (int x) 0)
  /\ (forall x y : Q,
        x <= -1 \/ inject_Z (width m) <= x
        \/ y <= -1 \/ inject_Z (height m) <= y ->
        map_square m x y = SENTINEL)
  /\ (forall x y : Q,
        -1 < x -> x < inject_Z (width m) ->
        -1 < y -> y < inject_Z (height m) ->
        map_square m x y = get_wall m (int x) (int y)
        /\ (0 <= int x < width m)%Z /\ (0 <= int y < height m)%Z)
  /\ ((forall cx cy : Z,
         (0 <= cx < width m)%Z -> (0 <= cy < height m)%Z ->
         get_wall m cx cy <> SENTINEL) ->
      forall x y : Q,
        map_square m x y = SENTINEL
        <-> (x <= -1 \/ inject_Z (width m) <= x
             \/ y <= -1 \/ inject_Z (height m) <= y)).
Proof.
  intros Hw Hh.
  assert (0 < inject_Z (width m)) as Hw'
    by (now apply (inject_Z_lt 0 (width m))).
  assert (0 < inject_Z (height m)) as Hh'
    by (now apply (inject_Z_lt 0 (height m))).
  split; [ | split; [ | split; [ | split ] ] ].
  - intros x y Hx1 Hx2 Hy1 Hy2.
    assert (int x = 0%Z) as E by (apply int_zero; lra).
    split; [ exact E | ].
    destruct (map_square_on_map m x y Hw Hh) as (R & _); try lra.
    now rewrite R, E.
  - intros x y Hy1 Hy2 Hx1 Hx2.
    assert (int y = 0%Z) as E by (apply int_zero; lra).
    split; [ exact E | ].
    destruct (map_square_on_map m x y Hw Hh) as (R & _); try lra.
    now rewrite R, E.
  - intros x y. now apply map_square_off_map.
  - intros x y. now apply map_square_on_map.
  - intros Hids x y. split; [ | now apply map_square_off_map ].
    intros Hs.
    destruct (Qlt_le_dec (-1) x) as [X1 | X1]; [ | now left ].
    destruct (Qlt_le_dec x (inject_Z (width m))) as [X2 | X2];
      [ | now right; left ].
    destruct (Qlt_le_dec (-1) y) as [Y1 | Y1]; [ | now right; right; left ].
    destruct (Qlt_le_dec y (inject_Z (height m))) as [Y2 | Y2];
      [ | now right; right; right ].
    destruct (map_square_on_map m x y Hw Hh X1 X2 Y1 Y2) as (R & Cx & Cy).
    exfalso. apply (Hids _ _ Cx Cy). now rewrite <- R.
Qed.

(** ** pywolf's map *)

Lemma translate_range (c : ascii) : (0 <= Pywolf.translate c <= 9)%Z.
Proof.
  unfold Pywolf.translate.
  destruct (48 <=? Z.of_N (N_of_ascii c))%Z eqn:E1;
    destruct (Z.of_N (N_of_ascii c) <=? 57)%Z eqn:E2; simpl; lia.
Qed.

Lemma load_map_ids (cmap : list string) (row : list Z) (id : Z) :
  row ∈ Pywolf.load_map cmap -> id ∈ row -> (0 <= id <= 9)%Z.
Proof.
  unfold Pywolf.load_map. intros Hrow Hid.
  apply list_elem_of_fmap in Hrow as (line & -> & _).
  apply list_elem_of_fmap in Hid as (c & -> & _).
  apply translate_range.
Qed.

(** On a rectangular map the query of pywolf never raises and is the query
    of the canonical raycaster on the same rows. *)
Lemma map_square_as_Map (m : list (list Z)) (x y : Q) :
  Pywolf.rectangular m ->
  Pywolf.map_square m x y = Some (map_square (Pywolf.as_Map m) x y).
Proof.
  intros (row0 & H0 & Hall).
  unfold Pywolf.map_square, map_square, Pywolf.as_Map; simpl.
  rewrite H0; simpl.
  destruct (int x <? 0)%Z eqn:E1; [ reflexivity | ]. simpl.
  destruct (int x >=? Z.of_nat (length row0))%Z eqn:E2; [ reflexivity | ].
  destruct (int y <? 0)%Z eqn:E3; [ reflexivity | ].
  destruct (int y >=? Z.of_nat (length m))%Z eqn:E4; [ reflexivity | ].
  simpl.
  destruct (lookup_lt_is_Some_2 m (Z.to_nat (int y))) as [row Hrow]; [ lia | ].
  rewrite Hrow.
  assert (length row = length row0) as Hlen.
  { exact (Forall_lookup_1 _ _ _ _ Hall Hrow). }
  destruct (lookup_lt_is_Some_2 row (Z.to_nat (int x))) as [id Hid]; [ lia | ].
  now rewrite Hid.
Qed.

(** C4: for integer cell coordinates inside the grid the query returns the
    id stored in that cell, outside it returns the sentinel 255, and the
    sentinel differs from every id a loaded map stores (0 to 9) and from the
    empty id 0. *)
Theorem map_square_stored_id_or_sentinel (m : list (list Z)) (x y : Z) :
  Pywolf.rectangular m ->
  ((0 <= x < width (Pywolf.as_Map m))%Z
   /\ (0 <= y < height (Pywolf.as_Map m))%Z ->
   exists row id,
     m !! Z.to_nat y = Some row /\ row !! Z.to_nat x = Some id
     /\ Pywolf.map_square m (inject_Z x) (inject_Z y) = Some id
     /\ map_square (Pywolf.as_Map m) (inject_Z x) (inject_Z y) = id)
  /\ (~ ((0 <= x < width (Pywolf.as_Map m))%Z
         /\ (0 <= y < height (Pywolf.as_Map m))%Z) ->
      Pywolf.map_square m (inject_Z x) (inject_Z y) = Some SENTINEL
      /\ map_square (Pywolf.as_Map m) (inject_Z x) (inject_Z y) = SENTINEL)
  /\ (forall cmap row id,
        m = Pywolf.load_map cmap -> row ∈ m -> id ∈ row ->
        (0 <= id <= 9)%Z /\ id <> SENTINEL)
  /\ SENTINEL <> 0%Z.
Proof.
  intros Hrect. pose proof (map_square_as_Map m) as Hsq.
  destruct Hrect as (row0 & H0 & Hall).
  assert (Pywolf.rectangular m) as Hrect by (exists row0; auto).
  split; [ | split; [ | split ] ].
  - intros [Hx Hy]. simpl in Hx, Hy. rewrite H0 in Hx. simpl in Hx.
    destruct (lookup_lt_is_Some_2 m (Z.to_nat y)) as [row Hrow]; [ lia | ].
    assert (length row = length row0) as Hlen.
    { exact (Forall_lookup_1 _ _ _ _ Hall Hrow). }
    destruct (lookup_lt_is_Some_2 row (Z.to_nat x)) as [id Hid]; [ lia | ].
    exists row, id. split; [ exact Hrow | split; [ exact Hid | ] ].
    assert (map_square (Pywolf.as_Map m) (inject_Z x) (inject_Z y) = id) as R.
    { unfold map_square. rewrite !int_inject_Z. simpl. rewrite H0. simpl.
      replace (x <? 0)%Z with false by lia.
      replace (x >=? Z.of_nat (length row0))%Z with false by lia.
      replace (y <? 0)%Z with false by lia.
      replace (y >=? Z.of_nat (length m))%Z with false by lia.
      simpl. now rewrite Hrow, Hid. }
    split; [ | exact R ]. now rewrite Hsq, R.
  - intros Hout. simpl in Hout. rewrite H0 in Hout. simpl in Hout.
    assert (map_square (Pywolf.as_Map m) (inject_Z x) (inject_Z y) = SENTINEL)
      as R.
    { unfold map_square. rewrite !int_inject_Z. simpl. rewrite H0. simpl.
      destruct (x <? 0)%Z eqn:E1; [ reflexivity | ].
      destruct (x >=? Z.of_nat (length row0))%Z eqn:E2; [ reflexivity | ].
      destruct (y <? 0)%Z eqn:E3; [ reflexivity | ].
      destruct (y >=? Z.of_nat (length m))%Z eqn:E4; [ reflexivity | ].
      exfalso. apply Hout. lia. }
    split; [ | exact R ]. now rewrite Hsq, R.
  - intros cmap row id -> Hrow Hid.
    pose proof (load_map_ids cmap row id Hrow Hid). unfold SENTINEL.
    split; lia.
  - discriminate.
Qed.

Lemma cmap_rectangular : Pywolf.rectangular (Pywolf.load_map Pywolf.cmap).
Proof.
  eexists. split; [ reflexivity | ]. repeat constructor.
Defined.

Lemma map_square_stored_id_or_sentinel_witness :
  (exists row id,
     Pywolf.load_map Pywolf.cmap !! Z.to_nat 7 = Some row
     /\ row !! Z.to_nat 2 = Some id
     /\ Pywolf.map_square (Pywolf.load_map Pywolf.cmap)
          (inject_Z 2) (inject_Z 7) = Some id
     /\ map_square (Pywolf.as_Map (Pywolf.load_map Pywolf.cmap))
          (inject_Z 2) (inject_Z 7) = id)
  /\ (Pywolf.map_square (Pywolf.load_map Pywolf.cmap)
        (inject_Z 20) (inject_Z 7) = Some SENTINEL
      /\ map_square (Pywolf.as_Map (Pywolf.load_map Pywolf.cmap))
           (inject_Z 20) (inject_Z 7) = SENTINEL)
  /\ ((0 <= 2 <= 9)%Z /\ 2%Z <> SENTINEL).
Proof.
  split; [ | split ].
  - apply (map_square_stored_id_or_sentinel _ 2 7 cmap_rectangular).
    vm_compute. repeat split; discriminate.
  - apply (map_square_stored_id_or_sentinel _ 20 7 cmap_rectangular).
    vm_compute. intros [[_ H] _]. discriminate H.
  - destruct (map_square_stored_id_or_sentinel _ 0 0 cmap_rectangular)
      as (_ & _ & D & _).
    apply (D Pywolf.cmap
             (Pywolf.translate <$> list_ascii_of_string "1..111111222222.2221")
             2%Z eq_refl).
    + apply (list_elem_of_lookup_2 _ 7). reflexivity.
    + apply (list_elem_of_lookup_2 _ 9). reflexivity.
Defined.

Lemma map_square_truncates_toward_zero_witness :
  (int (-1 # 2) = 0%Z
   /\ map_square block_map (-1 # 2) (3 # 2) = get_wall block_map 0 (int (3 # 2)))
  /\ (int (-1 # 2) = 0%Z
      /\ map_square block_map (3 # 2) (-1 # 2)
         = get_wall block_map (int (3 # 2)) 0)
  /\ map_square block_map (-1) (3 # 2) = SENTINEL
  /\ (map_square block_map (3 # 2) (3 # 2)
      = get_wall block_map (int (3 # 2)) (int (3 # 2))
      /\ (0 <= int (3 # 2) < width block_map)%Z
      /\ (0 <= int (3 # 2) < height block_map)%Z).
Proof.
  destruct (map_square_truncates_toward_zero block_map)
    as (A & B & C & D & _); [ reflexivity | reflexivity | ].
  split; [ | split; [ | split ] ].
  - apply A; reflexivity.
  - apply B; reflexivity.
  - apply C. left. discriminate.
  - apply D; reflexivity.
Defined.

(** ** Angles: the codes and [atan2] *)

Lemma Q2R_0 : Q2R 0 = 0%R.
Proof. unfold Q2R. simpl. Lra.lra. Qed.

Lemma atan_lt_iff (a b : R) : (atan a < atan b)%R <-> (a < b)%R.
Proof.
  split; [ | apply atan_increasing ].
  intros H. destruct (Rlt_or_le a b) as [L | G]; [ exact L | exfalso ].
  destruct (Rle_lt_or_eq_dec _ _ G) as [L | E].
  - apply atan_increasing in L. Lra.lra.
  - subst. Lra.lra.
Qed.

Lemma atan_pos (a : R) : (0 < a)%R -> (0 < atan a)%R.
Proof. intros H. rewrite <- atan_0. now apply atan_increasing. Qed.

Lemma atan_nonpos (a : R) : (a <= 0)%R -> (atan a <= 0)%R.
Proof.
  intros H. destruct (Rle_lt_or_eq_dec _ _ H) as [L | E].
  - apply atan_increasing in L. rewrite atan_0 in L. Lra.lra.
  - subst. rewrite atan_0. Lra.lra.
Qed.

Lemma Qcompare_R (p : Q) :
  match p ?= 0 with
  | Lt => (Q2R p < 0)%R /\ ~ p == 0
  | Eq => Q2R p = 0%R
  | Gt => (0 < Q2R p)%R /\ ~ p == 0
  end.
Proof.
  destruct (p ?= 0) eqn:E.
  - apply Qeq_alt in E. rewrite (Qeq_eqR _ _ E). apply Q2R_0.
  - apply Qlt_alt in E. split.
    + rewrite <- Q2R_0. now apply Qlt_Rlt.
    + intros H. rewrite H in E. now apply (Qlt_irrefl 0).
  - apply Qgt_alt in E. split.
    + rewrite <- Q2R_0. now apply Qlt_Rlt.
    + intros H. rewrite H in E. now apply (Qlt_irrefl 0).
Qed.

Lemma Rdiv_neg_neg (a b : R) : (a < 0 -> b < 0 -> 0 < a / b)%R.
Proof.
  intros Ha Hb. replace (a / b)%R with ((- a) * / (- b))%R
    by (field; Lra.lra).
  apply Rmult_lt_0_compat; [ | apply Rinv_0_lt_compat ]; Lra.lra.
Qed.

Lemma Rdiv_nonneg_neg (a b : R) : (0 <= a -> b < 0 -> a / b <= 0)%R.
Proof.
  intros Ha Hb. replace (a / b)%R with (- (a * / (- b)))%R
    by (field; Lra.lra).
  assert (0 <= a * / (- b))%R; [ | Lra.lra ].
  apply Rmult_le_pos; [ exact Ha | ].
  apply Rlt_le, Rinv_0_lt_compat. Lra.lra.
Qed.

(** The code of a vector stands for its [atan2]. *)
Lemma angle_value_atan2 (v : Vec2.t) :
  angle_wf (angle v)
  /\ angle_value (angle v) = atan2 (Q2R (Vec2.y v)) (Q2R (Vec2.x v)).
Proof.
  destruct v as [x y]. unfold angle, atan2, angle_value. cbn [Vec2.x Vec2.y].
  pose proof (Qcompare_R x) as Hx. pose proof (Qcompare_R y) as Hy.
  destruct (x ?= 0) eqn:Ex; destruct (y ?= 0) eqn:Ey;
    cbn [sector slope];
    repeat match goal with
    | H : _ /\ _ |- _ => destruct H
    end;
    repeat match goal with
    | |- context [Rlt_dec ?a ?b] => destruct (Rlt_dec a b); try Lra.lra
    | |- context [Rle_dec ?a ?b] => destruct (Rle_dec a b); try Lra.lra
    end;
    rewrite ?Q2R_div by assumption;
    (split;
     [ unfold angle_wf; cbn [sector slope]; rewrite ?Q2R_div by assumption
     | rewrite ?Q2R_0, ?atan_0; reflexivity ]).
  - right; right; left; reflexivity.
  - right; left; split; reflexivity.
  - do 3 right; left; split; reflexivity.
  - do 4 right. split; [ reflexivity | ]. apply Rdiv_nonneg_neg; Lra.lra.
  - left. split; [ reflexivity | ]. now apply Rdiv_neg_neg.
  - do 4 right. split; [ reflexivity | ]. apply Rdiv_nonneg_neg; Lra.lra.
  - right; right; left; reflexivity.
  - right; right; left; reflexivity.
  - right; right; left; reflexivity.
Qed.

(** Codes compare as the angles they stand for. *)
Lemma angle_lt_value (a b : Angle) :
  angle_wf a -> angle_wf b ->
  (angle_lt a b = true <-> (angle_value a < angle_value b)%R).
Proof.
  intros Ha Hb. unfold angle_lt, angle_value.
  pose proof (atan_bound (Q2R (slope a))) as Ba.
  pose proof (atan_bound (Q2R (slope b))) as Bb.
  pose proof PI_RGT_0 as Hpi.
  pose proof (atan_lt_iff (Q2R (slope a)) (Q2R (slope b))) as Hlt.
  assert (Qltb (slope a) (slope b) = true
          <-> (Q2R (slope a) < Q2R (slope b))%R) as Hq.
  { rewrite Qltb_lt. split; [ apply Qlt_Rlt | apply Rlt_Qlt ]. }
  destruct Ha as [[Sa Pa] | [[Sa Pa] | [Sa | [[Sa Pa] | [Sa Pa]]]]];
    destruct Hb as [[Sb Pb] | [[Sb Pb] | [Sb | [[Sb Pb] | [Sb Pb]]]]];
    rewrite Sa, Sb; cbn [Z.ltb Z.eqb Z.compare Pos.compare Pos.compare_cont
                         Pos.eqb orb andb];
    try (apply atan_pos in Pa); try (apply atan_pos in Pb);
    try (apply atan_nonpos in Pa); try (apply atan_nonpos in Pb);
    try (rewrite Hq, <- Hlt; split; intros; Lra.lra);
    try (split; [ intros _; Lra.lra | reflexivity ]);
    try (split; [ discriminate | intros; exfalso; Lra.lra ]).
  - rewrite Pa, Pb. split; [ discriminate | intros; exfalso; Lra.lra ].
  - rewrite Pa, Pb. split; [ discriminate | intros; exfalso; Lra.lra ].
Qed.

(** The comparisons of the classifier are those of [atan2]:
    [v.angle() < w.angle()] in the source is [angle_lt (angle v) (angle w)]
    here. *)
Lemma angle_lt_atan2 (v w : Vec2.t) :
  angle_lt (angle v) (angle w) = true
  <-> (atan2 (Q2R (Vec2.y v)) (Q2R (Vec2.x v))
       < atan2 (Q2R (Vec2.y w)) (Q2R (Vec2.x w)))%R.
Proof.
  destruct (angle_value_atan2 v) as [Wv <-].
  destruct (angle_value_atan2 w) as [Ww <-].
  now apply angle_lt_value.
Qed.

(** ** The ray march *)

Lemma intercept_never_raises (start edge from slope_num divisor : Q) :
  exists c, intercept start edge from slope_num divisor = Some c
    /\ (divisor == 0 -> c = 0.0).
Proof.
  unfold intercept, fdiv.
  destruct (Qeq_bool divisor 0) eqn:E.
  - exists 0.0. split; auto.
  - eexists. split; [ reflexivity | ].
    intros H. apply Qeq_bool_neq in E. contradiction.
Qed.




(** ** The ray march on binary64 *)

Lemma forallb_seq (P : nat -> bool) (lo n : nat) :
  forallb P (List.seq lo n) = true ->
  forall i : nat, (lo <= i < lo + n)%nat -> P i = true.
Proof.
  intros H i Hi. rewrite forallb_forall in H. apply H, in_seq. lia.
Qed.

(** The distance counter stays in [0, 4.02] for 200 turns; the loop test
    holds of it before each of them and fails after the last. *)
Lemma binary64_distance_after_range (k : nat) :
  (k <= 200)%nat ->
  (0 <=? Binary64.distance_after k)%float = true
  /\ (Binary64.distance_after k
      <=? Binary64.BLACK_DISTANCE + Binary64.step_size)%float = true
  /\ (Binary64.distance_after k <=? Binary64.BLACK_DISTANCE)%float
     = (k <? 200)%nat.
Proof.
  intros Hk.
  assert (H : forallb (fun k =>
              (0 <=? Binary64.distance_after k)%float
              && (Binary64.distance_after k
                  <=? Binary64.BLACK_DISTANCE + Binary64.step_size)%float
              && Bool.eqb
                   (Binary64.distance_after k <=? Binary64.BLACK_DISTANCE)%float
                   (k <? 200)%nat)
            (List.seq 0 201) = true) by (vm_compute; reflexivity).
  pose proof (forallb_seq _ _ _ H k ltac:(lia)) as Hb. cbv beta in Hb.
  apply andb_prop in Hb as [Hb H3]. apply andb_prop in Hb as [H1 H2].
  apply Bool.eqb_prop in H3. auto.
Qed.

Lemma binary64_distance_after_200 :
  Binary64.distance_after 200 = 0x1.0000000000003p+2%float
  /\ (Binary64.BLACK_DISTANCE <? Binary64.distance_after 200)%float = true
  /\ (Binary64.distance_after 200 - Binary64.BLACK_DISTANCE
      <=? Binary64.step_size)%float = true.
Proof. repeat split. Qed.

Lemma binary64_all_finite_spec (m : Map) (start step : Binary64.Vec2) (n : nat) :
  Binary64.all_finite m start step n = true ->
  forall i : nat,
    (1 <= i <= n)%nat -> is_Some (Binary64.square_after m start step i).
Proof.
  intros H i Hi. pose proof (forallb_seq _ _ _ H i ltac:(lia)) as Hb.
  cbv beta in Hb.
  destruct (Binary64.square_after m start step i); [ eauto | discriminate ].
Qed.

Lemma binary64_all_empty_spec (m : Map) (start step : Binary64.Vec2) (n : nat) :
  Binary64.all_empty m start step n = true -> Binary64.no_hit m start step 0 n.
Proof.
  intros H i Hi. pose proof (forallb_seq _ _ _ H i ltac:(lia)) as Hb.
  cbv beta in Hb.
  destruct (Binary64.square_after m start step i) as [[ | | ] | ];
    [ reflexivity | discriminate .. ].
Qed.

(** The loop of [cast_ray] on binary64, entered after [k] turns with
    [200 - k] turns of fuel, when no sample point has a NaN or an infinity
    for a coordinate: it returns at the first later sample point in a
    non-empty square, with the counter of that turn, or the miss after the
    200th. *)
Lemma binary64_march_spec
    (isect : Binary64.Vec2 -> Binary64.Vec2 -> Intersection * float * Binary64.Vec2)
    (m : Map) (camera start step : Binary64.Vec2) :
  (forall i : nat,
     (1 <= i <= 200)%nat -> is_Some (Binary64.square_after m start step i)) ->
  forall fuel k : nat,
    (k + fuel = 200)%nat ->
    exists (j : nat) (wall : Z) (tx : float) (side : Intersection),
      Binary64.march isect fuel m camera step
        (Binary64.distance_after k) (Binary64.ray_after start step k)
      = Some (wall, Binary64.distance_after j, tx, side)
      /\ (k <= j <= 200)%nat
      /\ ((j = 200%nat /\ Binary64.no_hit m start step k 200
           /\ wall = (-1)%Z /\ tx = 0%float /\ side = TOP)
          \/ ((k < j)%nat /\ Binary64.no_hit m start step k (j - 1)
              /\ Binary64.square_after m start step j = Some wall
              /\ wall <> 0%Z
              /\ exists p : Binary64.Vec2,
                   isect camera (Binary64.ray_after start step j)
                   = (side, tx, p))).
Proof.
  intros finite. induction fuel as [ | fuel IH]; intros k Hk.
  - assert (k = 200%nat) as -> by lia.
    exists 200%nat, (-1)%Z, 0%float, TOP. split; [ | split; [ lia | left ] ].
    + cbn [Binary64.march].
      destruct (binary64_distance_after_range 200 ltac:(lia)) as (_ & _ & ->).
      reflexivity.
    + repeat split; try reflexivity. intros i Hi. lia.
  - cbn [Binary64.march].
    destruct (binary64_distance_after_range k ltac:(lia)) as (_ & _ & ->).
    replace (k <? 200)%nat with true by (symmetry; apply Nat.ltb_lt; lia).
    cbv zeta.
    change (Binary64.distance_after k + Binary64.step_size)%float
      with (Binary64.distance_after (S k)).
    change (Binary64.add (Binary64.ray_after start step k) step)
      with (Binary64.ray_after start step (S k)).
    change (Binary64.map_square m
              (Binary64.vx (Binary64.ray_after start step (S k)))
              (Binary64.vy (Binary64.ray_after start step (S k))))
      with (Binary64.square_after m start step (S k)).
    destruct (finite (S k) ltac:(lia)) as [square Hsq]. rewrite Hsq.
    destruct (Z.eqb_spec square 0) as [-> | Hne].
    + destruct (IH (S k) ltac:(lia)) as (j & wall & tx & side & E & Hj & H).
      exists j, wall, tx, side. split; [ exact E | split; [ lia | ] ].
      destruct H as [(-> & Hno & Hw) | (Hlt & Hno & Hw)].
      * left. split; [ reflexivity | split; [ | exact Hw ] ].
        intros i Hi. destruct (decide (i = S k)) as [-> | ]; [ exact Hsq | ].
        apply Hno. lia.
      * right. split; [ lia | split; [ | exact Hw ] ].
        intros i Hi. destruct (decide (i = S k)) as [-> | ]; [ exact Hsq | ].
        apply Hno. lia.
    + destruct (isect camera (Binary64.ray_after start step (S k)))
        as [[side tx] p] eqn:Ei.
      exists (S k), square, tx, side.
      split; [ reflexivity | split; [ lia | right ] ].
      split; [ lia | split; [ | split; [ exact Hsq | split; [ exact Hne | ] ] ] ].
      * intros i Hi. lia.
      * exists p. exact Ei.
Qed.

(** C1: on binary64, for every column of a screen up to 2^53 pixels wide
    whose sample points have no NaN and no infinity for a coordinate,
    [cast_ray] returns, with a distance between 0 and [BLACK_DISTANCE +
    step_size]; when none of the 200 sample points of the march lies in a
    non-empty square it returns the miss id -1 (with 0.0 and TOP) at the
    distance 4.0000000000000027, that of the counter after 200 additions of
    0.02: beyond [BLACK_DISTANCE] by less than one step. *)
Theorem cast_ray_distance_bounds
    (isect : Binary64.Vec2 -> Binary64.Vec2 -> Intersection * float * Binary64.Vec2)
    (cam : Binary64.Camera) (pixel_x : Z) :
  (0 <= pixel_x < Binary64.pixwidth cam)%Z ->
  (Binary64.pixwidth cam <= 2 ^ 53)%Z ->
  (forall i : nat,
     (1 <= i <= 200)%nat ->
     is_Some (Binary64.square_after (Binary64.map cam)
                (Binary64.player_position cam)
                (Binary64.ray_step cam pixel_x) i)) ->
  exists wall dist tx side,
    Binary64.cast_ray isect cam pixel_x = Some (wall, dist, tx, side)
    /\ (0 <=? dist)%float = true
    /\ (dist <=? Binary64.BLACK_DISTANCE + Binary64.step_size)%float = true
    /\ (Binary64.no_hit (Binary64.map cam) (Binary64.player_position cam)
          (Binary64.ray_step cam pixel_x) 0 200 ->
        wall = (-1)%Z /\ tx = 0%float /\ side = TOP
        /\ dist = 0x1.0000000000003p+2%float
        /\ (Binary64.BLACK_DISTANCE <? dist)%float = true
        /\ (dist - Binary64.BLACK_DISTANCE <=? Binary64.step_size)%float = true).
Proof.
  intros Hx _ Hfin. unfold Binary64.cast_ray.
  destruct (Binary64.pixwidth cam =? 0)%Z eqn:E; [ apply Z.eqb_eq in E; lia | ].
  cbv zeta. fold (Binary64.ray_step cam pixel_x).
  destruct (binary64_march_spec isect (Binary64.map cam)
              (Binary64.player_position cam) (Binary64.player_position cam)
              (Binary64.ray_step cam pixel_x) Hfin 200 0 eq_refl)
    as (j & wall & tx & side & R & Hj & Hcase).
  cbn [Binary64.distance_after Binary64.ray_after] in R.
  exists wall, (Binary64.distance_after j), tx, side.
  destruct (binary64_distance_after_range j ltac:(lia)) as (B0 & B1 & _).
  split; [ exact R | split; [ exact B0 | split; [ exact B1 | ] ] ].
  intros Hmiss.
  destruct Hcase as [(-> & _ & -> & -> & ->) | (Hlt & _ & Hsq & Hne & _)].
  - destruct binary64_distance_after_200 as (D & D1 & D2).
    repeat split; assumption.
  - exfalso. apply Hne. rewrite (Hmiss j ltac:(lia)) in Hsq. congruence.
Qed.

Lemma cast_ray_distance_bounds_witness :
  exists wall dist tx side,
    Binary64.cast_ray
      (fun _ _ => (TOP, 0%float, Binary64.mkVec2 0 0)) Binary64.corridor 1
    = Some (wall, dist, tx, side)
    /\ (0 <=? dist)%float = true
    /\ (dist <=? Binary64.BLACK_DISTANCE + Binary64.step_size)%float = true
    /\ wall = (-1)%Z /\ tx = 0%float /\ side = TOP
    /\ dist = 0x1.0000000000003p+2%float
    /\ (Binary64.BLACK_DISTANCE <? dist)%float = true
    /\ (dist - Binary64.BLACK_DISTANCE <=? Binary64.step_size)%float = true.
Proof.
  destruct (cast_ray_distance_bounds
              (fun _ _ => (TOP, 0%float, Binary64.mkVec2 0 0))
              Binary64.corridor 1)
    as (wall & dist & tx & side & R & B0 & B1 & M).
  - split; [ discriminate | reflexivity ].
  - discriminate.
  - apply binary64_all_finite_spec. vm_compute. reflexivity.
  - exists wall, dist, tx, side.
    split; [ exact R | split; [ exact B0 | split; [ exact B1 | ] ] ].
    apply M. apply binary64_all_empty_spec. vm_compute. reflexivity.
Defined.

(** On binary64 the distance counter of a ray that hits nothing passes
    [BLACK_DISTANCE] after 200 additions of 0.02, at 4.0000000000000027:
    the miss distance is within the bounds there as well. *)
Lemma binary64_miss_distance :
  Binary64.march_distance 201 0%float = Some 0x1.0000000000003p+2%float
  /\ Binary64.march_distance 200 0%float = Some 0x1.0000000000003p+2%float
  /\ (4 <? 0x1.0000000000003p+2)%float = true
  /\ (0x1.0000000000003p+2 <=? 4 + 0.02)%float = true.
Proof. repeat split. Qed.

(** ** The guarded intercept *)

(** C2 as stated: the guarded coordinate is not the camera's.  For the
    player at (1, 0.5) looking straight up at the square (1, 1) the left
    edge is chosen, the divisor [direction.x] is 0, and [iy] is 0.0, not
    [camera.y = 0.5]. *)
Lemma axis_aligned_intercept_not_camera :
  ~ (forall side tx p,
       intersection_with_mapsquare_accurate (Vec2.mk 1 0.5) (Vec2.mk 1 1.25)
       = Some (side, tx, p) ->
       side = LEFT \/ side = RIGHT ->
       Vec2.x (Vec2.mk 1 1.25 - Vec2.mk 1 0.5)%V == 0 ->
       Vec2.y p == Vec2.y (Vec2.mk 1 0.5)).
Proof.
  intros H.
  specialize (H LEFT (- 0.0) (Vec2.mk (1 + 0.5 - 0.5) 0.0) eq_refl
                (or_introl eq_refl)).
  cbn [Vec2.x Vec2.y Vec2.sub] in H.
  assert (0.0 == 0.5) as A by (apply H; reflexivity).
  discriminate A.
Qed.

(** C2 (amended): the intersection computation never raises; when the
    divisor of the intercept is zero (the ray runs parallel to the chosen
    edge) no division takes place and the guarded coordinate is the constant
    0.0: [ix] on a TOP or BOTTOM edge, [iy] on a LEFT or RIGHT edge. *)
Theorem axis_aligned_intercept_is_zero (camera cast_ray : Vec2.t) :
  exists side tx p,
    intersection_with_mapsquare_accurate camera cast_ray = Some (side, tx, p)
    /\ (side = TOP \/ side = BOTTOM ->
        Vec2.y (cast_ray - camera)%V == 0 -> Vec2.x p = 0.0)
    /\ (side = LEFT \/ side = RIGHT ->
        Vec2.x (cast_ray - camera)%V == 0 -> Vec2.y p = 0.0).
Proof.
  unfold intersection_with_mapsquare_accurate, edge_intersection.
  destruct (intersected_edge camera cast_ray);
    match goal with
    | |- context [intercept ?a ?b ?c ?d ?e] =>
        destruct (intercept_never_raises a b c d e) as (v & -> & Hv)
    end;
    do 3 eexists; (split; [ reflexivity | ]);
    cbn [Vec2.x Vec2.y]; split; intros [S | S] Hd;
    try discriminate S; auto.
Qed.

Lemma axis_aligned_intercept_is_zero_witness :
  exists side tx p,
    intersection_with_mapsquare_accurate (Vec2.mk 1 0.5) (Vec2.mk 1 1.25)
    = Some (side, tx, p)
    /\ side = LEFT /\ Vec2.y p = 0.0.
Proof.
  destruct (axis_aligned_intercept_is_zero (Vec2.mk 1 0.5) (Vec2.mk 1 1.25))
    as (side & tx & p & R & _ & V).
  exists side, tx, p. split; [ exact R | ].
  assert (side = LEFT) as S by (vm_compute in R; congruence).
  split; [ exact S | ]. apply V; [ now left | reflexivity ].
Defined.

(** ** The classifier away from the branch cut *)

(** Two slopes whose denominators have the same sign compare as the
    cross-multiplied products. *)
Lemma slope_lt_same_sign (x1 y1 x2 y2 : Q) :
  0 < x1 * x2 ->
  (y1 / x1 < y2 / x2 <-> y1 * x2 < y2 * x1).
Proof.
  intros H.
  assert (~ x1 == 0) as N1 by (intros E; rewrite E in H; lra).
  assert (~ x2 == 0) as N2 by (intros E; rewrite E in H; lra).
  rewrite <- (Qmult_lt_r (y1 / x1) (y2 / x2) (x1 * x2) H).
  assert (y1 / x1 * (x1 * x2) == y1 * x2) as E1 by (field; exact N1).
  assert (y2 / x2 * (x1 * x2) == y2 * x1) as E2 by (field; exact N2).
  rewrite E1, E2. reflexivity.
Qed.

Lemma Qcompare_cases (p : Q) :
  match p ?= 0 with
  | Lt => p < 0
  | Eq => p == 0
  | Gt => 0 < p
  end.
Proof.
  destruct (p ?= 0) eqn:E;
    [ now apply Qeq_alt | now apply Qlt_alt | now apply Qgt_alt ].
Qed.

(** Two vectors in the right half-plane: the angle of the first is the
    smaller exactly when their cross product is positive. *)
Lemma angle_lt_right (x1 y1 x2 y2 : Q) :
  0 < x1 -> 0 < x2 ->
  (angle_lt (angle (Vec2.mk x1 y1)) (angle (Vec2.mk x2 y2)) = true
   <-> 0 < x1 * y2 - y1 * x2).
Proof.
  intros H1 H2. unfold angle. cbn [Vec2.x Vec2.y].
  pose proof (Qcompare_cases x1) as C1. pose proof (Qcompare_cases x2) as C2.
  destruct (x1 ?= 0); try lra. destruct (x2 ?= 0); try lra.
  unfold angle_lt. cbn [sector slope Z.ltb Z.eqb Z.compare Pos.compare
                        Pos.compare_cont Pos.eqb orb andb].
  rewrite Qltb_lt, slope_lt_same_sign by nra. split; intros; lra.
Qed.

Ltac angle_cases :=
  unfold angle_lt;
  cbn [sector slope Z.ltb Z.eqb Z.compare Pos.compare Pos.compare_cont
       Pos.eqb orb andb];
  first
    [ rewrite Qltb_lt, slope_lt_same_sign by nra; split; intros; nra
    | split; [ intros _; nra | reflexivity ]
    | split; [ discriminate | intros; exfalso; nra ]
    | rewrite Qltb_lt; split; intros; exfalso; nra ].

(** The same in the upper half-plane... *)
Lemma angle_lt_upper (x1 y1 x2 y2 : Q) :
  0 < y1 -> 0 < y2 ->
  (angle_lt (angle (Vec2.mk x1 y1)) (angle (Vec2.mk x2 y2)) = true
   <-> 0 < x1 * y2 - y1 * x2).
Proof.
  intros H1 H2. unfold angle. cbn [Vec2.x Vec2.y].
  pose proof (Qcompare_cases x1) as C1. pose proof (Qcompare_cases x2) as C2.
  pose proof (Qcompare_cases y1) as D1. pose proof (Qcompare_cases y2) as D2.
  destruct (y1 ?= 0); try lra; destruct (y2 ?= 0); try lra;
    destruct (x1 ?= 0); destruct (x2 ?= 0); angle_cases.
Qed.

(** ... and in the lower one. *)
Lemma angle_lt_lower (x1 y1 x2 y2 : Q) :
  y1 < 0 -> y2 < 0 ->
  (angle_lt (angle (Vec2.mk x1 y1)) (angle (Vec2.mk x2 y2)) = true
   <-> 0 < x1 * y2 - y1 * x2).
Proof.
  intros H1 H2. unfold angle. cbn [Vec2.x Vec2.y].
  pose proof (Qcompare_cases x1) as C1. pose proof (Qcompare_cases x2) as C2.
  pose proof (Qcompare_cases y1) as D1. pose proof (Qcompare_cases y2) as D2.
  destruct (y1 ?= 0); try lra; destruct (y2 ?= 0); try lra;
    destruct (x1 ?= 0); destruct (x2 ?= 0); angle_cases.
Qed.

Lemma intercept_value (start edge from slope_num divisor : Q) :
  ~ divisor == 0 ->
  exists c,
    intercept start edge from slope_num divisor = Some c
    /\ (c - start) * divisor == (edge - from) * slope_num.
Proof.
  intros H. unfold intercept, fdiv.
  destruct (Qeq_bool divisor 0) eqn:E; [ apply Qeq_bool_iff in E; tauto | ].
  eexists. split; [ reflexivity | ]. field. exact H.
Qed.

Lemma intercept_guard (start edge from slope_num divisor : Q) :
  divisor == 0 -> intercept start edge from slope_num divisor = Some 0.0.
Proof.
  intros H. unfold intercept. apply Qeq_bool_iff in H. now rewrite H.
Qed.

(** The comparison of the classifier, decided by the half-plane lemma
    [lemma], leaves the sign of a cross product. *)
Ltac classify lemma :=
  match goal with
  | |- context [angle_lt (angle (Vec2.mk ?x1 ?y1)) (angle (Vec2.mk ?x2 ?y2))] =>
      let Hang := fresh "Hang" in
      pose proof (lemma x1 y1 x2 y2 ltac:(lra) ltac:(lra)) as Hang;
      destruct (angle_lt (angle (Vec2.mk x1 y1)) (angle (Vec2.mk x2 y2)));
      [ apply proj1 in Hang; specialize (Hang eq_refl)
      | assert (~ 0 < x1 * y2 - y1 * x2) as Hn
          by (let H := fresh in intros H; apply Hang in H; discriminate);
        clear Hang ]
  end.

(** The intercept on the chosen edge: the guard is excluded, the point is
    within the extent of the edge. *)
Ltac edge_leaf :=
  unfold edge_intersection; cbn [Vec2.x Vec2.y];
  match goal with
  | |- context [intercept ?s ?e ?f ?n ?d] =>
      let Z := fresh "Z" in
      let NZ := fresh "NZ" in
      let c := fresh "c" in
      let Hc := fresh "Hc" in
      destruct (Qeq_dec d 0) as [Z | NZ];
      [ exfalso; nra
      | destruct (intercept_value s e f n d NZ) as (c & -> & Hc);
        do 3 eexists; (split; [ reflexivity | ]); cbn [Vec2.x Vec2.y];
        first [ left; split; [ (left; lra) || (right; lra) | split; nra ]
              | right; split; [ (left; lra) || (right; lra) | split; nra ] ] ]
  end.

(** Away from one degenerate family of rays the exact classifier is right:
    for a sample point with non-negative coordinates (it then lies in its
    map square) and a camera strictly outside that square the returned
    point lies on the boundary of the square, unless the ray runs straight
    up along the line of the left edge. *)
Lemma intersection_on_boundary (camera sample : Vec2.t) :
  0 <= Vec2.x sample -> 0 <= Vec2.y sample ->
  outside_square (square_center_of sample) camera ->
  ~ (Vec2.x camera == Vec2.x (square_center_of sample) - 0.5
     /\ Vec2.x sample == Vec2.x camera
     /\ Vec2.y camera < Vec2.y (square_center_of sample) - 0.5) ->
  exists side tx p,
    intersection_with_mapsquare_accurate camera sample = Some (side, tx, p)
    /\ on_square_boundary (square_center_of sample) p.
Proof.
  destruct camera as [a b], sample as [u v]. cbn [Vec2.x Vec2.y].
  intros Hu Hv Hout Hdeg.
  destruct (int_bounds_nonneg u Hu) as [Lu Uu].
  destruct (int_bounds_nonneg v Hv) as [Lv Uv].
  unfold intersection_with_mapsquare_accurate, intersected_edge,
    outside_square, on_square_boundary, square_center_of,
    Vec2.sub, Vec2.add in *.
  cbn [Vec2.x Vec2.y] in *.
  set (N := inject_Z (int u)) in *. set (M := inject_Z (int v)) in *.
  destruct (Qltb a (N + 0.5)) eqn:Ea; destruct (Qltb b (M + 0.5)) eqn:Eb;
    try apply Qltb_lt in Ea; try apply Qltb_ge in Ea;
    try apply Qltb_lt in Eb; try apply Qltb_ge in Eb.
  - (* camera left of and below the centre *)
    destruct (Qlt_le_dec b M) as [Hb | Hb].
    + classify angle_lt_upper.
      * edge_leaf.
      * unfold edge_intersection; cbn [Vec2.x Vec2.y].
        destruct (Qeq_dec (u - a) 0) as [Z | NZ];
          [ exfalso; apply Hdeg; nra | ].
        destruct (intercept_value b (N + 0.5 - 0.5) a (v - b) (u - a) NZ)
          as (c & -> & Hc).
        do 3 eexists. split; [ reflexivity | ]. cbn [Vec2.x Vec2.y].
        left. split; [ left; lra | split; nra ].
    + classify angle_lt_right; edge_leaf.
  - (* camera left of and above the centre *)
    destruct (Qlt_le_dec (M + 1) b) as [Hb | Hb].
    + classify angle_lt_lower; edge_leaf.
    + classify angle_lt_right; edge_leaf.
  - (* camera right of and below the centre *)
    destruct (Qlt_le_dec b M) as [Hb | Hb].
    + classify angle_lt_upper; edge_leaf.
    + classify angle_lt_right; edge_leaf.
  - (* camera right of and above the centre *)
    destruct (Qlt_le_dec (M + 1) b) as [Hb | Hb].
    + classify angle_lt_lower; edge_leaf.
    + classify angle_lt_right; edge_leaf.
Qed.

(** For instance from (0.5, 0.5) to the sample point (1.25, 1.125) of the
    square (1, 1): the bottom edge, at x = 1.1. *)
Lemma intersection_on_boundary_example :
  exists side tx p,
    intersection_with_mapsquare_accurate (Vec2.mk 0.5 0.5)
      (Vec2.mk 1.25 1.125) = Some (side, tx, p)
    /\ on_square_boundary (square_center_of (Vec2.mk 1.25 1.125)) p
    /\ side = BOTTOM /\ Vec2.x p == 1.1 /\ Vec2.y p == 1.
Proof.
  destruct (intersection_on_boundary (Vec2.mk 0.5 0.5) (Vec2.mk 1.25 1.125))
    as (side & tx & p & R & B).
  - discriminate.
  - discriminate.
  - left. reflexivity.
  - intros (H & _). discriminate H.
  - exists side, tx, p. split; [ exact R | split; [ exact B | ] ].
    vm_compute in R. injection R as <- <- <-.
    split; [ reflexivity | split; reflexivity ].
Defined.

(** ** The intersection point and the square *)

(** Whatever edge is chosen, the returned point lies on the line through
    that edge: one of its coordinates is the centre's plus or minus 0.5. *)
Lemma intersection_on_edge_line (camera cast_ray : Vec2.t) :
  exists side tx p,
    intersection_with_mapsquare_accurate camera cast_ray = Some (side, tx, p)
    /\ match side with
       | TOP => Vec2.y p = Vec2.y (square_center_of cast_ray) + 0.5
       | BOTTOM => Vec2.y p = Vec2.y (square_center_of cast_ray) - 0.5
       | LEFT => Vec2.x p = Vec2.x (square_center_of cast_ray) - 0.5
       | RIGHT => Vec2.x p = Vec2.x (square_center_of cast_ray) + 0.5
       end.
Proof.
  unfold intersection_with_mapsquare_accurate, edge_intersection.
  destruct (intersected_edge camera cast_ray);
    match goal with
    | |- context [intercept ?a ?b ?c ?d ?e] =>
        destruct (intercept_never_raises a b c d e) as (v & -> & _)
    end;
    do 3 eexists; (split; [ reflexivity | reflexivity ]).
Qed.

(** C3: the camera at (1, 0.5), strictly below the square [1,2] x [1,2]
    with centre (1.5, 1.5), and a sample point (1, 1.25) of that square.  The
    returned point is (1, 0): on the line of the left edge, but a whole unit
    below the square, strictly outside it and not on its boundary.
    [cast_ray] gets there: the player at (1, 0.5) looking straight up hits
    the block through that edge.  By [intersection_on_boundary] these
    rays, straight up along the line of the left edge, are the only ones
    for which the point leaves the boundary. *)
Theorem intersection_off_the_square :
  let camera := Vec2.mk 1 0.5 in
  let sample := Vec2.mk 1 1.25 in
  let center := square_center_of sample in
  (Vec2.x center == 1.5 /\ Vec2.y center == 1.5)
  /\ outside_square center camera
  /\ (exists tx p,
        intersection_with_mapsquare_accurate camera sample
        = Some (LEFT, tx, p)
        /\ Vec2.x p == Vec2.x center - 0.5
        /\ Vec2.y p == 0
        /\ outside_square center p
        /\ ~ on_square_boundary center p)
  /\ (exists dist tx,
        cast_ray (raycaster_at 2 2 block_map camera) 1
        = Some (1%Z, dist, tx, LEFT)
        /\ dist == 0.5 /\ tx == 0).
Proof.
  cbv zeta. split; [ split; reflexivity | ].
  split; [ right; right; left; reflexivity | split ].
  - do 2 eexists. split; [ vm_compute; reflexivity | ].
    split; [ reflexivity | split; [ reflexivity | split ] ].
    + right; right; left; reflexivity.
    + unfold on_square_boundary. cbn [Vec2.x Vec2.y square_center_of].
      intros [(_ & H & _) | ([H | H] & _)];
        [ apply Qle_bool_iff in H | | ]; discriminate H.
  - do 2 eexists. split; [ vm_compute; reflexivity | ].
    split; reflexivity.
Qed.

(** ** The z-buffer *)

Lemma depth_ltb_le (a b : Depth) : depth_ltb a b = true -> depth_le a b.
Proof.
  destruct a as [p | ], b as [q | ]; simpl; try easy.
  intros H. apply Qltb_lt in H. lra.
Qed.

Lemma depth_le_refl (a : Depth) : depth_le a a.
Proof. destruct a; simpl; [ lra | exact I ]. Qed.

Lemma depth_le_trans (a b c : Depth) :
  depth_le a b -> depth_le b c -> depth_le a c.
Proof.
  destruct a as [p | ], b as [q | ], c as [r | ]; simpl; try easy.
  intros. lra.
Qed.

(** A write keeps the size of the buffer and lowers no cell but one. *)
Lemma depth_write_cells (zb zb' : list Depth) :
  depth_write zb zb' ->
  length zb' = length zb
  /\ forall (j : nat) (a b : Depth),
       zb !! j = Some a -> zb' !! j = Some b ->
       b = a \/ (depth_ltb b a = true /\ depth_le b a).
Proof.
  intros [i z old Hold Hlt]. split; [ apply length_insert | ].
  intros j a b Ha Hb. destruct (decide (i = j)) as [-> | Hne].
  - rewrite list_lookup_insert_eq in Hb by (eapply lookup_lt_Some, Ha).
    right. assert (old = a) as -> by congruence.
    assert (b = Fin z) as -> by congruence.
    split; [ exact Hlt | now apply depth_ltb_le ].
  - rewrite list_lookup_insert_ne in Hb by exact Hne. left. congruence.
Qed.

(** Along a sequence of writes every cell is non-increasing. *)
Lemma depth_writes_monotone (zb zb' : list Depth) :
  rtc depth_write zb zb' ->
  length zb' = length zb
  /\ forall (j : nat) (a b : Depth),
       zb !! j = Some a -> zb' !! j = Some b -> depth_le b a.
Proof.
  induction 1 as [ zb | zb zb1 zb2 Hw _ [IHlen IH] ].
  - split; [ reflexivity | ]. intros j a b Ha Hb.
    assert (a = b) as -> by congruence. apply depth_le_refl.
  - destruct (depth_write_cells _ _ Hw) as [Hlen Hcell].
    split; [ congruence | ]. intros j a b Ha Hb.
    destruct (lookup_lt_is_Some_2 zb1 j) as [c Hc].
    { rewrite Hlen. eapply lookup_lt_Some, Ha. }
    apply (depth_le_trans _ c).
    + now apply (IH j).
    + destruct (Hcell j a c Ha Hc) as [-> | [_ L]];
        [ apply depth_le_refl | exact L ].
Qed.

#[export] Instance depth_writes_refl : Reflexive depth_writes.
Proof. intros rc. apply rtc_refl. Qed.

#[export] Instance depth_writes_trans : Transitive depth_writes.
Proof. intros a b c. apply rtc_trans. Qed.

(** [set_pixel] changes the z-buffer by at most one write, made only for a
    depth strictly nearer than the stored one, and touches none of the
    fields the drawing reads. *)
Lemma set_pixel_effect (rc rc' : Raycaster) (x y : Z) (z brightness : Q)
    (rgba : option RGBA) :
  set_pixel rc x y z brightness rgba = Some rc' ->
  (rc' = rc
   \/ exists (c : RGBA) (i : nat) (old : Depth),
        rgba = Some c
        /\ py_index (zbuffer rc) (x + y * pixwidth rc) = Some i
        /\ zbuffer rc !! i = Some old
        /\ depth_ltb (Fin z) old = true
        /\ zbuffer rc' = <[i := Fin z]> (zbuffer rc)
        /\ image_buf rc'
           = <[(x, y) := if Qltb 0 z && negb (Qeq_bool brightness 1.0)
                         then color_brightness c brightness else c]>
               (image_buf rc))
  /\ pixwidth rc' = pixwidth rc /\ pixheight rc' = pixheight rc
  /\ empty_zbuffer rc' = empty_zbuffer rc
  /\ ceiling_sizes rc' = ceiling_sizes rc.
Proof.
  unfold set_pixel. intros H.
  destruct rgba as [c | ]; [ | injection H as <-; auto 6 ].
  destruct (py_index (zbuffer rc) (x + y * pixwidth rc)) as [i | ] eqn:Ei;
    [ | discriminate ].
  destruct (zbuffer rc !! i) as [old | ] eqn:Eold; [ | discriminate ].
  destruct (depth_ltb (Fin z) old) eqn:Elt; injection H as <-; [ | auto 6 ].
  split; [ right | simpl; auto ].
  exists c, i, old. simpl. auto 8.
Qed.

Lemma set_pixel_depth_writes (rc rc' : Raycaster) (x y : Z) (z brightness : Q)
    (rgba : option RGBA) :
  set_pixel rc x y z brightness rgba = Some rc' -> depth_writes rc rc'.
Proof.
  intros H. destruct (set_pixel_effect _ _ _ _ _ _ _ H)
    as [[-> | (c & i & old & _ & _ & Hold & Hlt & Hzb & _)] _].
  - reflexivity.
  - unfold depth_writes. rewrite Hzb. apply rtc_once.
    exact (depth_write_cell _ i z old Hold Hlt).
Qed.

(** A loop whose body is related by a preorder is related by it. *)
Lemma for_each_preorder {A S} (R : S -> S -> Prop)
    `{!Reflexive R} `{!Transitive R}
    (l : list A) (body : A -> S -> option S) :
  (forall a s s', body a s = Some s' -> R s s') ->
  forall s s', for_each l body s = Some s' -> R s s'.
Proof.
  intros Hbody. induction l as [ | a l IH ]; intros s s' H; simpl in H.
  - injection H as <-. reflexivity.
  - destruct (body a s) as [s1 | ] eqn:E; [ | discriminate ].
    transitivity s1; [ now apply (Hbody a) | now apply IH ].
Qed.

Lemma draw_column_depth_writes (rc rc' : Raycaster) (x ceiling : Z)
    (distance : Q) (texture : Texture) (tx : Q) (side : Intersection) :
  draw_column rc x ceiling distance texture tx side = Some rc' ->
  depth_writes rc rc'.
Proof.
  unfold draw_column. apply (for_each_preorder depth_writes).
  intros y s s'. apply set_pixel_depth_writes.
Qed.

Lemma draw_black_column_depth_writes (rc rc' : Raycaster) (x ceiling : Z)
    (distance : Q) :
  draw_black_column rc x ceiling distance = Some rc' -> depth_writes rc rc'.
Proof.
  unfold draw_black_column. apply (for_each_preorder depth_writes).
  intros y s s'. apply set_pixel_depth_writes.
Qed.

Lemma draw_floor_and_ceiling_depth_writes (rc rc' : Raycaster)
    (sizes : list Z) (d_screen : Q) :
  draw_floor_and_ceiling rc sizes d_screen = Some rc' -> depth_writes rc rc'.
Proof.
  unfold draw_floor_and_ceiling.
  destruct (py_max_list sizes) as [mcs | ]; [ | discriminate ].
  destruct (mcs <=? 0)%Z; [ intros H; injection H as <-; reflexivity | ].
  apply (for_each_preorder depth_writes). intros y s s'.
  unfold floor_and_ceiling_row.
  destruct (fdiv _ _) as [d_ground | ]; [ | discriminate ].
  apply (for_each_preorder depth_writes). intros [x h] t t'.
  unfold floor_and_ceiling_pixel.
  destruct (y <? h)%Z; [ | intros H; injection H as <-; reflexivity ].
  destruct (py_index (zbuffer t) (x + y * pixwidth t)) as [i | ];
    [ | discriminate ].
  destruct (zbuffer t !! i) as [old | ]; [ | discriminate ].
  destruct (depth_ltb _ old); [ | intros H; injection H as <-; reflexivity ].
  destruct (set_pixel t x y _ _ _) as [t1 | ] eqn:E1; [ | discriminate ].
  intros E2. transitivity t1; eapply set_pixel_depth_writes; eassumption.
Qed.

Lemma set_pixels_depth_writes (ws : list PixelWrite) (rc rc' : Raycaster) :
  set_pixels ws rc = Some rc' -> depth_writes rc rc'.
Proof.
  unfold set_pixels. apply (for_each_preorder depth_writes).
  intros [[[[x y] z] b] c] s s'. apply set_pixel_depth_writes.
Qed.

Lemma tick_column_depth_writes (d_screen : Q) (x : Z) (rc rc' : Raycaster) :
  tick_column d_screen x rc = Some rc' -> depth_writes rc rc'.
Proof.
  unfold tick_column.
  destruct (cast_ray rc x) as [[[[wall distance] texture_x] side] | ];
    [ | discriminate ].
  destruct (Qltb 0 distance).
  - destruct (py_setitem (ceiling_sizes rc) x _) as [cs | ]; [ | discriminate ].
    destruct (0 <? wall)%Z.
    + destruct (py_index _ wall) as [i | ]; [ | discriminate ].
      destruct (_ !! i) as [texture | ]; [ | discriminate ].
      intros H. apply draw_column_depth_writes in H.
      unfold depth_writes in *. exact H.
    + intros H. apply draw_black_column_depth_writes in H.
      unfold depth_writes in *. exact H.
  - destruct (py_setitem (ceiling_sizes rc) x 0%Z) as [cs | ];
      [ | discriminate ].
    intros H. injection H as <-. apply rtc_refl.
Qed.

(** Along a sequence of writes every cell keeps its depth or gets a
    strictly nearer one. *)
Lemma depth_writes_lowered (zb zb' : list Depth) :
  rtc depth_write zb zb' -> lowered zb zb'.
Proof.
  induction 1 as [ zb | zb zb1 zb2 Hw _ [IHlen IH] ].
  - split; [ reflexivity | ]. intros j a b Ha Hb. left. congruence.
  - destruct (depth_write_cells _ _ Hw) as [Hlen Hcell].
    split; [ congruence | ]. intros j a b Ha Hb.
    destruct (lookup_lt_is_Some_2 zb1 j) as [c Hc].
    { rewrite Hlen. eapply lookup_lt_Some, Ha. }
    destruct (IH j c b Hc Hb) as [-> | Hbc];
      destruct (Hcell j a c Ha Hc) as [-> | [Hca _]]; auto.
    right. destruct b as [p | ], c as [q | ], a as [r | ];
      cbn [depth_ltb] in *; try discriminate; try reflexivity.
    apply Qltb_lt in Hbc, Hca. apply Qltb_lt. lra.
Qed.

Lemma lowered_depth_le (zb zb' : list Depth) :
  lowered zb zb' ->
  forall (j : nat) (a b : Depth),
    zb !! j = Some a -> zb' !! j = Some b -> depth_le b a.
Proof.
  intros [_ H] j a b Ha Hb. destruct (H j a b Ha Hb) as [-> | L].
  - apply depth_le_refl.
  - now apply depth_ltb_le.
Qed.

Lemma floor_and_ceiling_pixel_depth_writes (y : Z) (d_ground brightness : Q)
    (xh : Z * Z) (rc rc' : Raycaster) :
  floor_and_ceiling_pixel y d_ground brightness xh rc = Some rc' ->
  depth_writes rc rc'.
Proof.
  destruct xh as [x h]. unfold floor_and_ceiling_pixel.
  destruct (y <? h)%Z; [ | intros H; injection H as <-; reflexivity ].
  destruct (py_index (zbuffer rc) (x + y * pixwidth rc)) as [i | ];
    [ | discriminate ].
  destruct (zbuffer rc !! i) as [old | ]; [ | discriminate ].
  destruct (depth_ltb _ old); [ | intros H; injection H as <-; reflexivity ].
  destruct (set_pixel rc x y _ _ _) as [t1 | ] eqn:E1; [ | discriminate ].
  intros E2. transitivity t1; eapply set_pixel_depth_writes; eassumption.
Qed.

Lemma floor_and_ceiling_row_depth_writes (sizes : list Z) (d_screen : Q)
    (y : Z) (rc rc' : Raycaster) :
  floor_and_ceiling_row sizes d_screen y rc = Some rc' -> depth_writes rc rc'.
Proof.
  unfold floor_and_ceiling_row.
  destruct (fdiv _ _) as [d_ground | ]; [ | discriminate ].
  apply (for_each_preorder depth_writes). intros xh t t'.
  apply floor_and_ceiling_pixel_depth_writes.
Qed.

(** A loop run over [l1 ++ l2] is the loop over [l1] followed, from the
    state it ends in, by the loop over [l2]. *)
Lemma for_each_app {A S} (l1 l2 : list A) (body : A -> S -> option S)
    (s s' : S) :
  for_each (l1 ++ l2) body s = Some s' <->
  exists s1, for_each l1 body s = Some s1 /\ for_each l2 body s1 = Some s'.
Proof.
  revert s. induction l1 as [ | a l1 IH ]; intros s; simpl.
  - split; [ eauto | intros (s1 & E & H); congruence ].
  - destruct (body a s) as [t | ]; [ apply IH | ].
    split; [ discriminate | intros (s1 & E & _); discriminate ].
Qed.

(** C5: a tick first sets every cell of the z-buffer to +infinity and then
    runs its three drawing phases, the column loop, the floor and ceiling
    and the sprites, each on the state the one before left; from one of
    these states to the next every cell of the buffer keeps its depth or
    gets a strictly nearer one.  The same holds of every step the phases
    are made of, from whatever state it is entered in: a call of
    [set_pixel] leaves the buffer as it is, or stores [z] in the cell of the
    pixel, and that only when [z] is strictly nearer than the stored depth;
    a column, a stretch of the column loop, a pixel and a row of the floor
    and ceiling, a run of sprite pixels lower cells only, and so does every
    part of a loop of such steps. *)
Theorem zbuffer_nonincreasing_within_tick
    (tan_half_hvof : Q)
    (sprite_pixels : Raycaster -> Q -> option (list PixelWrite))
    (rc rc' : Raycaster) (walltime_msec : Q) :
  init_buffers rc ->
  tick tan_half_hvof sprite_pixels rc walltime_msec = Some rc' ->
  (forall i : nat,
     (i < length (zbuffer (tick_begin rc)))%nat ->
     zbuffer (tick_begin rc) !! i = Some Inf)
  /\ (exists (d_screen : Q) (rc1 rc2 : Raycaster),
        screen_distance tan_half_hvof (tick_begin rc) = Some d_screen
        /\ for_each (range 0 (pixwidth (tick_begin rc)))
             (tick_column d_screen) (tick_begin rc) = Some rc1
        /\ draw_floor_and_ceiling rc1 (ceiling_sizes rc1) d_screen = Some rc2
        /\ draw_sprites sprite_pixels rc2 d_screen = Some rc'
        /\ lowered (zbuffer (tick_begin rc)) (zbuffer rc1)
        /\ lowered (zbuffer rc1) (zbuffer rc2)
        /\ lowered (zbuffer rc2) (zbuffer rc'))
  /\ (forall (s s' : Raycaster) (x y : Z) (z b : Q) (c : option RGBA),
        set_pixel s x y z b c = Some s' ->
        zbuffer s' = zbuffer s
        \/ exists (i : nat) (old : Depth),
             py_index (zbuffer s) (x + y * pixwidth s) = Some i
             /\ zbuffer s !! i = Some old
             /\ depth_ltb (Fin z) old = true
             /\ zbuffer s' = <[i := Fin z]> (zbuffer s))
  /\ (forall (s s' : Raycaster) (x y : Z) (z b : Q) (c : option RGBA)
        (i : nat) (old : Depth),
        set_pixel s x y z b c = Some s' ->
        py_index (zbuffer s) (x + y * pixwidth s) = Some i ->
        zbuffer s !! i = Some old ->
        depth_ltb (Fin z) old = false ->
        s' = s)
  /\ (forall (s s' : Raycaster) (x ceiling : Z) (distance : Q)
        (texture : Texture) (tx : Q) (side : Intersection),
        draw_column s x ceiling distance texture tx side = Some s' ->
        lowered (zbuffer s) (zbuffer s'))
  /\ (forall (s s' : Raycaster) (x ceiling : Z) (distance : Q),
        draw_black_column s x ceiling distance = Some s' ->
        lowered (zbuffer s) (zbuffer s'))
  /\ (forall (s s' : Raycaster) (d_screen : Q) (x : Z),
        tick_column d_screen x s = Some s' ->
        lowered (zbuffer s) (zbuffer s'))
  /\ (forall (s s' : Raycaster) (d_screen : Q) (xs1 xs2 : list Z),
        for_each (xs1 ++ xs2) (tick_column d_screen) s = Some s' ->
        exists s1,
          for_each xs1 (tick_column d_screen) s = Some s1
          /\ for_each xs2 (tick_column d_screen) s1 = Some s'
          /\ lowered (zbuffer s) (zbuffer s1)
          /\ lowered (zbuffer s1) (zbuffer s'))
  /\ (forall (s s' : Raycaster) (y : Z) (d_ground brightness : Q)
        (xh : Z * Z),
        floor_and_ceiling_pixel y d_ground brightness xh s = Some s' ->
        lowered (zbuffer s) (zbuffer s'))
  /\ (forall (s s' : Raycaster) (sizes : list Z) (d_screen : Q) (y : Z),
        floor_and_ceiling_row sizes d_screen y s = Some s' ->
        lowered (zbuffer s) (zbuffer s'))
  /\ (forall (s s' : Raycaster) (sizes : list Z) (d_screen : Q),
        draw_floor_and_ceiling s sizes d_screen = Some s' ->
        lowered (zbuffer s) (zbuffer s'))
  /\ (forall (s s' : Raycaster) (ws1 ws2 : list PixelWrite),
        set_pixels (ws1 ++ ws2) s = Some s' ->
        exists s1,
          set_pixels ws1 s = Some s1 /\ set_pixels ws2 s1 = Some s'
          /\ lowered (zbuffer s) (zbuffer s1)
          /\ lowered (zbuffer s1) (zbuffer s'))
  /\ (forall (s s' : Raycaster) (d_screen : Q),
        draw_sprites sprite_pixels s d_screen = Some s' ->
        lowered (zbuffer s) (zbuffer s'))
  /\ (forall zb1 zb2 : list Depth,
        lowered zb1 zb2 ->
        forall (j : nat) (a b : Depth),
          zb1 !! j = Some a -> zb2 !! j = Some b -> depth_le b a).
Proof.
  intros (Hempty & _ & _) Htick.
  assert (Hcols : forall (d : Q) (l : list Z) (s s' : Raycaster),
             for_each l (tick_column d) s = Some s' -> depth_writes s s').
  { intros d l. apply (for_each_preorder depth_writes).
    intros x s s'. apply tick_column_depth_writes. }
  assert (Hsprites : forall (s s' : Raycaster) (d : Q),
             draw_sprites sprite_pixels s d = Some s' -> depth_writes s s').
  { intros s s' d. unfold draw_sprites.
    destruct (sprite_pixels s d) as [ws | ]; [ | discriminate ].
    apply set_pixels_depth_writes. }
  split.
  { intros i Hi. simpl in *. rewrite Hempty in *.
    rewrite length_replicate in Hi. now apply lookup_replicate_2. }
  split.
  { unfold tick in Htick.
    destruct (screen_distance tan_half_hvof (tick_begin rc)) as [d_screen | ];
      [ | discriminate ].
    destruct (for_each _ (tick_column d_screen) (tick_begin rc))
      as [rc1 | ] eqn:E1; [ | discriminate ].
    destruct (draw_floor_and_ceiling rc1 _ d_screen) as [rc2 | ] eqn:E2;
      [ | discriminate ].
    exists d_screen, rc1, rc2.
    split; [ reflexivity | split; [ exact E1 | split; [ exact E2 | ] ] ].
    split; [ exact Htick | ].
    split; [ | split ]; apply depth_writes_lowered.
    - exact (Hcols _ _ _ _ E1).
    - exact (draw_floor_and_ceiling_depth_writes _ _ _ _ E2).
    - exact (Hsprites _ _ _ Htick). }
  split.
  { intros s s' x y z b c H.
    destruct (set_pixel_effect _ _ _ _ _ _ _ H)
      as [[-> | (c' & i & old & _ & Hi & Hold & Hlt & Hzb & _)] _].
    - now left.
    - right. exists i, old. auto. }
  split.
  { intros s s' x y z b c i old H Hi Hold Hlt. unfold set_pixel in H.
    destruct c as [c | ]; [ | congruence ].
    rewrite Hi, Hold, Hlt in H. congruence. }
  split.
  { intros s s' x ceiling distance texture tx side H.
    apply depth_writes_lowered.
    exact (draw_column_depth_writes _ _ _ _ _ _ _ _ H). }
  split.
  { intros s s' x ceiling distance H. apply depth_writes_lowered.
    exact (draw_black_column_depth_writes _ _ _ _ _ H). }
  split.
  { intros s s' d x H. apply depth_writes_lowered.
    exact (tick_column_depth_writes _ _ _ _ H). }
  split.
  { intros s s' d xs1 xs2 H. apply for_each_app in H as (s1 & H1 & H2).
    exists s1. split; [ exact H1 | split; [ exact H2 | ] ].
    split; apply depth_writes_lowered; eapply Hcols; eassumption. }
  split.
  { intros s s' y d_ground brightness xh H. apply depth_writes_lowered.
    exact (floor_and_ceiling_pixel_depth_writes _ _ _ _ _ _ H). }
  split.
  { intros s s' sizes d y H. apply depth_writes_lowered.
    exact (floor_and_ceiling_row_depth_writes _ _ _ _ _ H). }
  split.
  { intros s s' sizes d H. apply depth_writes_lowered.
    exact (draw_floor_and_ceiling_depth_writes _ _ _ _ H). }
  split.
  { intros s s' ws1 ws2 H. unfold set_pixels in *.
    apply for_each_app in H as (s1 & H1 & H2).
    exists s1. split; [ exact H1 | split; [ exact H2 | ] ].
    split; apply depth_writes_lowered;
      eapply set_pixels_depth_writes; eassumption. }
  split.
  { intros s s' d H. apply depth_writes_lowered.
    exact (Hsprites _ _ _ H). }
  intros zb1 zb2 H. now apply lowered_depth_le.
Qed.

Lemma raycaster_at_init (w h : Z) (m : Map) (p : Vec2.t) :
  init_buffers (raycaster_at w h m p).
Proof.
  unfold init_buffers. simpl. rewrite !length_replicate. auto.
Defined.

Lemma zbuffer_nonincreasing_within_tick_witness :
  exists rc' d_screen rc1 rc2,
    tick (839 # 1000) one_sprite_pixel
      (raycaster_at 1 2 room_map (Vec2.mk 1.5 1.5)) 0
    = Some rc'
    /\ for_each (range 0 1) (tick_column d_screen)
         (tick_begin (raycaster_at 1 2 room_map (Vec2.mk 1.5 1.5)))
       = Some rc1
    /\ draw_floor_and_ceiling rc1 (ceiling_sizes rc1) d_screen = Some rc2
    /\ draw_sprites one_sprite_pixel rc2 d_screen = Some rc'
    /\ lowered (zbuffer rc1) (zbuffer rc2)
    /\ lowered (zbuffer rc2) (zbuffer rc').
Proof.
  destruct (tick (839 # 1000) one_sprite_pixel
              (raycaster_at 1 2 room_map (Vec2.mk 1.5 1.5)) 0)
    as [rc' | ] eqn:E; [ | vm_compute in E; discriminate E ].
  destruct (zbuffer_nonincreasing_within_tick _ _ _ _ _
              (raycaster_at_init _ _ _ _) E)
    as (_ & (d & rc1 & rc2 & _ & E1 & E2 & E3 & _ & L2 & L3) & _).
  exists rc', d, rc1, rc2. auto 6.
Defined.

(** ** The black column *)

(** The z-buffer index of the pixel (x, y) on a screen [w] wide. *)
Lemma py_index_pixel (zb : list Depth) (w h x y : Z) :
  (0 <= x < w)%Z -> (0 <= y < h)%Z ->
  length zb = (Z.to_nat h * Z.to_nat w)%nat ->
  py_index zb (x + y * w) = Some (Z.to_nat (x + y * w))
  /\ (Z.to_nat (x + y * w) < length zb)%nat.
Proof.
  intros Hx Hy Hlen. unfold py_index.
  assert (0 <= x + y * w < Z.of_nat (length zb))%Z as Hi.
  { rewrite Hlen, Nat2Z.inj_mul, !Z2Nat.id by lia. nia. }
  replace (0 <=? x + y * w)%Z with true by lia.
  replace (x + y * w <? Z.of_nat (length zb))%Z with true by lia.
  simpl. split; [ reflexivity | lia ].
Qed.

Lemma pixel_index_inj (w x y y' : Z) :
  (0 <= x < w)%Z -> (0 <= y)%Z -> (0 <= y')%Z ->
  Z.to_nat (x + y * w) = Z.to_nat (x + y' * w) -> y = y'.
Proof.
  intros Hx Hy Hy' H. apply Z2Nat.inj in H; nia.
Qed.

(** [set_pixel] for a black pixel of an in-range cell: brightness 1.0
    leaves the colour as it is, the write is made exactly when [distance]
    is nearer than the stored depth. *)
Lemma set_pixel_black (rc : Raycaster) (x y : Z) (distance : Q) :
  (0 <= x < pixwidth rc)%Z -> (0 <= y < pixheight rc)%Z ->
  length (zbuffer rc)
  = (Z.to_nat (pixheight rc) * Z.to_nat (pixwidth rc))%nat ->
  exists old,
    zbuffer rc !! Z.to_nat (x + y * pixwidth rc) = Some old
    /\ set_pixel rc x y distance 1.0 (Some (0, 0, 0, 0)%Z)
       = Some (if depth_ltb (Fin distance) old
               then with_image_buf
                      (with_zbuffer rc
                         (<[Z.to_nat (x + y * pixwidth rc) := Fin distance]>
                            (zbuffer rc)))
                      (<[(x, y) := (0, 0, 0, 0)%Z]> (image_buf rc))
               else rc).
Proof.
  intros Hx Hy Hlen.
  destruct (py_index_pixel _ _ _ _ _ Hx Hy Hlen) as [Hi Hlt].
  destruct (lookup_lt_is_Some_2 _ _ Hlt) as [old Hold].
  exists old. split; [ exact Hold | ].
  unfold set_pixel. rewrite Hi, Hold.
  destruct (depth_ltb (Fin distance) old); [ | reflexivity ].
  replace (Qltb 0 distance && negb (Qeq_bool 1.0 1.0)) with false
    by (now rewrite andb_false_r).
  reflexivity.
Qed.

(** The loop of [draw_black_column] over rows [ys] of column [x]. *)
Lemma black_rows_effect (x : Z) (distance : Q) (ys : list Z) :
  forall rc : Raycaster,
    (0 <= x < pixwidth rc)%Z ->
    length (zbuffer rc)
    = (Z.to_nat (pixheight rc) * Z.to_nat (pixwidth rc))%nat ->
    NoDup ys ->
    (forall y, y ∈ ys -> (0 <= y < pixheight rc)%Z) ->
    exists rc',
      for_each ys
        (fun y rc => set_pixel rc x y distance 1.0 (Some (0, 0, 0, 0)%Z)) rc
      = Some rc'
      /\ (forall y old,
            y ∈ ys ->
            zbuffer rc !! Z.to_nat (x + y * pixwidth rc) = Some old ->
            if depth_ltb (Fin distance) old
            then zbuffer rc' !! Z.to_nat (x + y * pixwidth rc)
                 = Some (Fin distance)
                 /\ image_buf rc' !! (x, y) = Some ((0, 0, 0, 0)%Z : RGBA)
            else zbuffer rc' !! Z.to_nat (x + y * pixwidth rc) = Some old
                 /\ image_buf rc' !! (x, y) = image_buf rc !! (x, y))
      /\ (forall j : nat,
            (forall y, y ∈ ys -> j <> Z.to_nat (x + y * pixwidth rc)) ->
            zbuffer rc' !! j = zbuffer rc !! j)
      /\ (forall k : Z * Z,
            (forall y, y ∈ ys -> k <> (x, y)) ->
            image_buf rc' !! k = image_buf rc !! k).
Proof.
  induction ys as [ | y ys IH ]; intros rc Hx Hlen Hnd Hys.
  - exists rc. simpl. split; [ reflexivity | ].
    split; [ intros y old Hy; inversion Hy | auto ].
  - apply list.NoDup_cons in Hnd as [Hy_notin Hnd].
    assert (0 <= y < pixheight rc)%Z as Hy by (apply Hys; left).
    destruct (set_pixel_black rc x y distance Hx Hy Hlen) as (old & Hold & E).
    cbn [for_each]. rewrite E. clear E.
    set (rc1 := if depth_ltb (Fin distance) old then _ else rc).
    assert (pixwidth rc1 = pixwidth rc /\ pixheight rc1 = pixheight rc
            /\ length (zbuffer rc1) = length (zbuffer rc)) as (Hw1 & Hh1 & Hl1).
    { subst rc1. destruct (depth_ltb (Fin distance) old); simpl;
        rewrite ?length_insert; auto. }
    destruct (IH rc1) as (rc' & R & Hin & Hzb & Himg).
    { now rewrite Hw1. }
    { now rewrite Hl1, Hw1, Hh1. }
    { exact Hnd. }
    { intros y' Hy'. rewrite Hh1. apply Hys. now right. }
    rewrite Hw1 in Hin, Hzb.
    assert (forall y', y' ∈ ys ->
              Z.to_nat (x + y * pixwidth rc) <> Z.to_nat (x + y' * pixwidth rc))
      as Hidx.
    { intros y' Hy' Heq.
      assert (0 <= y' < pixheight rc)%Z by (apply Hys; now right).
      apply pixel_index_inj in Heq; [ | lia .. ]. subst y'. contradiction. }
    assert (forall y', y' ∈ ys -> (x, y) <> (x, y')) as Hkey.
    { intros y' Hy' Heq. injection Heq as ->. contradiction. }
    assert (Z.to_nat (x + y * pixwidth rc) < length (zbuffer rc))%nat as Hlt
      by (eapply lookup_lt_Some, Hold).
    exists rc'. split; [ exact R | split; [ | split ] ].
    + intros y' old' Hy' Hold'.
      apply elem_of_cons in Hy' as [-> | Hy'].
      * assert (old' = old) as -> by congruence.
        subst rc1.
        destruct (depth_ltb (Fin distance) old);
          rewrite (Hzb _ Hidx), (Himg _ Hkey);
          cbn [zbuffer image_buf with_zbuffer with_image_buf].
        -- rewrite list_lookup_insert_eq by exact Hlt.
           now rewrite lookup_insert_eq.
        -- auto.
      * assert (zbuffer rc1 !! Z.to_nat (x + y' * pixwidth rc) = Some old'
                /\ image_buf rc1 !! (x, y') = image_buf rc !! (x, y'))
          as [Hz1 Hi1].
        { subst rc1. destruct (depth_ltb (Fin distance) old);
            cbn [zbuffer image_buf with_zbuffer with_image_buf]; auto.
          rewrite list_lookup_insert_ne by (now apply Hidx).
          rewrite lookup_insert_ne by (now apply Hkey). auto. }
        specialize (Hin y' old' Hy' Hz1). rewrite Hi1 in Hin. exact Hin.
    + intros j Hj. rewrite Hzb by (intros y' Hy'; apply Hj; now right).
      subst rc1. destruct (depth_ltb (Fin distance) old);
        cbn [zbuffer image_buf with_zbuffer with_image_buf]; auto.
      apply list_lookup_insert_ne. intros <-.
      apply (Hj y); [ left | reflexivity ].
    + intros k Hk. rewrite Himg by (intros y' Hy'; apply Hk; now right).
      subst rc1. destruct (depth_ltb (Fin distance) old);
        cbn [zbuffer image_buf with_zbuffer with_image_buf]; auto.
      apply lookup_insert_ne. intros <-.
      apply (Hk y); [ left | reflexivity ].
Qed.

(** C6 as stated: a black column does not leave the depth of its cells as
    it was.  On a fresh 1 x 2 screen, after the column at distance 4.02 the
    z-buffer is no longer the one before. *)
Lemma draw_black_column_advances_depth :
  ~ (forall rc',
       draw_black_column (raycaster_at 1 2 corridor_map (Vec2.mk 0.5 0.5))
         0 0 4.02 = Some rc' ->
       zbuffer rc'
       = zbuffer (raycaster_at 1 2 corridor_map (Vec2.mk 0.5 0.5))).
Proof.
  intros H.
  assert (exists rc',
            draw_black_column (raycaster_at 1 2 corridor_map (Vec2.mk 0.5 0.5))
              0 0 4.02 = Some rc'
            /\ zbuffer rc' !! 0%nat = Some (Fin 4.02)) as (rc' & E & Hz)
    by (eexists; split; reflexivity).
  rewrite (H rc' E) in Hz. discriminate Hz.
Qed.

(** C6 (amended): for a column [x] of the screen, [draw_black_column] runs
    over the rows of the column's extent and never raises; a cell whose
    stored depth is farther than [distance] gets the depth [distance] and
    its pixel the colour (0, 0, 0, 0); a cell at least as near keeps depth
    and pixel; every cell and pixel outside the extent is left as it was. *)
Theorem draw_black_column_lowers_depth (rc : Raycaster) (x ceiling : Z)
    (distance : Q) :
  (0 <= x < pixwidth rc)%Z ->
  length (zbuffer rc)
  = (Z.to_nat (pixheight rc) * Z.to_nat (pixwidth rc))%nat ->
  exists rc',
    draw_black_column rc x ceiling distance = Some rc'
    /\ (forall y old,
          (0 `max` ceiling <= y < pixheight rc - 0 `max` ceiling)%Z ->
          zbuffer rc !! Z.to_nat (x + y * pixwidth rc) = Some old ->
          if depth_ltb (Fin distance) old
          then zbuffer rc' !! Z.to_nat (x + y * pixwidth rc)
               = Some (Fin distance)
               /\ image_buf rc' !! (x, y) = Some ((0, 0, 0, 0)%Z : RGBA)
          else zbuffer rc' !! Z.to_nat (x + y * pixwidth rc) = Some old
               /\ image_buf rc' !! (x, y) = image_buf rc !! (x, y))
    /\ (forall j : nat,
          (forall y,
             (0 `max` ceiling <= y < pixheight rc - 0 `max` ceiling)%Z ->
             j <> Z.to_nat (x + y * pixwidth rc)) ->
          zbuffer rc' !! j = zbuffer rc !! j)
    /\ (forall k : Z * Z,
          (forall y,
             (0 `max` ceiling <= y < pixheight rc - 0 `max` ceiling)%Z ->
             k <> (x, y)) ->
          image_buf rc' !! k = image_buf rc !! k).
Proof.
  intros Hx Hlen. unfold draw_black_column, range.
  set (start_y := (0 `max` ceiling)%Z).
  assert (forall y,
            y ∈ seqZ start_y (start_y + (pixheight rc - 2 * start_y) - start_y)
            <-> (start_y <= y < pixheight rc - start_y)%Z) as Hrange.
  { intros y. rewrite elem_of_seqZ. lia. }
  destruct (black_rows_effect x distance
              (seqZ start_y (start_y + (pixheight rc - 2 * start_y) - start_y))
              rc Hx Hlen)
    as (rc' & R & Hin & Hzb & Himg).
  { apply NoDup_seqZ. }
  { intros y Hy. apply Hrange in Hy. lia. }
  exists rc'. split; [ exact R | split; [ | split ] ].
  - intros y old Hy. apply Hin, Hrange, Hy.
  - intros j Hj. apply Hzb. intros y Hy. apply Hj, Hrange, Hy.
  - intros k Hk. apply Himg. intros y Hy. apply Hk, Hrange, Hy.
Qed.

Lemma draw_black_column_lowers_depth_witness :
  exists rc',
    draw_black_column (raycaster_at 1 2 corridor_map (Vec2.mk 0.5 0.5))
      0 0 4.02 = Some rc'
    /\ zbuffer rc' !! Z.to_nat (0 + 1 * 1) = Some (Fin 4.02)
    /\ image_buf rc' !! (0%Z, 1%Z) = Some ((0, 0, 0, 0)%Z : RGBA).
Proof.
  destruct (draw_black_column_lowers_depth
              (raycaster_at 1 2 corridor_map (Vec2.mk 0.5 0.5)) 0 0 4.02)
    as (rc' & R & Hin & _).
  - split; [ discriminate | reflexivity ].
  - reflexivity.
  - exists rc'. split; [ exact R | ].
    apply (Hin 1%Z Inf); [ split; [ discriminate | reflexivity ] | reflexivity ].
Defined.

(** ** Collision *)

Lemma int_mono (a b : Q) : a <= b -> (int a <= int b)%Z.
Proof.
  intros H. destruct (Qlt_le_dec a 0) as [Na | Pa].
  - destruct (Qlt_le_dec b 0) as [Nb | Pb].
    + rewrite !int_negative by assumption. now apply Qceiling_resp_le.
    + destruct (int_bounds_negative a Na) as [La _].
      destruct (int_bounds_nonneg b Pb) as [_ Ub].
      assert (inject_Z (int a) < inject_Z 1) as A by (push_inject; lra).
      assert (inject_Z 0 < inject_Z (int b + 1)) as B by (push_inject; lra).
      apply inject_Z_lt in A, B. lia.
  - assert (0 <= b) as Pb by lra.
    rewrite !int_nonneg by assumption. now apply Qfloor_resp_le.
Qed.

(** Less than one apart, two floats truncate to the same or to
    neighbouring integers. *)
Lemma int_near (a b : Q) : a <= b -> b < a + 1 -> (int b <= int a + 1)%Z.
Proof.
  intros H1 H2.
  assert (inject_Z (int b) < inject_Z (int a + 1 + 1)) as A.
  { push_inject.
    destruct (Qlt_le_dec a 0) as [Na | Pa], (Qlt_le_dec b 0) as [Nb | Pb].
    - destruct (int_bounds_negative a Na), (int_bounds_negative b Nb). lra.
    - destruct (int_bounds_negative a Na), (int_bounds_nonneg b Pb). lra.
    - lra.
    - destruct (int_bounds_nonneg a Pa), (int_bounds_nonneg b Pb). lra. }
  apply inject_Z_lt in A. lia.
Qed.

Lemma int_in_cell (c : Z) (q : Q) :
  (0 <= c)%Z -> inject_Z c <= q -> q < inject_Z c + 1 -> int q = c.
Proof.
  intros Hc Hl Hu. apply int_unique_nonneg; try assumption.
  assert (0 <= inject_Z c) by (now apply (proj1 (inject_Z_le 0 c))). lra.
Qed.

(** The map query looks at the truncated coordinates only. *)
Lemma map_square_int (m : Map) (x y x' y' : Q) :
  int x = int x' -> int y = int y' -> map_square m x y = map_square m x' y'.
Proof. unfold map_square. now intros -> ->. Qed.

(** An empty square lies on the map. *)
Lemma map_square_empty_on_map (m : Map) (x y : Q) :
  map_square m x y = 0%Z ->
  (0 <= int x < width m)%Z /\ (0 <= int y < height m)%Z.
Proof.
  unfold map_square.
  destruct (int x <? 0)%Z eqn:E1; [ discriminate | ].
  destruct (int x >=? width m)%Z eqn:E2; [ discriminate | ].
  destruct (int y <? 0)%Z eqn:E3; [ discriminate | ].
  destruct (int y >=? height m)%Z eqn:E4; [ discriminate | ].
  intros _. lia.
Qed.





(** ** The texture coordinate *)

(** In exact arithmetic [x % 1.0] lies in [0, 1) and both pixel indices of
    [Texture.sample] lie in [0, SIZE - 1]: the access is in bounds. *)
Lemma sample_index_in_bounds (x : Q) :
  0 <= mod1 x /\ mod1 x < 1
  /\ (0 <= Pywolf.sample_index x < Pywolf.SIZE)%Z.
Proof.
  unfold Pywolf.sample_index, Pywolf.SIZE, mod1.
  pose proof (Qfloor_le x) as L. pose proof (Qlt_floor x) as U.
  rewrite inject_Z_plus in U. change (inject_Z 1) with 1 in U.
  split; [ lra | split; [ lra | ] ].
  change (inject_Z 64) with 64.
  assert (0 <= (x - inject_Z (Qfloor x)) * 64) as P by lra.
  destruct (int_bounds_nonneg _ P) as [Li Ui].
  assert (inject_Z (int ((x - inject_Z (Qfloor x)) * 64)) < inject_Z 64) as A
    by (change (inject_Z 64) with 64; lra).
  assert (inject_Z 0 < inject_Z (int ((x - inject_Z (Qfloor x)) * 64) + 1))
    as B by (push_inject; lra).
  apply inject_Z_lt in A, B. lia.
Qed.

Lemma sample_never_raises (image : Z -> Z -> Z * Z * Z) (x y : Q) :
  Pywolf.sample image x y
  = Some (image (Pywolf.sample_index x) (Pywolf.sample_index y)).
Proof.
  unfold Pywolf.sample.
  destruct (sample_index_in_bounds x) as (_ & _ & Hx).
  destruct (sample_index_in_bounds y) as (_ & _ & Hy).
  replace (0 <=? Pywolf.sample_index x)%Z with true by lia.
  replace (Pywolf.sample_index x <? Pywolf.SIZE)%Z with true by lia.
  replace (0 <=? Pywolf.sample_index y)%Z with true by lia.
  replace (Pywolf.sample_index y <? Pywolf.SIZE)%Z with true by lia.
  reflexivity.
Qed.

(** C9: on binary64 the wrap can reach 1.0.  For [u = -1e-17] the exact
    remainder 1 - 1e-17 is rounded to 1.0, the index is [int(1.0 * 64) = 64]
    and the pixel access is out of bounds; coordinates such as (0.5, -0.25),
    (1.0, -1.0) are wrapped as the claim says.  The wrap reaches 1.0 for
    negative inputs down to -2^-54; from -2^-53 on the index is 63. *)
Theorem sample_wrap_reaches_size :
  Binary64.mod1 (-1e-17)%float = 1%float
  /\ Binary64.sample_index (-1e-17)%float = Some 64%Z
  /\ (forall image, Binary64.sample image (-1e-17)%float 0%float = None)
  /\ (forall image,
        Binary64.sample image 0.5%float (-0.25)%float = Some (image 32 48)%Z)
  /\ (forall image,
        Binary64.sample image 1%float (-1)%float = Some (image 0 0)%Z)
  /\ Binary64.sample_index (-0x1p-54)%float = Some 64%Z
  /\ Binary64.sample_index (-0x1p-53)%float = Some 63%Z.
Proof. repeat split. Qed.

(** ** What a ray returns *)

(** X1: on binary64, what [cast_ray] returns is read off the first of its
    200 sample points that lies in a non-empty square, for a column whose
    sample points have no NaN and no infinity for a coordinate: if the
    [j]-th is the first, the result is the id of its square, the distance
    counter after [j] additions of 0.02, and the edge and texture coordinate
    the exact intersection gives for that sample point seen from the player;
    if none is, it is the miss (-1, 4.0000000000000027, 0.0, TOP). *)
Theorem cast_ray_first_hit
    (isect : Binary64.Vec2 -> Binary64.Vec2 -> Intersection * float * Binary64.Vec2)
    (cam : Binary64.Camera) (pixel_x : Z) :
  Binary64.pixwidth cam <> 0%Z ->
  (forall i : nat,
     (1 <= i <= 200)%nat ->
     is_Some (Binary64.square_after (Binary64.map cam)
                (Binary64.player_position cam)
                (Binary64.ray_step cam pixel_x) i)) ->
  exists (j : nat) wall tx side,
    Binary64.cast_ray isect cam pixel_x
    = Some (wall, Binary64.distance_after j, tx, side)
    /\ (1 <= j <= 200)%nat
    /\ Binary64.no_hit (Binary64.map cam) (Binary64.player_position cam)
         (Binary64.ray_step cam pixel_x) 0 (j - 1)
    /\ ((j = 200%nat
         /\ Binary64.square_after (Binary64.map cam)
              (Binary64.player_position cam)
              (Binary64.ray_step cam pixel_x) 200 = Some 0%Z
         /\ wall = (-1)%Z /\ tx = 0%float /\ side = TOP
         /\ Binary64.distance_after j = 0x1.0000000000003p+2%float)
        \/ (Binary64.square_after (Binary64.map cam)
              (Binary64.player_position cam)
              (Binary64.ray_step cam pixel_x) j = Some wall
            /\ wall <> 0%Z
            /\ exists p : Binary64.Vec2,
                 isect (Binary64.player_position cam)
                   (Binary64.ray_after (Binary64.player_position cam)
                      (Binary64.ray_step cam pixel_x) j)
                 = (side, tx, p))).
Proof.
  intros Hw Hfin. unfold Binary64.cast_ray.
  destruct (Binary64.pixwidth cam =? 0)%Z eqn:E; [ apply Z.eqb_eq in E; lia | ].
  cbv zeta. fold (Binary64.ray_step cam pixel_x).
  destruct (binary64_march_spec isect (Binary64.map cam)
              (Binary64.player_position cam) (Binary64.player_position cam)
              (Binary64.ray_step cam pixel_x) Hfin 200 0 eq_refl)
    as (j & wall & tx & side & R & Hj & Hcase).
  cbn [Binary64.distance_after Binary64.ray_after] in R.
  exists j, wall, tx, side.
  destruct Hcase as [(-> & N & W) | (J & N & Hsq & Hne & P)].
  - split; [ exact R | split; [ lia | ] ].
    split; [ intros i Hi; apply N; lia | left ].
    split; [ reflexivity | split; [ apply N; lia | ] ].
    destruct W as (-> & -> & ->).
    repeat split.
  - split; [ exact R | split; [ lia | ] ].
    split; [ exact N | right ]. auto.
Qed.

Lemma cast_ray_first_hit_witness :
  exists (j : nat) wall tx side,
    Binary64.cast_ray
      (fun _ _ => (BOTTOM, 0.5%float, Binary64.mkVec2 1.5 1))
      Binary64.facing_block 1
    = Some (wall, Binary64.distance_after j, tx, side)
    /\ (1 <= j <= 200)%nat
    /\ wall = 1%Z /\ tx = 0.5%float /\ side = BOTTOM /\ j = 25%nat.
Proof.
  destruct (cast_ray_first_hit
              (fun _ _ => (BOTTOM, 0.5%float, Binary64.mkVec2 1.5 1))
              Binary64.facing_block 1)
    as (j & wall & tx & side & R & Hj & N & Hcase).
  - discriminate.
  - apply binary64_all_finite_spec. vm_compute. reflexivity.
  - exists j, wall, tx, side.
    split; [ exact R | split; [ exact Hj | ] ].
    assert (Binary64.square_after (Binary64.map Binary64.facing_block)
              (Binary64.player_position Binary64.facing_block)
              (Binary64.ray_step Binary64.facing_block 1) 25 = Some 1%Z) as H25
      by (vm_compute; reflexivity).
    assert (Binary64.all_empty (Binary64.map Binary64.facing_block)
              (Binary64.player_position Binary64.facing_block)
              (Binary64.ray_step Binary64.facing_block 1) 24 = true) as H24
      by (vm_compute; reflexivity).
    assert (j = 25%nat) as ->.
    { destruct (Nat.lt_trichotomy j 25) as [L | [-> | G]]; [ | reflexivity | ].
      - exfalso.
        pose proof (binary64_all_empty_spec _ _ _ _ H24 j ltac:(lia)) as E0.
        destruct Hcase as [(-> & _) | (Hsq & Hne & _)]; [ lia | ].
        rewrite E0 in Hsq. congruence.
      - exfalso. rewrite (N 25%nat ltac:(lia)) in H25. discriminate. }
    destruct Hcase as [(J & _) | (Hsq & _ & p & P)]; [ discriminate | ].
    rewrite H25 in Hsq. injection Hsq as <-. injection P as <- <- _.
    repeat split.
Defined.

(** ** The fan of rays *)

(** X2: the rays of the screen columns fan out from [direction -
    camera_plane] in equal steps of [2 / pixwidth] of the camera plane:
    column 0 looks along [direction - camera_plane], the column in the
    middle of a screen of even width along [direction], and the last column
    stays [2 / pixwidth] of the camera plane short of [direction +
    camera_plane]. *)
Theorem ray_direction_fan (rc : Raycaster) (x : Z) :
  pixwidth rc <> 0%Z ->
  let k := 2 / inject_Z (pixwidth rc) in
  (Vec2.x (ray_direction rc x)
   == Vec2.x (player_direction rc)
      + (inject_Z x * k - 1) * Vec2.x (camera_plane rc)
   /\ Vec2.y (ray_direction rc x)
      == Vec2.y (player_direction rc)
         + (inject_Z x * k - 1) * Vec2.y (camera_plane rc))
  /\ (Vec2.x (ray_direction rc 0)
      == Vec2.x (player_direction rc) - Vec2.x (camera_plane rc)
      /\ Vec2.y (ray_direction rc 0)
         == Vec2.y (player_direction rc) - Vec2.y (camera_plane rc))
  /\ (Vec2.x (ray_direction rc (pixwidth rc - 1))
      == Vec2.x (player_direction rc) + (1 - k) * Vec2.x (camera_plane rc)
      /\ Vec2.y (ray_direction rc (pixwidth rc - 1))
         == Vec2.y (player_direction rc) + (1 - k) * Vec2.y (camera_plane rc))
  /\ (forall h : Z, pixwidth rc = (2 * h)%Z ->
      Vec2.x (ray_direction rc h) == Vec2.x (player_direction rc)
      /\ Vec2.y (ray_direction rc h) == Vec2.y (player_direction rc)).
Proof.
  intros Hw k. subst k.
  assert (~ inject_Z (pixwidth rc) == 0) as Hw'.
  { intros E. apply Hw. now apply (proj1 (inject_Z_injective _ 0%Z)). }
  unfold ray_direction. cbn [Vec2.add Vec2.scale Vec2.x Vec2.y].
  split; [ split; field; exact Hw' | ].
  split; [ split; change (inject_Z 0) with 0; field; exact Hw' | ].
  split.
  - unfold Z.sub. rewrite inject_Z_plus, inject_Z_opp.
    change (inject_Z 1) with 1. split; field; exact Hw'.
  - intros h Hh. rewrite Hh in *. rewrite inject_Z_mult in *.
    change (inject_Z 2) with 2 in *.
    assert (~ inject_Z h == 0) as Hh' by (intros E; apply Hw'; rewrite E; ring).
    split; field; exact Hh'.
Qed.

Lemma ray_direction_fan_witness :
  Vec2.x (ray_direction (raycaster_at 4 2 corridor_map (Vec2.mk 0.5 0.5)) 0)
  == 0 - (839 # 1000)
  /\ Vec2.x (ray_direction (raycaster_at 4 2 corridor_map (Vec2.mk 0.5 0.5)) 2)
     == 0
  /\ Vec2.x (ray_direction (raycaster_at 4 2 corridor_map (Vec2.mk 0.5 0.5)) 3)
     == 0 + (1 - 2 / 4) * (839 # 1000).
Proof.
  destruct (ray_direction_fan
              (raycaster_at 4 2 corridor_map (Vec2.mk 0.5 0.5)) 0)
    as (_ & [A _] & [B _] & C); [ discriminate | ].
  split; [ exact A | split; [ | exact B ] ].
  apply (C 2%Z). reflexivity.
Defined.

(** ** The march on binary64 *)

(** X3: on binary64 the loop of [cast_ray] on a ray that hits nothing
    makes 200 turns, one fewer than in exact arithmetic: after 199
    additions of 0.02 the counter is still at most [BLACK_DISTANCE] (199
    turns of fuel do not end the loop), the 200th takes it past, to
    0x1.0000000000003p+2 (4.0000000000000027), and that is the distance of
    the miss. *)
Theorem binary64_march_makes_200_turns :
  Binary64.march_distance 199 0%float = None
  /\ Binary64.march_distance 200 0%float = Some 0x1.0000000000003p+2%float
  /\ (forall fuel : nat,
        (200 <= fuel)%nat ->
        Binary64.march_distance fuel 0%float
        = Some 0x1.0000000000003p+2%float).
Proof.
  split; [ reflexivity | split; [ reflexivity | ] ].
  assert (forall fuel d r,
            Binary64.march_distance fuel d = Some r ->
            Binary64.march_distance (S fuel) d = Some r) as Hmore.
  { induction fuel as [ | fuel IH ]; intros d r; simpl.
    - destruct (d <=? 4)%float; [ discriminate | auto ].
    - destruct (d <=? 4)%float; [ apply IH | auto ]. }
  intros fuel Hfuel. induction Hfuel as [ | fuel _ IH ];
    [ reflexivity | now apply Hmore ].
Qed.

Lemma binary64_march_makes_200_turns_witness :
  Binary64.march_distance 201 0%float = Some 0x1.0000000000003p+2%float.
Proof.
  destruct binary64_march_makes_200_turns as (_ & _ & H).
  apply H. repeat constructor.
Defined.

(** ** The point where the ray enters the square *)

(** The parameter of a point of the ray on the line of an edge. *)
Lemma ray_parameter (e d : Q) :
  ~ d == 0 -> 0 < e * d -> e * d <= d * d -> 0 < e / d /\ e / d <= 1.
Proof.
  intros N P L.
  assert (0 < d * d) as D2 by nra.
  assert (e / d == (e * d) / (d * d)) as -> by (field; exact N).
  split.
  - apply Qlt_shift_div_l; [ exact D2 | lra ].
  - apply Qle_shift_div_r; [ exact D2 | lra ].
Qed.

Lemma ray_point (c a e n d : Q) :
  ~ d == 0 -> (c - a) * d == e * n -> c == a + e / d * n.
Proof.
  intros N H.
  assert (c - a == e * n / d) as E.
  { apply (Qmult_inj_r _ _ d N). rewrite H. field. exact N. }
  assert (e / d * n == e * n / d) as -> by (field; exact N).
  lra.
Qed.

Lemma ray_edge (edge from d : Q) :
  ~ d == 0 -> edge == from + (edge - from) / d * d.
Proof. intros N. field. exact N. Qed.

(** The intercept on the chosen edge as a point of the ray. *)
Ltac ray_leaf :=
  unfold edge_intersection; cbn [Vec2.x Vec2.y];
  match goal with
  | |- context [intercept ?s ?e ?f ?n ?d] =>
      let NZ := fresh "NZ" in
      let c := fresh "c" in
      let Hc := fresh "Hc" in
      let T := fresh "T" in
      destruct (Qeq_dec d 0) as [NZ | NZ];
      [ exfalso; nra
      | destruct (intercept_value s e f n d NZ) as (c & -> & Hc);
        assert (0 < (e - f) * d /\ (e - f) * d <= d * d) as T
          by (first
                [ assert (0 < e - f /\ e - f <= d) by (split; lra);
                  split; nra
                | assert (e - f < 0 /\ d <= e - f) by (split; lra);
                  split; nra
                | split; nra
                | destruct (Qlt_le_dec 0 (e - f)); destruct (Qlt_le_dec 0 d);
                  first [ split; nra | exfalso; nra ] ]);
        destruct (ray_parameter (e - f) d NZ (proj1 T) (proj2 T));
        do 3 eexists; exists ((e - f) / d);
        (split; [ reflexivity | ]); cbn [Vec2.x Vec2.y];
        (split; [ assumption | ]); (split; [ assumption | ]);
        first [ split; [ now apply ray_point | now apply ray_edge ]
              | split; [ now apply ray_edge | now apply ray_point ] ] ]
  end.

(** Away from the degenerate family the returned point is a point of the
    segment from the camera to the sample point. *)
Lemma intersection_on_segment (camera sample : Vec2.t) :
  0 <= Vec2.x sample -> 0 <= Vec2.y sample ->
  outside_square (square_center_of sample) camera ->
  ~ (Vec2.x camera == Vec2.x (square_center_of sample) - 0.5
     /\ Vec2.x sample == Vec2.x camera
     /\ Vec2.y camera < Vec2.y (square_center_of sample) - 0.5) ->
  exists side tx p t,
    intersection_with_mapsquare_accurate camera sample = Some (side, tx, p)
    /\ 0 < t /\ t <= 1
    /\ Vec2.x p == Vec2.x camera + t * (Vec2.x sample - Vec2.x camera)
    /\ Vec2.y p == Vec2.y camera + t * (Vec2.y sample - Vec2.y camera).
Proof.
  destruct camera as [a b], sample as [u v]. cbn [Vec2.x Vec2.y].
  intros Hu Hv Hout Hdeg.
  destruct (int_bounds_nonneg u Hu) as [Lu Uu].
  destruct (int_bounds_nonneg v Hv) as [Lv Uv].
  unfold intersection_with_mapsquare_accurate, intersected_edge,
    outside_square, square_center_of, Vec2.sub, Vec2.add in *.
  cbn [Vec2.x Vec2.y] in *.
  set (N := inject_Z (int u)) in *. set (M := inject_Z (int v)) in *.
  destruct (Qltb a (N + 0.5)) eqn:Ea; destruct (Qltb b (M + 0.5)) eqn:Eb;
    try apply Qltb_lt in Ea; try apply Qltb_ge in Ea;
    try apply Qltb_lt in Eb; try apply Qltb_ge in Eb.
  - destruct (Qlt_le_dec b M) as [Hb | Hb].
    + classify angle_lt_upper.
      * ray_leaf.
      * unfold edge_intersection; cbn [Vec2.x Vec2.y].
        destruct (Qeq_dec (u - a) 0) as [Z | NZ];
          [ exfalso; apply Hdeg; nra | ].
        destruct (intercept_value b (N + 0.5 - 0.5) a (v - b) (u - a) NZ)
          as (c & -> & Hc).
        assert (0 < (N + 0.5 - 0.5 - a) * (u - a)
                /\ (N + 0.5 - 0.5 - a) * (u - a) <= (u - a) * (u - a)) as T.
        { destruct (Qlt_le_dec a N) as [Ha | Ha]; [ split; nra | ].
          assert ((u - N) * (M - b) + (v - M) * (a - N) <= 0) as S by lra.
          assert (0 <= (v - M) * (a - N)) as S1 by nra.
          assert ((u - N) * (M - b) <= 0) as S2 by lra.
          assert (u <= N) as S3 by nra.
          assert (u == N) as S4 by lra.
          assert (a == N -> False) as S5 by (intros S5; apply Hdeg; lra).
          assert (N < a) as S6.
          { destruct (Qlt_le_dec N a); [ assumption | exfalso; apply S5; lra ]. }
          split; nra. }
        destruct (ray_parameter _ _ NZ (proj1 T) (proj2 T)).
        exists LEFT, (- c), (Vec2.mk (N + 0.5 - 0.5) c),
          ((N + 0.5 - 0.5 - a) / (u - a)).
        split; [ reflexivity | ]. cbn [Vec2.x Vec2.y].
        split; [ assumption | split; [ assumption | ] ].
        split; [ now apply ray_edge | now apply ray_point ].
    + classify angle_lt_right; ray_leaf.
  - destruct (Qlt_le_dec (M + 1) b) as [Hb | Hb].
    + classify angle_lt_lower; ray_leaf.
    + classify angle_lt_right; ray_leaf.
  - destruct (Qlt_le_dec b M) as [Hb | Hb].
    + classify angle_lt_upper.
      * ray_leaf.
      * assert (N + 1 < a) as Ha.
        { destruct (Qlt_le_dec (N + 1) a) as [Ha | Ha]; [ exact Ha | ].
          exfalso. apply Hn.
          assert (0 <= (N + 1 - a) * (v - M)) as P1 by nra.
          assert (0 < (N + 1 - u) * (M - b)) as P2 by nra.
          nra. }
        ray_leaf.
    + classify angle_lt_right; ray_leaf.
  - destruct (Qlt_le_dec (M + 1) b) as [Hb | Hb].
    + classify angle_lt_lower.
      * assert (N + 1 < a) as Ha.
        { destruct (Qlt_le_dec (N + 1) a) as [Ha | Ha]; [ exact Ha | ].
          exfalso.
          assert (0 < (N + 1 - u) * (b - M - 1)) as P1 by nra.
          assert (0 <= (M + 1 - v) * (N + 1 - a)) as P2 by nra.
          nra. }
        ray_leaf.
      * ray_leaf.
    + classify angle_lt_right; ray_leaf.
Qed.

(** The texture coordinate is a coordinate of the point, negated on the
    top and on the left edge. *)
Lemma intersection_texture_coordinate (camera cast_ray : Vec2.t)
    (side : Intersection) (tx : Q) (p : Vec2.t) :
  intersection_with_mapsquare_accurate camera cast_ray = Some (side, tx, p) ->
  side = intersected_edge camera cast_ray
  /\ tx = match side with
          | TOP => - Vec2.x p
          | BOTTOM => Vec2.x p
          | LEFT => - Vec2.y p
          | RIGHT => Vec2.y p
          end.
Proof.
  unfold intersection_with_mapsquare_accurate, edge_intersection.
  destruct (intersected_edge camera cast_ray);
    match goal with
    | |- context [intercept ?a ?b ?c ?d ?e] =>
        destruct (intercept a b c d e); [ | discriminate ]
    end;
    intros H; injection H as <- <- <-; split; reflexivity.
Qed.

(** X4: away from one degenerate family of rays the exact method returns
    the point where the ray enters the square.  For a sample point with
    non-negative coordinates and a camera strictly outside the square of the
    sample point (not straight below the line of its left edge with the
    sample point on that line), the returned point lies on the boundary of
    the square and on the segment from the camera to the sample point, and
    the texture coordinate is the coordinate of that point along the edge
    (negated on the top and on the left edge). *)
Theorem intersection_is_entry_point (camera sample : Vec2.t) :
  0 <= Vec2.x sample -> 0 <= Vec2.y sample ->
  outside_square (square_center_of sample) camera ->
  ~ (Vec2.x camera == Vec2.x (square_center_of sample) - 0.5
     /\ Vec2.x sample == Vec2.x camera
     /\ Vec2.y camera < Vec2.y (square_center_of sample) - 0.5) ->
  exists side tx p t,
    intersection_with_mapsquare_accurate camera sample = Some (side, tx, p)
    /\ on_square_boundary (square_center_of sample) p
    /\ 0 < t /\ t <= 1
    /\ Vec2.x p == Vec2.x camera + t * (Vec2.x sample - Vec2.x camera)
    /\ Vec2.y p == Vec2.y camera + t * (Vec2.y sample - Vec2.y camera)
    /\ tx = match side with
            | TOP => - Vec2.x p
            | BOTTOM => Vec2.x p
            | LEFT => - Vec2.y p
            | RIGHT => Vec2.y p
            end.
Proof.
  intros Hu Hv Hout Hdeg.
  destruct (intersection_on_segment camera sample Hu Hv Hout Hdeg)
    as (side & tx & p & t & R & T0 & T1 & Px & Py).
  destruct (intersection_on_boundary camera sample Hu Hv Hout Hdeg)
    as (side' & tx' & p' & R' & B).
  rewrite R in R'. injection R' as <- <- <-.
  exists side, tx, p, t.
  destruct (intersection_texture_coordinate _ _ _ _ _ R) as [_ Htx].
  auto 10.
Qed.

Lemma intersection_is_entry_point_witness :
  exists side tx p t,
    intersection_with_mapsquare_accurate (Vec2.mk 0.5 0.5)
      (Vec2.mk 1.25 1.125) = Some (side, tx, p)
    /\ on_square_boundary (square_center_of (Vec2.mk 1.25 1.125)) p
    /\ 0 < t /\ t <= 1
    /\ Vec2.x p == 0.5 + t * (1.25 - 0.5)
    /\ Vec2.y p == 0.5 + t * (1.125 - 0.5)
    /\ side = BOTTOM /\ Vec2.y p == 1.
Proof.
  destruct (intersection_is_entry_point (Vec2.mk 0.5 0.5) (Vec2.mk 1.25 1.125))
    as (side & tx & p & t & R & B & T0 & T1 & Px & Py & _).
  - discriminate.
  - discriminate.
  - left. reflexivity.
  - intros (H & _). discriminate H.
  - exists side, tx, p, t.
    split; [ exact R | split; [ exact B | ] ].
    split; [ exact T0 | split; [ exact T1 | ] ].
    split; [ exact Px | split; [ exact Py | ] ].
    vm_compute in R. injection R as <- <- <-. split; reflexivity.
Defined.

(** ** The fast intersection *)

Lemma Q2R_1 : Q2R 1 = 1%R.
Proof. unfold Q2R. simpl. field. Qed.

Lemma Q2R_m1 : Q2R (-1) = (-1)%R.
Proof. unfold Q2R. simpl. field. Qed.

(** The four constants stand for a quarter and three quarters of pi, on
    both sides. *)
Lemma quarter_pi_values :
  angle_value quarter_pi = (PI / 4)%R
  /\ angle_value minus_quarter_pi = (- PI / 4)%R
  /\ angle_value three_quarter_pi = (3 * PI / 4)%R
  /\ angle_value minus_three_quarter_pi = (- 3 * PI / 4)%R.
Proof.
  unfold angle_value, quarter_pi, minus_quarter_pi, three_quarter_pi,
    minus_three_quarter_pi; cbn [sector slope].
  rewrite Q2R_1, Q2R_m1.
  replace (atan (-1)) with (- atan 1)%R
    by (rewrite <- atan_opp; f_equal; Lra.lra).
  rewrite atan_1. repeat split; Lra.lra.
Qed.

Lemma quarter_pi_wf :
  angle_wf quarter_pi /\ angle_wf minus_quarter_pi
  /\ angle_wf three_quarter_pi /\ angle_wf minus_three_quarter_pi.
Proof.
  unfold angle_wf, quarter_pi, minus_quarter_pi, three_quarter_pi,
    minus_three_quarter_pi; cbn [sector slope].
  rewrite Q2R_1, Q2R_m1.
  split; [ | split; [ | split ] ].
  - right; right; left; reflexivity.
  - right; right; left; reflexivity.
  - do 4 right. split; [ reflexivity | Lra.lra ].
  - left. split; [ reflexivity | Lra.lra ].
Qed.

(** [a <= b] on codes is [<=] on the angles they stand for. *)
Lemma angle_le_value (a b : Angle) :
  angle_wf a -> angle_wf b ->
  (angle_le a b = true <-> (angle_value a <= angle_value b)%R).
Proof.
  intros Ha Hb. unfold angle_le. rewrite negb_true_iff.
  pose proof (angle_lt_value b a Hb Ha) as H. split.
  - intros E. destruct (Rle_or_lt (angle_value a) (angle_value b)) as [L | L];
      [ exact L | ].
    apply H in L. congruence.
  - intros L. apply not_true_iff_false. intros T. apply H in T. Lra.lra.
Qed.

(** The tests of the fast method are those of the source on [atan2]: a
    comparison of the angle of a vector with a code [c] is the comparison
    of its [atan2] with the angle [c] stands for. *)
Lemma angle_tests_atan2 (v : Vec2.t) (c : Angle) :
  angle_wf c ->
  (angle_le c (angle v) = true
   <-> (angle_value c <= atan2 (Q2R (Vec2.y v)) (Q2R (Vec2.x v)))%R)
  /\ (angle_lt (angle v) c = true
      <-> (atan2 (Q2R (Vec2.y v)) (Q2R (Vec2.x v)) < angle_value c)%R).
Proof.
  intros Hc. destruct (angle_value_atan2 v) as [Wv <-]. split.
  - now apply angle_le_value.
  - now apply angle_lt_value.
Qed.

(** X5: the fast method reads the texture coordinate off the sample
    point by the quadrant of its square, cut along the two diagonals
    through the centre: [cast_ray.y] in the right quadrant (with the lower
    diagonal and the centre itself), [-cast_ray.x] in the upper one (with
    the diagonal to its right), [cast_ray.x] in the lower one (with the
    diagonal to its left), [-cast_ray.y] in the left one (with the upper
    diagonal). *)
Theorem fast_intersection_by_quadrant (cast_ray : Vec2.t) :
  let dx := Vec2.x cast_ray - Vec2.x (square_center_of cast_ray) in
  let dy := Vec2.y cast_ray - Vec2.y (square_center_of cast_ray) in
  (((0 < dx /\ - dx <= dy /\ dy < dx) \/ (dx == 0 /\ dy == 0))
   /\ intersection_with_mapsquare_fast cast_ray = Vec2.y cast_ray)
  \/ (0 < dy /\ - dy < dx /\ dx <= dy
      /\ intersection_with_mapsquare_fast cast_ray = - Vec2.x cast_ray)
  \/ (dy < 0 /\ dy <= dx /\ dx < - dy
      /\ intersection_with_mapsquare_fast cast_ray = Vec2.x cast_ray)
  \/ (dx < 0 /\ dx < dy /\ dy <= - dx
      /\ intersection_with_mapsquare_fast cast_ray = - Vec2.y cast_ray).
Proof.
  intros dx dy. unfold intersection_with_mapsquare_fast.
  unfold angle. cbn [Vec2.sub Vec2.x Vec2.y]. fold dx dy.
  pose proof (Qcompare_cases dx) as Cx. pose proof (Qcompare_cases dy) as Cy.
  assert (~ dx == 0 -> (dy / dx) * dx == dy) as Hs by (intros N; now field).
  revert Hs. generalize (dy / dx). intros s Hs.
  unfold angle_le, angle_lt, quarter_pi, minus_quarter_pi, three_quarter_pi,
    minus_three_quarter_pi.
  destruct (dx ?= 0); destruct (dy ?= 0);
    cbn [sector slope Z.ltb Z.eqb Z.compare Pos.compare Pos.compare_cont
         Pos.eqb orb andb negb];
    try (specialize (Hs ltac:(lra)));
    repeat match goal with
    | |- context [Qltb ?a ?b] =>
        let E := fresh "E" in
        destruct (Qltb a b) eqn:E;
        [ apply Qltb_lt in E | apply Qltb_ge in E ];
        cbn [orb andb negb]
    end;
    first
      [ left; split; [ first [ left; nra | right; split; lra ] | reflexivity ]
      | right; left; repeat (split; [ nra | ]); reflexivity
      | right; right; left; repeat (split; [ nra | ]); reflexivity
      | right; right; right; repeat (split; [ nra | ]); reflexivity
      | exfalso; nra ].
Qed.

(** ** Two writes to one pixel *)

Lemma depth_ltb_Fin (z : Q) (old : Depth) :
  depth_ltb (Fin z) old = false -> exists q, old = Fin q /\ q <= z.
Proof.
  destruct old as [q | ]; simpl; [ | discriminate ].
  intros H. apply Qltb_ge in H. eauto.
Qed.

Lemma py_index_length {A B} (l : list A) (l' : list B) (i : Z) :
  length l' = length l -> py_index l' i = py_index l i.
Proof. unfold py_index. now intros ->. Qed.

(** X6: at a pixel of the screen the nearest write wins, whatever the
    order.  After an opaque write at depth [z1] a write at a depth
    [z2 >= z1] (opaque or transparent) leaves no trace, and a write at a
    depth [z2 > z1] made before it leaves none either: in both orders the
    raycaster is the one the nearer write alone leaves (or the same
    exception is raised). *)
Theorem set_pixel_nearest_wins (rc : Raycaster) (x y : Z)
    (z1 z2 b1 b2 : Q) (c1 : RGBA) (c2 : option RGBA) :
  on_screen rc x y ->
  (z1 <= z2 ->
   set_pixel rc x y z1 b1 (Some c1) ≫= (fun s => set_pixel s x y z2 b2 c2)
   = set_pixel rc x y z1 b1 (Some c1))
  /\ (z1 < z2 ->
      set_pixel rc x y z2 b2 c2 ≫= (fun s => set_pixel s x y z1 b1 (Some c1))
      = set_pixel rc x y z1 b1 (Some c1)).
Proof.
  intros _. split; intros Hz.
  - unfold set_pixel at 2 3.
    destruct (py_index (zbuffer rc) (x + y * pixwidth rc)) as [i | ] eqn:Ei;
      [ | reflexivity ].
    destruct (zbuffer rc !! i) as [old | ] eqn:Eold; [ | reflexivity ].
    destruct (depth_ltb (Fin z1) old) eqn:E1; cbn [mbind option_bind].
    + unfold set_pixel. destruct c2 as [c2 | ]; [ | reflexivity ].
      cbn [zbuffer pixwidth with_zbuffer with_image_buf].
      rewrite (py_index_length (zbuffer rc)) by apply length_insert.
      rewrite Ei, list_lookup_insert_eq by (eapply lookup_lt_Some, Eold).
      cbn [depth_ltb].
      replace (Qltb z2 z1) with false by (symmetry; now apply Qltb_ge).
      reflexivity.
    + unfold set_pixel. destruct c2 as [c2 | ]; [ | reflexivity ].
      rewrite Ei, Eold.
      destruct (depth_ltb_Fin _ _ E1) as (q & -> & Hq). cbn [depth_ltb].
      replace (Qltb z2 q) with false by (symmetry; apply Qltb_ge; lra).
      reflexivity.
  - destruct c2 as [c2 | ]; [ | reflexivity ].
    unfold set_pixel at 2.
    destruct (py_index (zbuffer rc) (x + y * pixwidth rc)) as [i | ] eqn:Ei;
      [ | unfold set_pixel; now rewrite Ei ].
    destruct (zbuffer rc !! i) as [old | ] eqn:Eold;
      [ | unfold set_pixel; now rewrite Ei, Eold ].
    destruct (depth_ltb (Fin z2) old) eqn:E2; cbn [mbind option_bind];
      [ | reflexivity ].
    unfold set_pixel.
    cbn [zbuffer pixwidth image_buf with_zbuffer with_image_buf].
    rewrite (py_index_length (zbuffer rc)) by apply length_insert.
    rewrite Ei, Eold, list_lookup_insert_eq by (eapply lookup_lt_Some, Eold).
    assert (depth_ltb (Fin z1) old = true) as E1.
    { destruct old as [q | ]; [ | reflexivity ]. cbn [depth_ltb] in *.
      apply Qltb_lt in E2. apply Qltb_lt. lra. }
    rewrite E1. cbn [depth_ltb].
    replace (Qltb z1 z2) with true by (symmetry; now apply Qltb_lt).
    unfold with_image_buf, with_zbuffer. cbn.
    now rewrite list_insert_insert_eq, insert_insert_eq.
Qed.

Lemma set_pixel_nearest_wins_witness :
  (set_pixel (raycaster_at 1 2 corridor_map (Vec2.mk 0.5 0.5)) 0 0 1 1
     (Some (9, 9, 9, 255)%Z)
     ≫= (fun s => set_pixel s 0 0 2 1 (Some (7, 7, 7, 255)%Z))
   = set_pixel (raycaster_at 1 2 corridor_map (Vec2.mk 0.5 0.5)) 0 0 1 1
       (Some (9, 9, 9, 255)%Z))
  /\ (set_pixel (raycaster_at 1 2 corridor_map (Vec2.mk 0.5 0.5)) 0 0 2 1
        (Some (7, 7, 7, 255)%Z)
        ≫= (fun s => set_pixel s 0 0 1 1 (Some (9, 9, 9, 255)%Z))
      = set_pixel (raycaster_at 1 2 corridor_map (Vec2.mk 0.5 0.5)) 0 0 1 1
          (Some (9, 9, 9, 255)%Z)).
Proof.
  destruct (set_pixel_nearest_wins
              (raycaster_at 1 2 corridor_map (Vec2.mk 0.5 0.5)) 0 0 1 2 1 1
              (9, 9, 9, 255)%Z (Some (7, 7, 7, 255)%Z)) as [A B].
  - split; split; (discriminate || reflexivity).
  - split; [ apply A | apply B ]; lra.
Defined.

(** ** The colour of a lit pixel *)

(** A channel scaled by a factor between 0 and 1 stays between 0 and its
    value. *)
Lemma int_scale_bounds (c : Z) (k : Q) :
  (0 <= c)%Z -> 0 <= k -> k <= 1 -> (0 <= int (inject_Z c * k) <= c)%Z.
Proof.
  intros Hc Hk0 Hk1.
  assert (0 <= inject_Z c) as Hc' by (now apply (proj1 (inject_Z_le 0 c))).
  rewrite <- (int_inject_Z 0) at 1. rewrite <- (int_inject_Z c) at 3.
  split; apply int_mono; change (inject_Z 0) with 0; nra.
Qed.

Lemma int_scale_mono (c : Z) (k1 k2 : Q) :
  (0 <= c)%Z -> k2 <= k1 -> (int (inject_Z c * k2) <= int (inject_Z c * k1))%Z.
Proof.
  intros Hc Hk.
  assert (0 <= inject_Z c) as Hc' by (now apply (proj1 (inject_Z_le 0 c))).
  apply int_mono. nra.
Qed.

Lemma brightness_range (d : Q) : 0 <= d -> 0 <= brightness d /\ brightness d <= 1.
Proof.
  intros H. destruct (brightness_cases d) as [[L E] | [L E]];
    unfold BLACK_DISTANCE in *; rewrite E; split; lra.
Qed.

Lemma brightness_mono (d1 d2 : Q) : d1 <= d2 -> brightness d2 <= brightness d1.
Proof.
  intros H.
  destruct (brightness_cases d1) as [[L1 E1] | [L1 E1]],
           (brightness_cases d2) as [[L2 E2] | [L2 E2]];
    unfold BLACK_DISTANCE in *; rewrite E1, E2; lra.
Qed.

(** X7: the colour [color_brightness] makes of a colour with non-negative
    channels at the brightness of a distance: every channel lies between 0
    and the channel of the colour, the farther of two distances gives no
    brighter channel, from [BLACK_DISTANCE] on the colour is black, and the
    alpha channel is passed through; pywolf's [rgb_brightness] scales the
    three colour channels in the same way. *)
Theorem color_brightness_darkens (r g b a : Z) (d1 d2 : Q) :
  (0 <= r)%Z -> (0 <= g)%Z -> (0 <= b)%Z -> 0 <= d1 -> d1 <= d2 ->
  exists r1 g1 b1 r2 g2 b2 : Z,
    color_brightness (r, g, b, a) (brightness d1) = (r1, g1, b1, a)
    /\ color_brightness (r, g, b, a) (brightness d2) = (r2, g2, b2, a)
    /\ Pywolf.rgb_brightness (r, g, b) (brightness d1) = (r1, g1, b1)
    /\ (0 <= r2 <= r1)%Z /\ (r1 <= r)%Z
    /\ (0 <= g2 <= g1)%Z /\ (g1 <= g)%Z
    /\ (0 <= b2 <= b1)%Z /\ (b1 <= b)%Z
    /\ (BLACK_DISTANCE <= d2 -> (r2, g2, b2) = (0, 0, 0)%Z).
Proof.
  intros Hr Hg Hb Hd1 Hd.
  assert (0 <= d2) as Hd2 by lra.
  destruct (brightness_range d1 Hd1) as [L1 U1].
  destruct (brightness_range d2 Hd2) as [L2 U2].
  pose proof (brightness_mono d1 d2 Hd) as M.
  do 6 eexists. split; [ reflexivity | split; [ reflexivity | ] ].
  split; [ reflexivity | ].
  pose proof (int_scale_bounds r _ Hr L1 U1).
  pose proof (int_scale_bounds g _ Hg L1 U1).
  pose proof (int_scale_bounds b _ Hb L1 U1).
  pose proof (int_scale_bounds r _ Hr L2 U2).
  pose proof (int_scale_bounds g _ Hg L2 U2).
  pose proof (int_scale_bounds b _ Hb L2 U2).
  pose proof (int_scale_mono r _ _ Hr M).
  pose proof (int_scale_mono g _ _ Hg M).
  pose proof (int_scale_mono b _ _ Hb M).
  repeat (split; [ lia | ]).
  intros Hfar. destruct (brightness_cases d2) as [[L E] | [L E]]; [ lra | ].
  rewrite E.
  assert (forall c : Z, int (inject_Z c * 0.0) = 0%Z) as Z0.
  { intros c. rewrite <- (int_inject_Z 0) at 2.
    assert (inject_Z c * 0.0 == inject_Z 0) as E0
      by (change (inject_Z 0) with 0; ring).
    now rewrite E0. }
  now rewrite !Z0.
Qed.

Lemma color_brightness_darkens_witness :
  exists r1 g1 b1 r2 g2 b2 : Z,
    color_brightness (200, 100, 50, 255)%Z (brightness 1) = (r1, g1, b1, 255%Z)
    /\ color_brightness (200, 100, 50, 255)%Z (brightness 2) = (r2, g2, b2, 255%Z)
    /\ Pywolf.rgb_brightness (200, 100, 50)%Z (brightness 1) = (r1, g1, b1)
    /\ (0 <= r2 <= r1)%Z /\ (r1 <= 200)%Z
    /\ (0 <= g2 <= g1)%Z /\ (g1 <= 100)%Z
    /\ (0 <= b2 <= b1)%Z /\ (b1 <= 50)%Z
    /\ (BLACK_DISTANCE <= 2 -> (r2, g2, b2) = (0, 0, 0)%Z).
Proof.
  apply (color_brightness_darkens 200 100 50 255 1 2); try lia; lra.
Defined.

(** ** A textured column *)





(** ** What a tick changes *)

#[export] Instance same_scene_refl : Reflexive same_scene.
Proof. intros [ ]. repeat split. Qed.

#[export] Instance same_scene_trans : Transitive same_scene.
Proof.
  intros a b c (Eb & Lb1 & Lb2) (Ec & Lc1 & Lc2).
  split; [ | split; congruence ].
  rewrite Ec at 1. rewrite Eb at 1. now destruct a.
Qed.

Lemma same_scene_with_zbuffer (rc : Raycaster) (zb : list Depth) :
  length zb = length (zbuffer rc) -> same_scene rc (with_zbuffer rc zb).
Proof. intros H. destruct rc. now repeat split. Qed.

Lemma same_scene_with_image_buf (rc : Raycaster) (img : gmap (Z * Z) RGBA) :
  same_scene rc (with_image_buf rc img).
Proof. destruct rc. now repeat split. Qed.

Lemma same_scene_with_ceiling_sizes (rc : Raycaster) (cs : list Z) :
  length cs = length (ceiling_sizes rc) ->
  same_scene rc (with_ceiling_sizes rc cs).
Proof. intros H. destruct rc. now repeat split. Qed.

(** The fields a ray, a column and a row are computed from. *)
Lemma same_scene_fields (rc rc' : Raycaster) :
  same_scene rc rc' ->
  pixwidth rc' = pixwidth rc /\ pixheight rc' = pixheight rc
  /\ wall_textures rc' = wall_textures rc
  /\ ceiling_tex rc' = ceiling_tex rc /\ floor_tex rc' = floor_tex rc
  /\ frame rc' = frame rc /\ empty_zbuffer rc' = empty_zbuffer rc
  /\ player_position rc' = player_position rc
  /\ (forall x, ray_direction rc' x = ray_direction rc x)
  /\ (forall x, cast_ray rc' x = cast_ray rc x).
Proof.
  intros (E & _). rewrite E. destruct rc. now repeat split.
Qed.

Lemma set_pixel_same_scene (rc rc' : Raycaster) (x y : Z) (z brightness : Q)
    (rgba : option RGBA) :
  set_pixel rc x y z brightness rgba = Some rc' -> same_scene rc rc'.
Proof.
  unfold set_pixel. intros H.
  destruct rgba as [c | ]; [ | injection H as <-; reflexivity ].
  destruct (py_index (zbuffer rc) (x + y * pixwidth rc)) as [i | ];
    [ | discriminate ].
  destruct (zbuffer rc !! i) as [old | ]; [ | discriminate ].
  destruct (depth_ltb (Fin z) old); injection H as <-; [ | reflexivity ].
  etransitivity; [ | apply same_scene_with_image_buf ].
  apply same_scene_with_zbuffer, length_insert.
Qed.

Lemma py_setitem_length {A} (l l' : list A) (i : Z) (v : A) :
  py_setitem l i v = Some l' -> length l' = length l.
Proof.
  unfold py_setitem. destruct (py_index l i); [ | discriminate ].
  intros H. injection H as <-. apply length_insert.
Qed.

Lemma draw_column_same_scene (rc rc' : Raycaster) (x ceiling : Z)
    (distance : Q) (texture : Texture) (tx : Q) (side : Intersection) :
  draw_column rc x ceiling distance texture tx side = Some rc' ->
  same_scene rc rc'.
Proof.
  unfold draw_column. apply (for_each_preorder same_scene).
  intros y s s'. apply set_pixel_same_scene.
Qed.

Lemma draw_black_column_same_scene (rc rc' : Raycaster) (x ceiling : Z)
    (distance : Q) :
  draw_black_column rc x ceiling distance = Some rc' -> same_scene rc rc'.
Proof.
  unfold draw_black_column. apply (for_each_preorder same_scene).
  intros y s s'. apply set_pixel_same_scene.
Qed.

Lemma draw_floor_and_ceiling_same_scene (rc rc' : Raycaster)
    (sizes : list Z) (d_screen : Q) :
  draw_floor_and_ceiling rc sizes d_screen = Some rc' -> same_scene rc rc'.
Proof.
  unfold draw_floor_and_ceiling.
  destruct (py_max_list sizes) as [mcs | ]; [ | discriminate ].
  destruct (mcs <=? 0)%Z; [ intros H; injection H as <-; reflexivity | ].
  apply (for_each_preorder same_scene). intros y s s'.
  unfold floor_and_ceiling_row.
  destruct (fdiv _ _) as [d_ground | ]; [ | discriminate ].
  apply (for_each_preorder same_scene). intros [x h] t t'.
  unfold floor_and_ceiling_pixel.
  destruct (y <? h)%Z; [ | intros H; injection H as <-; reflexivity ].
  destruct (py_index (zbuffer t) (x + y * pixwidth t)) as [i | ];
    [ | discriminate ].
  destruct (zbuffer t !! i) as [old | ]; [ | discriminate ].
  destruct (depth_ltb _ old); [ | intros H; injection H as <-; reflexivity ].
  destruct (set_pixel t x y _ _ _) as [t1 | ] eqn:E1; [ | discriminate ].
  intros E2. transitivity t1; eapply set_pixel_same_scene; eassumption.
Qed.

Lemma set_pixels_same_scene (ws : list PixelWrite) (rc rc' : Raycaster) :
  set_pixels ws rc = Some rc' -> same_scene rc rc'.
Proof.
  unfold set_pixels. apply (for_each_preorder same_scene).
  intros [[[[x y] z] b] c] s s'. apply set_pixel_same_scene.
Qed.

Lemma tick_column_same_scene (d_screen : Q) (x : Z) (rc rc' : Raycaster) :
  tick_column d_screen x rc = Some rc' -> same_scene rc rc'.
Proof.
  unfold tick_column.
  destruct (cast_ray rc x) as [[[[wall distance] texture_x] side] | ];
    [ | discriminate ].
  destruct (Qltb 0 distance).
  - destruct (py_setitem (ceiling_sizes rc) x _) as [cs | ] eqn:Ecs;
      [ | discriminate ].
    apply py_setitem_length in Ecs.
    pose proof (same_scene_with_ceiling_sizes rc cs Ecs) as Hcs.
    destruct (0 <? wall)%Z.
    + destruct (py_index _ wall) as [i | ]; [ | discriminate ].
      destruct (_ !! i) as [texture | ]; [ | discriminate ].
      intros H. apply draw_column_same_scene in H. now transitivity (with_ceiling_sizes rc cs).
    + intros H. apply draw_black_column_same_scene in H.
      now transitivity (with_ceiling_sizes rc cs).
  - destruct (py_setitem (ceiling_sizes rc) x 0%Z) as [cs | ] eqn:Ecs;
      [ | discriminate ].
    apply py_setitem_length in Ecs.
    intros H. injection H as <-. now apply same_scene_with_ceiling_sizes.
Qed.

(** X9: a tick that returns has advanced the frame counter by one and has
    otherwise changed the z-buffer, the image and the ceiling sizes only:
    the screen size, the pose, the map and the textures are as they were,
    the z-buffer has the length of the empty z-buffer and the list of
    ceiling sizes the length it had. *)
Theorem tick_changes_buffers_only
    (tan_half_hvof : Q)
    (sprite_pixels : Raycaster -> Q -> option (list PixelWrite))
    (rc rc' : Raycaster) (walltime_msec : Q) :
  tick tan_half_hvof sprite_pixels rc walltime_msec = Some rc' ->
  rc' = with_image_buf
          (with_zbuffer
             (with_ceiling_sizes (with_frame rc (frame rc + 1))
                (ceiling_sizes rc'))
             (zbuffer rc'))
          (image_buf rc')
  /\ length (zbuffer rc') = length (empty_zbuffer rc)
  /\ length (ceiling_sizes rc') = length (ceiling_sizes rc).
Proof.
  intros Htick.
  assert (same_scene (tick_begin rc) rc') as (E & L1 & L2).
  { unfold tick in Htick.
    destruct (screen_distance tan_half_hvof (tick_begin rc)) as [d_screen | ];
      [ | discriminate ].
    destruct (for_each _ (tick_column d_screen) (tick_begin rc))
      as [rc1 | ] eqn:E1; [ | discriminate ].
    destruct (draw_floor_and_ceiling rc1 _ d_screen) as [rc2 | ] eqn:E2;
      [ | discriminate ].
    unfold draw_sprites in Htick.
    destruct (sprite_pixels rc2 d_screen) as [ws | ]; [ | discriminate ].
    transitivity rc1.
    { revert E1. apply (for_each_preorder same_scene).
      intros x s s'. apply tick_column_same_scene. }
    transitivity rc2.
    { now apply draw_floor_and_ceiling_same_scene in E2. }
    now apply set_pixels_same_scene in Htick. }
  split; [ | split; [ exact L1 | exact L2 ] ].
  rewrite E at 1. now destruct rc.
Qed.

Lemma tick_changes_buffers_only_witness :
  exists rc',
    tick (839 # 1000) one_sprite_pixel
      (raycaster_at 1 2 room_map (Vec2.mk 1.5 1.5)) 0 = Some rc'
    /\ frame rc' = 1%Z
    /\ player_position rc' = Vec2.mk 1.5 1.5
    /\ length (zbuffer rc') = 2%nat.
Proof.
  destruct (tick (839 # 1000) one_sprite_pixel
              (raycaster_at 1 2 room_map (Vec2.mk 1.5 1.5)) 0)
    as [rc' | ] eqn:E; [ | vm_compute in E; discriminate E ].
  exists rc'. split; [ reflexivity | ].
  destruct (tick_changes_buffers_only _ _ _ _ _ E) as (R & L & _).
  rewrite R. split; [ reflexivity | split; [ reflexivity | exact L ] ].
Defined.

(** ** The exceptions of a tick *)

(** X10: on a screen without columns or without rows a tick raises
    ([ZeroDivisionError], from the screen distance). *)
Theorem tick_raises_on_empty_screen
    (tan_half_hvof : Q)
    (sprite_pixels : Raycaster -> Q -> option (list PixelWrite))
    (rc : Raycaster) (walltime_msec : Q) :
  pixwidth rc = 0%Z \/ pixheight rc = 0%Z ->
  tick tan_half_hvof sprite_pixels rc walltime_msec = None.
Proof.
  intros H. unfold tick.
  assert (screen_distance tan_half_hvof (tick_begin rc) = None) as ->;
    [ | reflexivity ].
  unfold screen_distance. simpl pixwidth. simpl pixheight.
  destruct H as [-> | ->]; [ reflexivity | ].
  replace (Qeq_bool (tan_half_hvof * inject_Z 0) 0) with true;
    [ now rewrite orb_true_r | ].
  symmetry. apply Qeq_bool_iff. change (inject_Z 0) with 0. ring.
Qed.

Lemma tick_raises_on_empty_screen_witness :
  tick (839 # 1000) one_sprite_pixel
    (raycaster_at 3 0 room_map (Vec2.mk 1.5 1.5)) 0 = None.
Proof.
  apply tick_raises_on_empty_screen. right. reflexivity.
Defined.





(** ** A tick that returns *)










(** The rows of the floor and ceiling pass lie in the upper half of the
    screen. *)
Lemma half_height_bound (h : Z) (d_screen : Q) (y : Z) :
  (0 < h)%Z -> 0 <= d_screen ->
  (0 <= y < int (inject_Z h * (1.0 - d_screen / BLACK_DISTANCE) / 2.0))%Z ->
  (2 * y < h)%Z.
Proof.
  intros Hh Hd [Hy0 Hy].
  assert (0 < inject_Z h) as Hh' by (now apply (proj1 (inject_Z_lt 0 h))).
  set (v := inject_Z h * (1.0 - d_screen / BLACK_DISTANCE) / 2.0) in *.
  assert (v <= inject_Z h * (1 # 2)) as Hv
    by (subst v; unfold BLACK_DISTANCE, Qdiv; inv_consts; nra).
  destruct (Qlt_le_dec v 0) as [N | P].
  - pose proof (int_mono v 0 ltac:(lra)) as M.
    change 0 with (inject_Z 0) in M. rewrite int_inject_Z in M. lia.
  - destruct (int_bounds_nonneg v P) as [L _].
    assert (inject_Z (2 * int v) <= inject_Z h) as A.
    { rewrite inject_Z_mult. change (inject_Z 2) with 2. lra. }
    apply inject_Z_le in A. lia.
Qed.

Lemma py_max_list_nonempty (l : list Z) : l <> [] -> is_Some (py_max_list l).
Proof. destruct l; [ congruence | simpl; eauto ]. Qed.








(** ** The floor and the ceiling *)

(** [max] of a list is one of its elements and none is greater. *)
Lemma py_max_list_spec (l : list Z) (m : Z) :
  py_max_list l = Some m -> m ∈ l /\ Forall (fun a => (a <= m)%Z) l.
Proof.
  destruct l as [ | a l ]; [ discriminate | ]. simpl. intros H.
  injection H as <-.
  assert (forall l (a : Z),
            let m := foldl (fun m b => if (m <? b)%Z then b else m) a l in
            (a <= m)%Z /\ (m = a \/ m ∈ l)
            /\ Forall (fun b => (b <= m)%Z) l) as Hfold.
  { clear. induction l as [ | b l IH ]; intros a; simpl.
    - split; [ lia | split; [ now left | constructor ] ].
    - destruct (IH (if (a <? b)%Z then b else a)) as (Hle & Hin & Hall).
      destruct (a <? b)%Z eqn:E.
      + split; [ lia | split ].
        * right. destruct Hin as [-> | Hin]; [ left | now right ].
        * constructor; [ exact Hle | exact Hall ].
      + split; [ exact Hle | split ].
        * destruct Hin as [-> | Hin]; [ now left | right; now right ].
        * constructor; [ lia | exact Hall ]. }
  destruct (Hfold l a) as (Hle & Hin & Hall). split.
  - destruct Hin as [-> | Hin]; [ left | now right ].
  - constructor; assumption.
Qed.

(** X13: [draw_floor_and_ceiling] raises on an empty list of ceiling sizes
    ([ValueError], from [max]); it returns with nothing drawn when no
    ceiling size is positive, and also when the height a ceiling can have at
    most is not positive, as it is for a screen distance of [BLACK_DISTANCE]
    or more. *)
Theorem draw_floor_and_ceiling_nothing_to_draw (rc : Raycaster)
    (sizes : list Z) (d_screen : Q) :
  (sizes = [] -> draw_floor_and_ceiling rc sizes d_screen = None)
  /\ (sizes <> [] -> Forall (fun size => (size <= 0)%Z) sizes ->
      draw_floor_and_ceiling rc sizes d_screen = Some rc)
  /\ (sizes <> [] -> (0 <= pixheight rc)%Z -> BLACK_DISTANCE <= d_screen ->
      draw_floor_and_ceiling rc sizes d_screen = Some rc).
Proof.
  split; [ | split ].
  - intros ->. reflexivity.
  - intros Hne Hall. unfold draw_floor_and_ceiling.
    destruct (py_max_list_nonempty sizes Hne) as [mcs E]. rewrite E.
    apply py_max_list_spec in E as [Hin _].
    rewrite list.Forall_forall in Hall. specialize (Hall _ Hin).
    now replace (mcs <=? 0)%Z with true by lia.
  - intros Hne Hh Hd. unfold draw_floor_and_ceiling.
    destruct (py_max_list_nonempty sizes Hne) as [mcs ->].
    destruct (mcs <=? 0)%Z; [ reflexivity | ].
    assert (0 <= inject_Z (pixheight rc)) as Hh'
      by (now apply (proj1 (inject_Z_le 0 _))).
    match goal with
    | |- context [int ?v] =>
        assert (int v <= int (inject_Z 0))%Z as Hv;
        [ apply int_mono;
          change (inject_Z 0) with 0; unfold BLACK_DISTANCE, Qdiv in *;
          inv_consts; nra
        | rewrite int_inject_Z in Hv ]
    end.
    unfold range. rewrite seqZ_nil by lia. reflexivity.
Qed.

Lemma draw_floor_and_ceiling_nothing_to_draw_witness :
  draw_floor_and_ceiling (raycaster_at 2 2 room_map (Vec2.mk 1.5 1.5))
    [] 1 = None
  /\ draw_floor_and_ceiling (raycaster_at 2 2 room_map (Vec2.mk 1.5 1.5))
       [0; -3]%Z 1
     = Some (raycaster_at 2 2 room_map (Vec2.mk 1.5 1.5))
  /\ draw_floor_and_ceiling (raycaster_at 2 2 room_map (Vec2.mk 1.5 1.5))
       [1; 1]%Z 5
     = Some (raycaster_at 2 2 room_map (Vec2.mk 1.5 1.5)).
Proof.
  destruct (draw_floor_and_ceiling_nothing_to_draw
              (raycaster_at 2 2 room_map (Vec2.mk 1.5 1.5)) [] 1)
    as (A & _ & _).
  destruct (draw_floor_and_ceiling_nothing_to_draw
              (raycaster_at 2 2 room_map (Vec2.mk 1.5 1.5)) [0; -3]%Z 1)
    as (_ & B & _).
  destruct (draw_floor_and_ceiling_nothing_to_draw
              (raycaster_at 2 2 room_map (Vec2.mk 1.5 1.5)) [1; 1]%Z 5)
    as (_ & _ & C).
  split; [ now apply A | split ].
  - apply B; [ discriminate | ]. repeat constructor; discriminate.
  - apply C; [ discriminate | discriminate | discriminate ].
Defined.

(** Two pixels of the screen share no z-buffer cell. *)
Lemma pixel_index_inj2 (w x y x' y' : Z) :
  (0 <= x < w)%Z -> (0 <= x' < w)%Z -> (0 <= y)%Z -> (0 <= y')%Z ->
  Z.to_nat (x + y * w) = Z.to_nat (x' + y' * w) -> x = x' /\ y = y'.
Proof.
  intros Hx Hx' Hy Hy' H. apply Z2Nat.inj in H; [ | nia | nia ].
  assert (y = y') by nia. subst. lia.
Qed.

Lemma touches_only_refl (F : Z -> Z -> Prop) : Reflexive (touches_only F).
Proof. intros rc _. split; [ reflexivity | auto ]. Qed.

Lemma touches_only_trans (F : Z -> Z -> Prop) : Transitive (touches_only F).
Proof.
  intros a b c Hab Hbc Ha.
  destruct (Hab Ha) as [Sab Uab].
  destruct (same_scene_fields _ _ Sab) as (Hw & Hh & _).
  destruct Sab as (Eb & Lb & Lb').
  assert (same_scene a b) as Sab by (now split).
  destruct Hbc as [Sbc Ubc]; [ now rewrite Lb, Hw, Hh | ].
  split; [ now transitivity b | ].
  intros x y Hxy HF.
  destruct (Uab x y Hxy HF) as [Z1 I1].
  destruct (Ubc x y) as [Z2 I2]; [ | exact HF | ].
  { unfold on_screen in *. now rewrite Hw, Hh. }
  rewrite Hw in Z2. split; congruence.
Qed.

(** A loop whose body, at the elements it runs over, is related by a
    preorder is related by it. *)
Lemma for_each_preorder_on {A S} (R : S -> S -> Prop)
    `{!Reflexive R} `{!Transitive R} (P : A -> Prop)
    (l : list A) (body : A -> S -> option S) :
  (forall a s s', P a -> body a s = Some s' -> R s s') ->
  Forall P l ->
  forall s s', for_each l body s = Some s' -> R s s'.
Proof.
  intros Hbody Hl. induction Hl as [ | a l Ha _ IH ]; intros s s' H;
    simpl in H.
  - injection H as <-. reflexivity.
  - destruct (body a s) as [s1 | ] eqn:E; [ | discriminate ].
    transitivity s1; [ now apply (Hbody a) | now apply IH ].
Qed.

(** One [set_pixel] at a pixel of the screen touches that pixel only. *)
Lemma set_pixel_touches_only (F : Z -> Z -> Prop) (rc rc' : Raycaster)
    (x y : Z) (z b : Q) (c : option RGBA) :
  on_screen rc x y -> F x y ->
  set_pixel rc x y z b c = Some rc' -> touches_only F rc rc'.
Proof.
  intros [Hx Hy] HF E Hlen.
  split; [ now apply set_pixel_same_scene in E | ].
  intros x' y' [Hx' Hy'] HF'.
  destruct (set_pixel_effect _ _ _ _ _ _ _ E)
    as [[-> | (c' & i & old & _ & Hi & _ & _ & Ezb & Eimg)] _]; [ auto | ].
  destruct (py_index_pixel _ _ _ _ _ Hx Hy Hlen) as [Hi' _].
  assert (i = Z.to_nat (x + y * pixwidth rc)) as -> by congruence.
  rewrite Ezb, Eimg. split.
  - apply list_lookup_insert_ne. intros Heq.
    apply pixel_index_inj2 in Heq as [-> ->]; [ | lia .. ]. contradiction.
  - apply lookup_insert_ne. intros Heq. injection Heq as -> ->.
    contradiction.
Qed.

(** X14: the floor and ceiling pass leaves the wall strips alone.  On a
    screen with fitting buffers and for a screen distance that is not
    negative, a pixel of column [x] in a row from the ceiling size of the
    column down to the same number of rows above the bottom keeps its depth
    and its colour, whatever the depths are. *)
Theorem draw_floor_and_ceiling_keeps_walls (rc rc' : Raycaster)
    (sizes : list Z) (d_screen : Q) (x y size : Z) :
  (0 < pixheight rc)%Z -> 0 <= d_screen ->
  length (zbuffer rc)
  = (Z.to_nat (pixheight rc) * Z.to_nat (pixwidth rc))%nat ->
  length sizes = Z.to_nat (pixwidth rc) ->
  draw_floor_and_ceiling rc sizes d_screen = Some rc' ->
  on_screen rc x y ->
  sizes !! Z.to_nat x = Some size ->
  (size <= y < pixheight rc - size)%Z ->
  zbuffer rc' !! Z.to_nat (x + y * pixwidth rc)
  = zbuffer rc !! Z.to_nat (x + y * pixwidth rc)
  /\ image_buf rc' !! (x, y) = image_buf rc !! (x, y).
Proof.
  intros Hh Hd Hlen Hsizes Hdraw Hxy Hsize Hy.
  set (F := ceiling_or_floor sizes (pixheight rc)).
  set (W := pixwidth rc). set (H := pixheight rc).
  (* the states of the loops: the screen of [rc], fitting buffers *)
  set (R := fun s s' : Raycaster =>
              pixwidth s = W /\ pixheight s = H -> touches_only F s s').
  assert (Reflexive R) as Rrefl by (intros s _; apply touches_only_refl).
  assert (Transitive R) as Rtrans.
  { intros a b c Hab Hbc Ha.
    pose proof (Hab Ha) as Tab.
    intros La. destruct (Tab La) as [Sab _].
    destruct (same_scene_fields _ _ Sab) as (Hw' & Hh' & _).
    refine (touches_only_trans F a b c Tab (Hbc _) La).
    destruct Ha. split; congruence. }
  assert (R rc rc') as HR.
  { revert Hdraw. unfold draw_floor_and_ceiling.
    destruct (py_max_list sizes) as [mcs | ]; [ | discriminate ].
    destruct (mcs <=? 0)%Z; [ intros E; injection E as <-; reflexivity | ].
    apply (for_each_preorder_on R
             (fun y => (0 <= y)%Z /\ (2 * y < H)%Z)).
    - intros y0 s s' [Hy0 Hy1]. unfold floor_and_ceiling_row.
      destruct (fdiv _ _) as [d_ground | ]; [ | discriminate ].
      apply (for_each_preorder_on R
               (fun xh : Z * Z =>
                  (0 <= xh.1 < W)%Z /\ sizes !! Z.to_nat xh.1 = Some xh.2)).
      + intros [x0 h0] t t' [Hx0 Hh0]. simpl in Hx0, Hh0.
        unfold floor_and_ceiling_pixel.
        destruct (y0 <? h0)%Z eqn:Ey;
          [ | intros E; injection E as <-; reflexivity ].
        destruct (py_index (zbuffer t) (x0 + y0 * pixwidth t)) as [i | ];
          [ | discriminate ].
        destruct (zbuffer t !! i) as [old | ]; [ | discriminate ].
        destruct (depth_ltb _ old);
          [ | intros E; injection E as <-; reflexivity ].
        destruct (set_pixel t x0 y0 _ _ _) as [t1 | ] eqn:E1;
          [ | discriminate ].
        intros E2 [Hwt Hht].
        assert (touches_only F t t1) as T1.
        { eapply set_pixel_touches_only; [ | | exact E1 ].
          - unfold on_screen. rewrite Hwt, Hht. lia.
          - exists h0. split; [ exact Hh0 | left; lia ]. }
        intros Lt. destruct (T1 Lt) as [S1 _].
        destruct (same_scene_fields _ _ S1) as (Hw1 & Hh1 & _).
        refine (touches_only_trans F t t1 t' T1 _ Lt).
        eapply set_pixel_touches_only; [ | | exact E2 ].
        * unfold on_screen. rewrite Hw1, Hh1, Hwt, Hht. lia.
        * exists h0. split; [ exact Hh0 | right ]. rewrite Hh1, Hht.
          fold H. lia.
      + apply Forall_lookup. intros i [x0 h0] Hi.
        rewrite list_lookup_imap in Hi.
        destruct (sizes !! i) as [h' | ] eqn:Eh; [ | discriminate ].
        injection Hi as <- <-. simpl. rewrite Nat2Z.id.
        apply lookup_lt_Some in Eh as Hlt. subst W. split; [ lia | exact Eh ].
    - apply list.Forall_forall. intros y0 Hy0. unfold range in Hy0.
      apply elem_of_seqZ in Hy0. split; [ lia | ].
      apply (half_height_bound H d_screen); [ exact Hh | exact Hd | ].
      subst H. lia. }
  destruct (HR (conj eq_refl eq_refl) Hlen) as [_ U].
  apply U; [ exact Hxy | ].
  intros (size' & Hsize' & Hrow).
  assert (size' = size) as -> by congruence. lia.
Qed.

Lemma draw_floor_and_ceiling_keeps_walls_witness :
  exists rc',
    draw_floor_and_ceiling (raycaster_at 1 4 room_map (Vec2.mk 1.5 1.5))
      [1%Z] 1 = Some rc'
    /\ zbuffer rc' !! Z.to_nat (0 + 1 * 1) = Some Inf
    /\ image_buf rc' !! (0%Z, 1%Z) = None
    /\ zbuffer rc' !! 0%nat <> Some Inf.
Proof.
  destruct (draw_floor_and_ceiling (raycaster_at 1 4 room_map (Vec2.mk 1.5 1.5))
              [1%Z] 1) as [rc' | ] eqn:E; [ | vm_compute in E; discriminate E ].
  exists rc'. split; [ reflexivity | ].
  destruct (draw_floor_and_ceiling_keeps_walls
              (raycaster_at 1 4 room_map (Vec2.mk 1.5 1.5)) rc' [1%Z] 1 0 1 1)
    as [Hz Hi].
  - reflexivity.
  - discriminate.
  - reflexivity.
  - reflexivity.
  - exact E.
  - split; split; (discriminate || reflexivity).
  - reflexivity.
  - split; [ discriminate | reflexivity ].
  - split; [ exact Hz | split; [ exact Hi | ] ].
    vm_compute in E. injection E as <-. discriminate.
Defined.

(** ** Moving to where the player stands *)

(** The two snaps along one axis, made a second time from the coordinate
    they gave, give that coordinate again. *)
Lemma snap_twice (solid : Q -> bool) (x : Q) :
  (forall a b, int a = int b -> solid a = solid b) ->
  solid x = false -> (0 <= int x)%Z ->
  let snap := fun x : Q =>
    let x1 := if solid (x + 0.1) then inject_Z (int x) + 0.9 else x in
    if solid (x1 - 0.1) then inject_Z (int x1) + 0.1 else x1 in
  int (snap x) = int x /\ snap (snap x) = snap x.
Proof.
  intros Hint Hx Hc snap. subst snap. cbv beta zeta.
  assert (0 <= inject_Z (int x)) as Hc'
    by (now apply (proj1 (inject_Z_le 0 (int x)))).
  assert (forall d, 0 <= d -> d < 1 -> int (inject_Z (int x) + d) = int x)
    as Hcell by (intros d D0 D1; apply int_in_cell; [ exact Hc | lra | lra ]).
  assert (forall d, 0 <= d -> d < 1 -> solid (inject_Z (int x) + d) = false)
    as Hfree by (intros d D0 D1; rewrite <- Hx; now apply Hint, Hcell).
  destruct (solid (x + 0.1)) eqn:E1.
  - (* pushed back from the square to the right *)
    assert (solid (inject_Z (int x) + 0.9 - 0.1) = false) as E2.
    { rewrite <- (Hfree 0.8) by lra. apply Hint.
      apply int_comp. ring. }
    rewrite E2.
    assert (int (x + 0.1) = (int x + 1)%Z) as Inext.
    { pose proof (int_mono x (x + 0.1) ltac:(lra)) as M.
      pose proof (int_near x (x + 0.1) ltac:(lra) ltac:(lra)) as N.
      destruct (Z.eq_dec (int (x + 0.1)) (int x)) as [Eq | Ne]; [ | lia ].
      rewrite (Hint _ _ Eq) in E1. congruence. }
    assert (solid (inject_Z (int x) + 0.9 + 0.1) = true) as E3.
    { rewrite <- E1. apply Hint. rewrite Inext.
      apply int_in_cell; [ lia | push_inject; lra | push_inject; lra ]. }
    rewrite E3, (Hcell 0.9) by lra. rewrite E2. auto.
  - destruct (solid (x - 0.1)) eqn:E2.
    + (* pushed back from the square to the left *)
      rewrite (Hcell 0.1) by lra.
      assert (solid (inject_Z (int x) + 0.1 + 0.1) = false) as E3.
      { rewrite <- (Hfree 0.2) by lra. apply Hint, int_comp. ring. }
      assert (solid (inject_Z (int x) + 0.1 - 0.1) = false) as E4.
      { rewrite <- (Hfree 0) by lra. apply Hint, int_comp. ring. }
      rewrite E3, E4. auto.
    + rewrite E1, E2. auto.
Qed.

(** X15: a move into an empty square, made a second time to the position
    it gave, changes nothing: the position the snaps chose is kept. *)
Theorem move_player_idempotent (rc : Raycaster) (x y : Q) :
  map_square (map rc) x y = 0%Z ->
  _move_player (_move_player rc x y)
    (Vec2.x (player_position (_move_player rc x y)))
    (Vec2.y (player_position (_move_player rc x y)))
  = _move_player rc x y.
Proof.
  intros H.
  destruct (map_square_empty_on_map _ _ _ H) as [[Hx0 _] [Hy0 _]].
  pose proof (snap_twice (fun a => negb (map_square (map rc) a y =? 0)%Z) x)
    as Sx.
  cbv beta zeta in Sx.
  destruct Sx as [Ix Tx].
  { intros a b E. now rewrite (map_square_int _ a y b y E eq_refl). }
  { now rewrite H. }
  { exact Hx0. }
  set (px := if negb (map_square (map rc) (_ - 0.1) y =? 0)%Z then _ else _)
    in Ix, Tx.
  assert (map_square (map rc) px y = 0%Z) as Hpx
    by (now rewrite (map_square_int _ px y x y Ix eq_refl)).
  pose proof (snap_twice (fun b => negb (map_square (map rc) px b =? 0)%Z) y)
    as Sy.
  cbv beta zeta in Sy.
  destruct Sy as [Iy Ty].
  { intros a b E. now rewrite (map_square_int _ px a px b eq_refl E). }
  { now rewrite Hpx. }
  { exact Hy0. }
  set (py := if negb (map_square (map rc) px (_ - 0.1) =? 0)%Z then _ else _)
    in Iy, Ty.
  assert (_move_player rc x y = with_player_position rc (Vec2.mk px py)) as E.
  { unfold _move_player. rewrite (proj2 (Z.eqb_eq _ _) H). reflexivity. }
  rewrite E. cbn [player_position with_player_position Vec2.x Vec2.y].
  unfold _move_player. cbn [map with_player_position].
  assert (map_square (map rc) px py = 0%Z) as Hpp
    by (now rewrite (map_square_int _ px py px y eq_refl Iy)).
  rewrite (proj2 (Z.eqb_eq _ _) Hpp).
  assert (forall a, map_square (map rc) a py = map_square (map rc) a y) as Hrow
    by (intros a; now apply map_square_int).
  rewrite !Hrow. rewrite Tx. rewrite Ty.
  now destruct rc.
Qed.

Lemma move_player_idempotent_witness :
  _move_player
    (_move_player (raycaster_at 2 2 block_map (Vec2.mk 0.5 0.5)) 0.95 1.5)
    (Vec2.x (player_position
       (_move_player (raycaster_at 2 2 block_map (Vec2.mk 0.5 0.5)) 0.95 1.5)))
    (Vec2.y (player_position
       (_move_player (raycaster_at 2 2 block_map (Vec2.mk 0.5 0.5)) 0.95 1.5)))
  = _move_player (raycaster_at 2 2 block_map (Vec2.mk 0.5 0.5)) 0.95 1.5.
Proof.
  apply (move_player_idempotent
           (raycaster_at 2 2 block_map (Vec2.mk 0.5 0.5)) 0.95 1.5).
  reflexivity.
Defined.

(** ** pywolf: the loaded map and the start square *)

Lemma load_map_lookup (cmap : list string) (y : nat) :
  Pywolf.load_map cmap !! y
  = (fun line => Pywolf.translate <$> list_ascii_of_string line)
      <$> reverse cmap !! y.
Proof. unfold Pywolf.load_map. apply list_lookup_fmap. Qed.

(** A cell of a rectangular map, asked for at any point of the cell. *)
Lemma map_square_cell (m : list (list Z)) (row : list Z) (id : Z)
    (c r : nat) (x y : Q) :
  Pywolf.rectangular m ->
  m !! r = Some row -> row !! c = Some id ->
  int x = Z.of_nat c -> int y = Z.of_nat r ->
  Pywolf.map_square m x y = Some id.
Proof.
  intros (row0 & H0 & Hall) Hrow Hid Hx Hy.
  unfold Pywolf.map_square. rewrite Hx, Hy, H0, !Nat2Z.id, Hrow.
  assert (length row = length row0) as Hlen
    by exact (Forall_lookup_1 _ _ _ _ Hall Hrow).
  pose proof (lookup_lt_Some _ _ _ Hrow) as Lr.
  pose proof (lookup_lt_Some _ _ _ Hid) as Lc.
  replace (Z.of_nat c <? 0)%Z with false by lia.
  replace (Z.of_nat c >=? Z.of_nat (length row0))%Z with false by lia.
  replace (Z.of_nat r <? 0)%Z with false by lia.
  replace (Z.of_nat r >=? Z.of_nat (length m))%Z with false by lia.
  exact Hid.
Qed.

(** X16: [load_map] flips the rows: the character in column [c] of the
    [r]-th line of the text (counted from the top) is the cell in column
    [c] of row [n - 1 - r] of the map ([n] lines), so the last line of the
    text is row 0.  On a rectangular map the query at any point of that cell
    returns the translation of the character: the digit's value for a
    digit, 0 for any other character. *)
Theorem load_map_flips_rows (cmap : list string) (r c : nat)
    (line : string) (ch : ascii) (fx fy : Q) :
  cmap !! r = Some line ->
  list_ascii_of_string line !! c = Some ch ->
  length (Pywolf.load_map cmap) = length cmap
  /\ Pywolf.load_map cmap !! (length cmap - 1 - r)%nat
     = Some (Pywolf.translate <$> list_ascii_of_string line)
  /\ (Pywolf.rectangular (Pywolf.load_map cmap) ->
      0 <= fx -> fx < 1 -> 0 <= fy -> fy < 1 ->
      Pywolf.map_square (Pywolf.load_map cmap)
        (inject_Z (Z.of_nat c) + fx)
        (inject_Z (Z.of_nat (length cmap - 1 - r)) + fy)
      = Some (Pywolf.translate ch)
      /\ Pywolf.translate ch
         = (let n := Z.of_N (N_of_ascii ch) in
            if (48 <=? n)%Z && (n <=? 57)%Z then n - 48 else 0)%Z).
Proof.
  intros Hline Hch.
  assert (r < length cmap)%nat as Hr by (eapply lookup_lt_Some, Hline).
  assert (Pywolf.load_map cmap !! (length cmap - 1 - r)%nat
          = Some (Pywolf.translate <$> list_ascii_of_string line)) as Hrow.
  { rewrite load_map_lookup, reverse_lookup by lia.
    replace (length cmap - S (length cmap - 1 - r))%nat with r by lia.
    now rewrite Hline. }
  split; [ | split; [ exact Hrow | ] ].
  - unfold Pywolf.load_map. now rewrite length_fmap, length_reverse.
  - intros Hrect X0 X1 Y0 Y1. split; [ | reflexivity ].
    apply (map_square_cell _ _ _ c (length cmap - 1 - r) _ _ Hrect Hrow).
    + now rewrite list_lookup_fmap, Hch.
    + apply int_in_cell; [ lia | lra | lra ].
    + apply int_in_cell; [ lia | lra | lra ].
Qed.

Lemma load_map_flips_rows_witness :
  length (Pywolf.load_map Pywolf.cmap) = length Pywolf.cmap
  /\ Pywolf.map_square (Pywolf.load_map Pywolf.cmap)
       (inject_Z (Z.of_nat 9) + 0.5)
       (inject_Z (Z.of_nat (length Pywolf.cmap - 1 - 2)) + 0.25)
     = Some (Pywolf.translate "2").
Proof.
  destruct (load_map_flips_rows Pywolf.cmap 2 9 "1..111111222222.2221" "2"
              0.5 0.25 eq_refl eq_refl) as (L & _ & M).
  split; [ exact L | ].
  apply M; [ exact cmap_rectangular | | | | ]; (discriminate || reflexivity).
Defined.

(** [find]: the index of the first occurrence, or -1. *)
Lemma find_from_spec (c : ascii) (line : list ascii) (i : Z) :
  (exists k : nat,
     Pywolf.find_from c line i = (i + Z.of_nat k)%Z
     /\ line !! k = Some c
     /\ forall j : nat, (j < k)%nat -> line !! j <> Some c)
  \/ (Pywolf.find_from c line i = (-1)%Z /\ c ∉ line).
Proof.
  revert i. induction line as [ | a line IH ]; intros i.
  - right. split; [ reflexivity | apply not_elem_of_nil ].
  - simpl. destruct (Ascii.eqb a c) eqn:E.
    + apply Ascii.eqb_eq in E as ->. left. exists 0%nat.
      split; [ lia | split; [ reflexivity | intros j Hj; lia ] ].
    + apply Ascii.eqb_neq in E.
      destruct (IH (i + 1)%Z) as [(k & Hf & Hk & Hfirst) | [Hf Hnot]].
      * left. exists (S k). split; [ lia | split; [ exact Hk | ] ].
        intros [ | j ] Hj; simpl; [ congruence | apply Hfirst; lia ].
      * right. split; [ exact Hf | ].
        intros Hin. apply elem_of_cons in Hin as [-> | Hin]; auto.
Qed.

Lemma start_from_spec (rows : list string) (y : Z) :
  (exists (i k : nat) (line : string),
     rows !! i = Some line
     /\ list_ascii_of_string line !! k = Some "s"%char
     /\ (forall j : nat, (j < k)%nat ->
           list_ascii_of_string line !! j <> Some "s"%char)
     /\ (forall (j : nat) (l : string),
           (j < i)%nat -> rows !! j = Some l ->
           "s"%char ∉ list_ascii_of_string l)
     /\ Pywolf.start_from rows y
        = Some (Vec2.mk (inject_Z (Z.of_nat k) + 0.5)
                  (inject_Z (y + Z.of_nat i) + 0.5)))
  \/ (Pywolf.start_from rows y = None
      /\ forall l, l ∈ rows -> "s"%char ∉ list_ascii_of_string l).
Proof.
  revert y. induction rows as [ | line rows IH ]; intros y.
  - right. split; [ reflexivity | intros l Hl; inversion Hl ].
  - simpl. unfold Pywolf.find.
    destruct (find_from_spec "s" (list_ascii_of_string line) 0)
      as [(k & Hf & Hk & Hfirst) | [Hf Hnot]]; rewrite Hf.
    + left. exists 0%nat, k, line.
      replace (0 + Z.of_nat k >=? 0)%Z with true by lia.
      split; [ reflexivity | split; [ exact Hk | split; [ exact Hfirst | ] ] ].
      split; [ intros j l Hj; lia | ].
      now rewrite Z.add_0_l, Z.add_0_r.
    + cbn [Z.geb Z.compare].
      destruct (IH (y + 1)%Z)
        as [(i & k & l & Hl & Hk & Hfirst & Hrows & E) | [E Hnone]].
      * left. exists (S i), k, l.
        split; [ exact Hl | split; [ exact Hk | split; [ exact Hfirst | ] ] ].
        split.
        -- intros [ | j ] l' Hj Hl'; simpl in Hl'.
           ++ now injection Hl' as <-.
           ++ apply (Hrows j); [ lia | exact Hl' ].
        -- replace (y + Z.of_nat (S i))%Z with (y + 1 + Z.of_nat i)%Z by lia.
           exact E.
      * right. split; [ exact E | ].
        intros l Hl. apply elem_of_cons in Hl as [-> | Hl]; auto.
Qed.

(** X17: the player starts in the middle of the square of the first 's'
    (no column left of it holds an 's') of the lowest row of the map that
    has one (no row below it holds an 's'), which the map holds as an
    empty square (the character is translated to 0); without any 's' the
    position is left at (0, 0).  For the map in the source the start is
    (10.5, 1.5). *)
Theorem player_start_on_empty_square (cmap : list string) :
  ((exists line, line ∈ cmap /\ "s"%char ∈ list_ascii_of_string line) ->
   exists (r k : nat) (line : string),
     cmap !! r = Some line
     /\ list_ascii_of_string line !! k = Some "s"%char
     /\ (forall j : nat,
           (j < k)%nat -> list_ascii_of_string line !! j <> Some "s"%char)
     /\ (forall (j : nat) (l : string),
           (r < j)%nat -> cmap !! j = Some l ->
           "s"%char ∉ list_ascii_of_string l)
     /\ Pywolf.player_start cmap
        = Vec2.mk (inject_Z (Z.of_nat k) + 0.5)
            (inject_Z (Z.of_nat (length cmap - 1 - r)) + 0.5)
     /\ (Pywolf.rectangular (Pywolf.load_map cmap) ->
         Pywolf.map_square (Pywolf.load_map cmap)
           (Vec2.x (Pywolf.player_start cmap))
           (Vec2.y (Pywolf.player_start cmap)) = Some 0%Z))
  /\ ((forall line, line ∈ cmap -> "s"%char ∉ list_ascii_of_string line) ->
      Pywolf.player_start cmap = Vec2.mk 0 0)
  /\ (Vec2.x (Pywolf.player_start Pywolf.cmap) == 10.5
      /\ Vec2.y (Pywolf.player_start Pywolf.cmap) == 1.5).
Proof.
  unfold Pywolf.player_start.
  split; [ | split; [ | split; reflexivity ] ].
  - intros (line0 & Hin0 & Hs0).
    destruct (start_from_spec (reverse cmap) 0)
      as [(i & k & line & Hline & Hk & Hfirst & Hrows & E) | [_ Hnone]].
    2:{ exfalso. apply (Hnone line0); [ | exact Hs0 ].
        now apply elem_of_reverse. }
    assert (i < length cmap)%nat as Hi.
    { apply lookup_lt_Some in Hline. now rewrite length_reverse in Hline. }
    rewrite reverse_lookup in Hline by exact Hi.
    exists (length cmap - S i)%nat, k, line.
    split; [ exact Hline | split; [ exact Hk | ] ].
    split; [ exact Hfirst | split; [ | split ] ].
    + intros j l Hj Hl.
      assert (j < length cmap)%nat as Hjl by (eapply lookup_lt_Some, Hl).
      apply (Hrows (length cmap - S j)%nat); [ lia | ].
      rewrite reverse_lookup by lia.
      now replace (length cmap - S (length cmap - S j))%nat with j by lia.
    + rewrite E. cbn [default].
      now replace (0 + Z.of_nat i)%Z
        with (Z.of_nat (length cmap - 1 - (length cmap - S i))) by lia.
    + intros Hrect. rewrite E. unfold default.
      cbn [from_option Datatypes.id Vec2.x Vec2.y].
      apply (map_square_cell _
               (Pywolf.translate <$> list_ascii_of_string line) _ k i _ _
               Hrect).
      * rewrite load_map_lookup, reverse_lookup by exact Hi.
        now rewrite Hline.
      * now rewrite list_lookup_fmap, Hk.
      * apply int_in_cell; [ lia | lra | lra ].
      * rewrite Z.add_0_l. apply int_in_cell; [ lia | lra | lra ].
  - intros Hnone.
    destruct (start_from_spec (reverse cmap) 0)
      as [(i & k & line & Hline & Hk & _) | [-> _]]; [ | reflexivity ].
    exfalso. apply (Hnone line).
    + apply elem_of_reverse. eapply list_elem_of_lookup_2, Hline.
    + eapply list_elem_of_lookup_2, Hk.
Qed.

Lemma player_start_on_empty_square_witness :
  Pywolf.map_square (Pywolf.load_map Pywolf.cmap)
    (Vec2.x (Pywolf.player_start Pywolf.cmap))
    (Vec2.y (Pywolf.player_start Pywolf.cmap)) = Some 0%Z
  /\ Pywolf.player_start ["1.1"; "111"]%string = Vec2.mk 0 0.
Proof.
  destruct (player_start_on_empty_square Pywolf.cmap) as (A & _ & _).
  destruct (player_start_on_empty_square ["1.1"; "111"]%string)
    as (_ & B & _).
  split.
  - destruct A as (r & k & line & _ & _ & _ & _ & _ & M).
    + exists "1.........s........1"%string. split.
      * apply (list_elem_of_lookup_2 _ 8). reflexivity.
      * apply (list_elem_of_lookup_2 _ 10). reflexivity.
    + apply M, cmap_rectangular.
  - apply B. intros line Hin.
    apply elem_of_cons in Hin as [-> | Hin];
      [ | apply elem_of_cons in Hin as [-> | Hin]; [ | inversion Hin ] ];
      intros Hs; vm_compute in Hs;
      repeat (apply elem_of_cons in Hs as [Hs | Hs]; [ discriminate Hs | ]);
      inversion Hs.
Defined.

(** ** pywolf: the exceptions of the map query *)

(** X18: pywolf's query reads the width off the first row only and only
    after the test [mx < 0]: on a map without rows it answers the sentinel
    left of the map and raises ([IndexError]) everywhere else; on a map whose
    row [r] is shorter than the first row it raises for the cells of row [r]
    that the first row has and row [r] lacks. *)
Theorem pywolf_map_square_raises (m : list (list Z)) (x y : Q) :
  (m = [] -> x <= -1 -> Pywolf.map_square m x y = Some SENTINEL)
  /\ (m = [] -> -1 < x -> Pywolf.map_square m x y = None)
  /\ (forall (row0 row : list Z) (r c : nat),
        m !! 0%nat = Some row0 -> m !! r = Some row ->
        (length row <= c < length row0)%nat ->
        int x = Z.of_nat c -> int y = Z.of_nat r ->
        Pywolf.map_square m x y = None).
Proof.
  split; [ | split ].
  - intros -> Hx. unfold Pywolf.map_square.
    now rewrite (proj2 (int_lt_0 x) Hx).
  - intros -> Hx. unfold Pywolf.map_square.
    destruct (int x <? 0)%Z eqn:E; [ apply int_lt_0 in E; lra | reflexivity ].
  - intros row0 row r c H0 Hrow Hc Hx Hy.
    unfold Pywolf.map_square. rewrite Hx, Hy, H0, !Nat2Z.id, Hrow.
    pose proof (lookup_lt_Some _ _ _ Hrow) as Lr.
    replace (Z.of_nat c <? 0)%Z with false by lia.
    replace (Z.of_nat c >=? Z.of_nat (length row0))%Z with false by lia.
    replace (Z.of_nat r <? 0)%Z with false by lia.
    replace (Z.of_nat r >=? Z.of_nat (length m))%Z with false by lia.
    apply lookup_ge_None. lia.
Qed.

Lemma pywolf_map_square_raises_witness :
  Pywolf.map_square [] (-2) 0 = Some SENTINEL
  /\ Pywolf.map_square [] 0.5 0.5 = None
  /\ Pywolf.map_square [ [1; 1; 1]; [1] ]%Z 2.5 1.5 = None.
Proof.
  destruct (pywolf_map_square_raises [] (-2) 0) as (A & _ & _).
  destruct (pywolf_map_square_raises [] 0.5 0.5) as (_ & B & _).
  destruct (pywolf_map_square_raises [ [1; 1; 1]; [1] ]%Z 2.5 1.5)
    as (_ & _ & C).
  split; [ apply A; [ reflexivity | discriminate ] | split ].
  - apply B; reflexivity.
  - apply (C [1; 1; 1]%Z [1%Z] 1%nat 2%nat); try reflexivity.
    simpl. lia.
Defined.

(** ** pywolf: the texture coordinate of a wall *)

(** The floor of a float moved by a whole number. *)
Lemma Qfloor_shift (q : Q) (n : Z) :
  Qfloor (q + inject_Z n) = (Qfloor q + n)%Z.
Proof.
  pose proof (Qfloor_le q) as L. pose proof (Qlt_floor q) as U.
  pose proof (Qfloor_le (q + inject_Z n)) as L'.
  pose proof (Qlt_floor (q + inject_Z n)) as U'.
  rewrite inject_Z_plus in U, U'. change (inject_Z 1) with 1 in U, U'.
  assert (inject_Z (Qfloor (q + inject_Z n)) < inject_Z (Qfloor q + n + 1)) as A
    by (rewrite !inject_Z_plus; change (inject_Z 1) with 1; lra).
  assert (inject_Z (Qfloor q + n) < inject_Z (Qfloor (q + inject_Z n) + 1)) as B
    by (rewrite !inject_Z_plus; change (inject_Z 1) with 1; lra).
  apply inject_Z_lt in A, B. lia.
Qed.

#[export] Instance mod1_comp : Proper (Qeq ==> Qeq) mod1.
Proof.
  intros p q E. unfold mod1. rewrite (Qfloor_comp p q E). lra.
Qed.

Lemma mod1_shift (q : Q) (n : Z) : mod1 (q + inject_Z n) == mod1 q.
Proof.
  unfold mod1. rewrite Qfloor_shift, inject_Z_plus. ring.
Qed.

(** X19: pywolf's intersection is the canonical one with another texture
    coordinate.  Both never raise and return the same point; pywolf's
    coordinate is the offset of the point along the edge, between 0 and 1
    when the point lies on the boundary of the square; it differs from the
    canonical coordinate by a whole number, so that in exact arithmetic the
    two are the same coordinate after the wrap [% 1.0] of the texture. *)
Theorem pywolf_intersection_offset (camera cast_ray : Vec2.t) :
  exists (side : Intersection) (tx tx' : Q) (p : Vec2.t) (n : Z),
    intersection_with_mapsquare_accurate camera cast_ray = Some (side, tx, p)
    /\ Pywolf.intersection_with_mapsquare camera cast_ray = Some (tx', p)
    /\ tx' == tx + inject_Z n
    /\ mod1 tx' == mod1 tx
    /\ (on_square_boundary (square_center_of cast_ray) p ->
        0 <= tx' /\ tx' <= 1).
Proof.
  unfold intersection_with_mapsquare_accurate, edge_intersection,
    Pywolf.intersection_with_mapsquare.
  assert (forall tx tx' n, tx' == tx + inject_Z n -> mod1 tx' == mod1 tx)
    as Hwrap by (intros tx tx' n ->; apply mod1_shift).
  destruct (intersected_edge camera cast_ray);
    match goal with
    | |- context [intercept ?a ?b ?c ?d ?e] =>
        destruct (intercept_never_raises a b c d e) as (v & -> & _)
    end.
  - (* top *)
    exists TOP, (- v), (Vec2.x (square_center_of cast_ray) + 0.5 - v),
      (Vec2.mk v (Vec2.y (square_center_of cast_ray) + 0.5)),
      (int (Vec2.x cast_ray) + 1)%Z.
    assert (Vec2.x (square_center_of cast_ray) + 0.5 - v
            == - v + inject_Z (int (Vec2.x cast_ray) + 1)) as E
      by (cbn [square_center_of Vec2.x]; push_inject; ring).
    repeat split; try reflexivity; try exact E; try (eapply Hwrap, E);
      destruct H as [([H | H] & _) | (_ & L & U)];
      cbn [Vec2.x Vec2.y] in *; lra.
  - (* bottom *)
    exists BOTTOM, v, (v - Vec2.x (square_center_of cast_ray) + 0.5),
      (Vec2.mk v (Vec2.y (square_center_of cast_ray) - 0.5)),
      (- int (Vec2.x cast_ray))%Z.
    assert (v - Vec2.x (square_center_of cast_ray) + 0.5
            == v + inject_Z (- int (Vec2.x cast_ray))) as E
      by (cbn [square_center_of Vec2.x]; rewrite inject_Z_opp; ring).
    repeat split; try reflexivity; try exact E; try (eapply Hwrap, E);
      destruct H as [([H | H] & _) | (_ & L & U)];
      cbn [Vec2.x Vec2.y] in *; lra.
  - (* left *)
    exists LEFT, (- v), (Vec2.y (square_center_of cast_ray) + 0.5 - v),
      (Vec2.mk (Vec2.x (square_center_of cast_ray) - 0.5) v),
      (int (Vec2.y cast_ray) + 1)%Z.
    assert (Vec2.y (square_center_of cast_ray) + 0.5 - v
            == - v + inject_Z (int (Vec2.y cast_ray) + 1)) as E
      by (cbn [square_center_of Vec2.y]; push_inject; ring).
    repeat split; try reflexivity; try exact E; try (eapply Hwrap, E);
      destruct H as [(_ & L & U) | ([H | H] & _)];
      cbn [Vec2.x Vec2.y] in *; lra.
  - (* right *)
    exists RIGHT, v, (v - Vec2.y (square_center_of cast_ray) + 0.5),
      (Vec2.mk (Vec2.x (square_center_of cast_ray) + 0.5) v),
      (- int (Vec2.y cast_ray))%Z.
    assert (v - Vec2.y (square_center_of cast_ray) + 0.5
            == v + inject_Z (- int (Vec2.y cast_ray))) as E
      by (cbn [square_center_of Vec2.y]; rewrite inject_Z_opp; ring).
    repeat split; try reflexivity; try exact E; try (eapply Hwrap, E);
      destruct H as [(_ & L & U) | ([H | H] & _)];
      cbn [Vec2.x Vec2.y] in *; lra.
Qed.

Lemma pywolf_intersection_offset_witness :
  exists (side : Intersection) (tx tx' : Q) (p : Vec2.t) (n : Z),
    intersection_with_mapsquare_accurate (Vec2.mk 0.5 0.5)
      (Vec2.mk 1.25 1.125) = Some (side, tx, p)
    /\ Pywolf.intersection_with_mapsquare (Vec2.mk 0.5 0.5)
         (Vec2.mk 1.25 1.125) = Some (tx', p)
    /\ tx' == tx + inject_Z n
    /\ 0 <= tx' /\ tx' <= 1.
Proof.
  destruct (pywolf_intersection_offset (Vec2.mk 0.5 0.5) (Vec2.mk 1.25 1.125))
    as (side & tx & tx' & p & n & R & R' & E & _ & B).
  exists side, tx, tx', p, n.
  split; [ exact R | split; [ exact R' | split; [ exact E | ] ] ].
  apply B. vm_compute in R. injection R as _ _ <-.
  right. split; [ left; reflexivity | split; discriminate ].
Defined.
